(** * Shallow embedding of the configuration module of rustm (src/src/config.rs)

    The module keeps two user settings in one YAML file and offers three
    operations that touch the filesystem: [validate_projects_directory],
    [Config::load] and [Config::create_and_persist].  The filesystem is
    modelled as a finite map from path strings to nodes; every operation
    takes the filesystem state and returns its result together with the
    new state.  I/O steps of the save protocol may additionally fail for
    environmental reasons (disk full, quota, ...): an explicit fault oracle
    says which primitive calls fail. *)

From Stdlib Require Import Ascii String List Bool Lia ZArith Sorting.Sorted.
From stdpp Require Import base gmap strings list.
Import ListNotations.

Local Open Scope string_scope.

(* ------------------------------------------------------------------ *)
(** ** Strings: [str::trim], [str::is_empty], [str::contains] *)

(** [char::is_whitespace] restricted to ASCII: U+0009..U+000D and U+0020. *)
Definition is_whitespace (c : ascii) : bool :=
  let n := nat_of_ascii c in (Nat.leb 9 n && Nat.leb n 13) || Nat.eqb n 32.

Fixpoint drop_ws (l : list ascii) : list ascii :=
  match l with
  | [] => []
  | c :: r => if is_whitespace c then drop_ws r else l
  end.

(** [str::trim]: strip leading and trailing whitespace. *)
Definition trim (s : string) : string :=
  string_of_list_ascii
    (rev (drop_ws (rev (drop_ws (list_ascii_of_string s))))).

(** [s.trim().is_empty()] *)
Definition is_blank (s : string) : bool := String.eqb (trim s) "".

(** [str::contains] for a string pattern. *)
Fixpoint contains (needle hay : string) : bool :=
  String.prefix needle hay ||
  match hay with
  | EmptyString => false
  | String _ r => contains needle r
  end.

(* ------------------------------------------------------------------ *)
(** ** Paths *)

Definition path := string.

Definition ends_with_sep (p : path) : bool :=
  match last (list_ascii_of_string p) with
  | Some c => Ascii.eqb c "/"%char
  | None => false
  end.

(** [Path::join] with a relative single-component argument. *)
Definition path_join (base name : path) : path :=
  match base with
  | EmptyString => name
  | _ => if ends_with_sep base then base +:+ name else base +:+ "/" +:+ name
  end.

(* ------------------------------------------------------------------ *)
(** ** Filesystem *)

Inductive node :=
| File (data : string) (readable writable : bool)
| Dir (readable writable : bool).

Abbreviation fs := (gmap string node).

Inductive io_error :=
| NotFound
| PermissionDenied
| IsADirectory
| NotADirectory
| InvalidData
| StorageFailure.

Inductive result (A E : Type) :=
| Ok (a : A)
| Err (e : E).
Arguments Ok {A E} a.
Arguments Err {A E} e.

Definition is_err {A E} (r : result A E) : bool :=
  match r with Ok _ => false | Err _ => true end.

(** [Path::exists] *)
Definition path_exists (st : fs) (p : path) : bool :=
  match st !! p with Some _ => true | None => false end.

(** [Path::is_dir] *)
Definition path_is_dir (st : fs) (p : path) : bool :=
  match st !! p with Some (Dir _ _) => true | _ => false end.

(** [fs::read_dir]: listing needs a readable directory. *)
Definition read_dir (st : fs) (p : path) : result unit io_error :=
  match st !! p with
  | Some (Dir true _) => Ok tt
  | Some (Dir false _) => Err PermissionDenied
  | Some (File _ _ _) => Err NotADirectory
  | None => Err NotFound
  end.

(** [fs::File::create] on [file], whose parent directory is [dir]:
    opens for writing, truncating an existing file (which needs write
    permission on the file) or creating a new one (which needs write
    permission on the directory). *)
Definition file_create (st : fs) (dir file : path) : result fs io_error :=
  match st !! file with
  | Some (Dir _ _) => Err IsADirectory
  | Some (File _ r w) =>
      if w then Ok (<[file := File "" r w]> st) else Err PermissionDenied
  | None =>
      match st !! dir with
      | Some (Dir _ true) => Ok (<[file := File "" true true]> st)
      | Some (Dir _ false) => Err PermissionDenied
      | Some (File _ _ _) => Err NotADirectory
      | None => Err NotFound
      end
  end.

(** [fs::remove_file] on [file], whose parent directory is [dir]:
    unlinking needs write permission on the directory. *)
Definition remove_file (st : fs) (dir file : path) : result fs io_error :=
  match st !! file with
  | Some (File _ _ _) =>
      match st !! dir with
      | Some (Dir _ true) => Ok (delete file st)
      | _ => Err PermissionDenied
      end
  | Some (Dir _ _) => Err IsADirectory
  | None => Err NotFound
  end.

(* ------------------------------------------------------------------ *)
(** ** Validation (config.rs, [ValidationError], [validate_projects_directory]) *)

Inductive ValidationError :=
| EmptyField (field : string)
| ProjectsDirDoesNotExist (p : path)
| ProjectsDirNotDirectory (p : path)
| ProjectsDirNotWritable (p : path)
| ProjectsDirNotReadable (p : path).

Definition probe_name : string := ".rustm_write_probe".

Definition write_probe (p : path) : path := path_join p probe_name.

(** [validate_projects_directory]: five checks in order, the first failing
    one returns; the writability probe is created and then removed, the
    removal's error being discarded ([let _ = fs::remove_file(&probe)]). *)
Definition validate_projects_directory (st : fs) (p : path)
  : result unit ValidationError * fs :=
  if String.eqb p "" then (Err (EmptyField "projects_directory"), st) else
  if negb (path_exists st p) then (Err (ProjectsDirDoesNotExist p), st) else
  if negb (path_is_dir st p) then (Err (ProjectsDirNotDirectory p), st) else
  match read_dir st p with
  | Err _ => (Err (ProjectsDirNotReadable p), st)
  | Ok _ =>
      let probe := write_probe p in
      match file_create st p probe with
      | Ok st1 =>
          let st2 := match remove_file st1 p probe with
                     | Ok st2 => st2
                     | Err _ => st1
                     end in
          (Ok tt, st2)
      | Err _ => (Err (ProjectsDirNotWritable p), st)
      end
  end.

(* ------------------------------------------------------------------ *)
(** ** I/O steps of the save protocol *)

(** Primitive calls whose environmental failure the oracle decides. *)
Inductive io_op :=
| OpMkdir (d : path)
| OpCreate (f : path)
| OpWrite (f : path)
| OpSync (f : path)
| OpRename (src dst : path).

(** [true] when the primitive call fails (disk full, quota, ...). *)
Abbreviation faults := (io_op -> bool).

(** The directories [create_dir_all] walks through: every prefix of the
    path that ends just before a separator, then the path itself. *)
Fixpoint ancestors_aux (acc : list ascii) (l : list ascii) : list path :=
  match l with
  | [] => [string_of_list_ascii (rev acc)]
  | c :: r =>
      if Ascii.eqb c "/"%char && negb (Nat.eqb (length acc) 0)
      then string_of_list_ascii (rev acc) :: ancestors_aux (c :: acc) r
      else ancestors_aux (c :: acc) r
  end.

Definition ancestors (p : path) : list path :=
  ancestors_aux [] (list_ascii_of_string p).

Fixpoint create_dirs (flt : faults) (st : fs) (ds : list path)
  : result fs io_error :=
  match ds with
  | [] => Ok st
  | d :: ds' =>
      match st !! d with
      | Some (Dir _ _) => create_dirs flt st ds'
      | Some (File _ _ _) => Err NotADirectory
      | None =>
          if flt (OpMkdir d) then Err StorageFailure
          else create_dirs flt (<[d := Dir true true]> st) ds'
      end
  end.

(** [fs::create_dir_all] *)
Definition create_dir_all (flt : faults) (st : fs) (d : path)
  : result fs io_error :=
  create_dirs flt st (ancestors d).

Inductive io_action :=
| CreateDirAll (d : path)
| CreateFile (dir f : path)
| WriteAll (f : path) (bytes : string)
| SyncAll (f : path)
| Rename (dir src dst : path).

Definition exec_action (flt : faults) (st : fs) (a : io_action)
  : result fs io_error :=
  match a with
  | CreateDirAll d => create_dir_all flt st d
  | CreateFile dir f =>
      if flt (OpCreate f) then Err StorageFailure else file_create st dir f
  | WriteAll f bytes =>
      if flt (OpWrite f) then Err StorageFailure else
      match st !! f with
      | Some (File data r w) => Ok (<[f := File (data +:+ bytes) r w]> st)
      | _ => Err NotFound
      end
  | SyncAll f =>
      if flt (OpSync f) then Err StorageFailure else Ok st
  | Rename dir src dst =>
      if flt (OpRename src dst) then Err StorageFailure else
      match st !! src, st !! dst, st !! dir with
      | None, _, _ => Err NotFound
      | Some _, Some (Dir _ _), _ => Err IsADirectory
      | Some n, _, Some (Dir _ true) => Ok (<[dst := n]> (delete src st))
      | Some _, _, _ => Err PermissionDenied
      end
  end.

(** What the source does with a step's error: [.map_err(SaveError::Io)?]
    propagates it, [.ok()] discards it. *)
Inductive on_error := Propagate | Discard.

Fixpoint run_protocol (flt : faults) (st : fs)
  (acts : list (io_action * on_error)) : result unit io_error * fs :=
  match acts with
  | [] => (Ok tt, st)
  | (a, pol) :: rest =>
      match exec_action flt st a with
      | Ok st' => run_protocol flt st' rest
      | Err e =>
          match pol with
          | Propagate => (Err e, st)
          | Discard => run_protocol flt st rest
          end
      end
  end.

(* ------------------------------------------------------------------ *)
(** ** Records and errors of config.rs *)

Record ConfigInner := {
  projects_directory : string;
  editor_cmd : string
}.

(** [Config] is an [Arc<ConfigInner>] with read-only accessors. *)
Abbreviation Config := ConfigInner.

Inductive SetupReason := MissingFile | IncompleteData.

Inductive LoadStatus :=
| Ready (c : Config)
| NeedsInitialSetup (r : SetupReason).

Inductive LoadError :=
| Corrupt (msg : string)
| LoadIo (e : io_error).

Inductive SaveError :=
| SaveIo (e : io_error)
| Serialize (msg : string)
| Validation (v : ValidationError).

(* ------------------------------------------------------------------ *)
(** ** The YAML backend ([serde_norway], the [serde_yaml] code on libyaml)

    [to_string] is serde_norway's serializer driving libyaml's emitter:
    the style of each scalar is inferred from its value (literal for a
    multi-line value, single-quoted for text that would read back as null,
    a boolean or a number), then libyaml's analysis of the value decides
    whether that style, or plain, is allowed; the writers are libyaml's,
    with its defaults (indentation 2, no line width limit).

    [from_str] is libyaml's reader, scanner and parser on the block
    documents, then serde_norway's deserializer and the derived
    [Deserialize] of [ConfigInner].  The model leaves out, and stops with
    [err_unmodelled] at, flow collections, anchors, aliases, tags,
    explicit keys and directives.  A line ends at LF (a CR before it is
    dropped); a lone CR, NEL, LS or PS is not a line break in the model.
    Error messages are the library's without their [at line L column C]
    positions. *)

Local Set Warnings "-register-all".
Local Set Warnings "-non-full-mutual".

Definition nl_char : ascii := ascii_of_nat 10.
Definition nl : string := String nl_char EmptyString.
Definition dq : string := String (ascii_of_nat 34) EmptyString.
Definition dq_char : ascii := ascii_of_nat 34.

(** *** Bytes and UTF-8 *)

Definition byte (c : ascii) : nat := nat_of_ascii c.

Definition in_range (lo hi : nat) (c : ascii) : bool :=
  Nat.leb lo (byte c) && Nat.leb (byte c) hi.

Definition is_cont (c : ascii) : bool := in_range 128 191 c.

(** [core::str::from_utf8]: well-formed UTF-8 (no overlong forms, no
    surrogates, nothing above U+10FFFF). *)
Fixpoint utf8_valid (l : list ascii) : bool :=
  match l with
  | [] => true
  | c :: r =>
      if Nat.ltb (byte c) 128 then utf8_valid r else
      if in_range 194 223 c then
        match r with
        | d :: r' => is_cont d && utf8_valid r'
        | _ => false
        end
      else if in_range 224 239 c then
        match r with
        | d :: e :: r' =>
            (if Nat.eqb (byte c) 224 then in_range 160 191 d
             else if Nat.eqb (byte c) 237 then in_range 128 159 d
             else is_cont d) && is_cont e && utf8_valid r'
        | _ => false
        end
      else if in_range 240 244 c then
        match r with
        | d :: e :: f :: r' =>
            (if Nat.eqb (byte c) 240 then in_range 144 191 d
             else if Nat.eqb (byte c) 244 then in_range 128 143 d
             else is_cont d) && is_cont e && is_cont f && utf8_valid r'
        | _ => false
        end
      else false
  end.

(** libyaml's [WIDTH]: the length of the UTF-8 sequence a lead byte starts
    (at least one, so that the model always advances). *)
Definition width (c : ascii) : nat :=
  let n := byte c in
  if Nat.ltb n 128 then 1
  else if in_range 192 223 c then 2
  else if in_range 224 239 c then 3
  else if in_range 240 247 c then 4
  else 1.

Fixpoint chars_aux (fuel : nat) (l : list ascii) : list (list ascii) :=
  match fuel, l with
  | _, [] => []
  | 0, _ => [l]
  | S f, c :: _ => firstn (width c) l :: chars_aux f (skipn (width c) l)
  end.

(** A string as the sequence of its characters, each given by its bytes. *)
Definition utf8_chars (l : list ascii) : list (list ascii) :=
  chars_aux (length l) l.

(** The code point of one UTF-8 character. *)
Definition code_point (ch : list ascii) : Z :=
  match ch with
  | [] => 0
  | c :: r =>
      let n := Z.of_nat (byte c) in
      let lead := if Z.ltb n 128 then n
                  else if Z.ltb n 224 then Z.land n 31
                  else if Z.ltb n 240 then Z.land n 15
                  else Z.land n 7 in
      fold_left (fun v d => (v * 64 + Z.land (Z.of_nat (byte d)) 63)%Z) r lead
  end.

Definition byte_of_Z (z : Z) : ascii := ascii_of_nat (Z.to_nat z).

(** The UTF-8 encoding of a code point. *)
Definition utf8_encode (v : Z) : list ascii := (
  if Z.leb v 127 then [byte_of_Z v]
  else if Z.leb v 2047 then
    [byte_of_Z (192 + Z.shiftr v 6)%Z; byte_of_Z (128 + Z.land v 63)%Z]
  else if Z.leb v 65535 then
    [byte_of_Z (224 + Z.shiftr v 12); byte_of_Z (128 + Z.land (Z.shiftr v 6) 63);
     byte_of_Z (128 + Z.land v 63)]
  else
    [byte_of_Z (240 + Z.shiftr v 18); byte_of_Z (128 + Z.land (Z.shiftr v 12) 63);
     byte_of_Z (128 + Z.land (Z.shiftr v 6) 63); byte_of_Z (128 + Z.land v 63)])%Z.

(** *** libyaml's character classes (yaml_private.h) on one character *)

Definition byte_at (ch : list ascii) (k : nat) : nat := byte (nth k ch zero).

Definition is_ch (c : ascii) (ch : list ascii) : bool := Nat.eqb (byte_at ch 0) (byte c).

Definition is_space (ch : list ascii) : bool := Nat.eqb (byte_at ch 0) 32.
Definition is_tab (ch : list ascii) : bool := Nat.eqb (byte_at ch 0) 9.
Definition is_blank_ch (ch : list ascii) : bool := is_space ch || is_tab ch.

(** [IS_BREAK]: CR, LF, NEL, LS, PS. *)
Definition is_break (ch : list ascii) : bool :=
  let b0 := byte_at ch 0 in
  Nat.eqb b0 13 || Nat.eqb b0 10
  || (Nat.eqb b0 194 && Nat.eqb (byte_at ch 1) 133)
  || (Nat.eqb b0 226 && Nat.eqb (byte_at ch 1) 128
      && (Nat.eqb (byte_at ch 2) 168 || Nat.eqb (byte_at ch 2) 169)).

Definition is_blankz (ch : list ascii) : bool :=
  is_blank_ch ch || is_break ch || Nat.eqb (byte_at ch 0) 0.

Definition is_bom (ch : list ascii) : bool :=
  Nat.eqb (byte_at ch 0) 239 && Nat.eqb (byte_at ch 1) 187 && Nat.eqb (byte_at ch 2) 191.

(** [IS_PRINTABLE]: LF, 0x20..0x7E, U+00A0..U+D7FF, U+E000..U+FFFD
    except the BOM; in particular TAB, CR, NEL and the characters beyond
    the BMP are not printable. *)
Definition is_printable (ch : list ascii) : bool :=
  let b0 := byte_at ch 0 in
  let b1 := byte_at ch 1 in
  let b2 := byte_at ch 2 in
  Nat.eqb b0 10
  || (Nat.leb 32 b0 && Nat.leb b0 126)
  || (Nat.eqb b0 194 && Nat.leb 160 b1)
  || (Nat.ltb 194 b0 && Nat.ltb b0 237)
  || (Nat.eqb b0 237 && Nat.ltb b1 160)
  || Nat.eqb b0 238
  || (Nat.eqb b0 239 && negb (Nat.eqb b1 187 && Nat.eqb b2 191)
      && negb (Nat.eqb b1 191 && (Nat.eqb b2 190 || Nat.eqb b2 191))).


(** *** serde_yaml's reading of an untagged plain scalar
    ([visit_untagged_scalar], [parse_unsigned_int], [parse_negative_int],
    [parse_f64], [digits_but_not_number] in de.rs) *)

Definition is_digit (c : ascii) : bool := in_range 48 57 c.

Definition is_sign (c : ascii) : bool := Ascii.eqb c "+"%char || Ascii.eqb c "-"%char.

Definition starts_with_sign (l : list ascii) : bool :=
  match l with c :: _ => is_sign c | [] => false end.

Fixpoint strip_prefix (pre l : list ascii) : option (list ascii) :=
  match pre, l with
  | [], _ => Some l
  | p :: pre', c :: l' => if Ascii.eqb p c then strip_prefix pre' l' else None
  | _ :: _, [] => None
  end.

(** [char::to_digit] before the radix check. *)
Definition digit_value (c : ascii) : option Z :=
  let n := byte c in
  if in_range 48 57 c then Some (Z.of_nat (n - 48))
  else if in_range 97 122 c then Some (Z.of_nat (n - 87))
  else if in_range 65 90 c then Some (Z.of_nat (n - 55))
  else None.

Fixpoint digits_value (radix acc : Z) (l : list ascii) : option Z :=
  match l with
  | [] => Some acc
  | c :: r =>
      match digit_value c with
      | Some d => if Z.ltb d radix then digits_value radix (acc * radix + d)%Z r
                  else None
      | None => None
      end
  end.

Definition is_lone_sign (l : list ascii) : bool :=
  match l with [c] => is_sign c | _ => false end.

(** [uN::from_str_radix] ([bits] = 64 or 128): an optional [+], at least one
    digit, no overflow. *)
Definition from_str_radix_u (bits : Z) (s : list ascii) (radix : Z) : option Z :=
  match s with
  | [] => None
  | c :: r =>
      if is_lone_sign s then None else
      let body := if Ascii.eqb c "+"%char then r else s in
      match digits_value radix 0 body with
      | Some v => if Z.ltb v (Z.pow 2 bits) then Some v else None
      | None => None
      end
  end.

(** [iN::from_str_radix]: an optional sign, at least one digit, no overflow. *)
Definition from_str_radix_i (bits : Z) (s : list ascii) (radix : Z) : option Z :=
  match s with
  | [] => None
  | c :: r =>
      if is_lone_sign s then None else
      if Ascii.eqb c "-"%char then
        match digits_value radix 0 r with
        | Some v => if Z.leb v (Z.pow 2 (bits - 1)) then Some (- v)%Z else None
        | None => None
        end
      else
        let body := if Ascii.eqb c "+"%char then r else s in
        match digits_value radix 0 body with
        | Some v => if Z.ltb v (Z.pow 2 (bits - 1)) then Some v else None
        | None => None
        end
  end.

(** [digits_but_not_number]: after one optional sign, a [0] followed by
    at least one more character, all of them ASCII digits. *)
Definition digits_but_not_number (s : list ascii) : bool :=
  let t := match s with c :: r => if is_sign c then r else s | [] => [] end in
  match t with
  | z :: ((_ :: _) as r) => Ascii.eqb z "0"%char && forallb is_digit r
  | _ => false
  end.

Inductive attempt := Found (v : Z) | Abort | Next.

Definition radix_attempt (bits : Z) (pre : list ascii) (radix : Z)
  (s : list ascii) : attempt :=
  match strip_prefix pre s with
  | Some rest =>
      if starts_with_sign rest then Abort else
      match from_str_radix_u bits rest radix with
      | Some v => Found v
      | None => Next
      end
  | None => Next
  end.

Definition parse_unsigned_int (bits : Z) (s : list ascii) : option Z :=
  let unpositive := match s with
                    | c :: r => if Ascii.eqb c "+"%char then r else s
                    | [] => s
                    end in
  if (match s with c :: _ => Ascii.eqb c "+"%char | [] => false end)
     && starts_with_sign unpositive then None else
  match radix_attempt bits ["0"; "x"]%char 16 unpositive with
  | Found v => Some v | Abort => None | Next =>
  match radix_attempt bits ["0"; "o"]%char 8 unpositive with
  | Found v => Some v | Abort => None | Next =>
  match radix_attempt bits ["0"; "b"]%char 2 unpositive with
  | Found v => Some v | Abort => None | Next =>
  if starts_with_sign unpositive then None else
  if digits_but_not_number s then None else
  from_str_radix_u bits unpositive 10
  end end end.

Definition negative_attempt (bits : Z) (pre : list ascii) (radix : Z)
  (s : list ascii) : option Z :=
  match strip_prefix pre s with
  | Some rest => from_str_radix_i bits ("-"%char :: rest) radix
  | None => None
  end.

Definition parse_negative_int (bits : Z) (s : list ascii) : option Z :=
  match negative_attempt bits ["-"; "0"; "x"]%char 16 s with
  | Some v => Some v | None =>
  match negative_attempt bits ["-"; "0"; "o"]%char 8 s with
  | Some v => Some v | None =>
  match negative_attempt bits ["-"; "0"; "b"]%char 2 s with
  | Some v => Some v | None =>
  if digits_but_not_number s then None else from_str_radix_i bits s 10
  end end end.

Fixpoint span_digits (l : list ascii) : list ascii * list ascii :=
  match l with
  | c :: r => if is_digit c then let (d, t) := span_digits r in (c :: d, t) else ([], l)
  | [] => ([], [])
  end.

Definition digits_Z (l : list ascii) : Z :=
  match digits_value 10 0 l with Some v => v | None => 0 end.

(** Rust's decimal float grammar ([f64::from_str], without its [inf] and
    [nan] words, whose values are not finite): digits, an optional [.] and
    digits (at least one digit in all), an optional exponent.  The value is
    [mantissa * 10 ^ exponent]. *)
Definition parse_decimal (l : list ascii) : option (Z * Z) :=
  let (ip, r1) := span_digits l in
  let '(fp, r2) := match r1 with
                   | c :: r => if Ascii.eqb c "."%char then span_digits r else ([], r1)
                   | [] => ([], r1)
                   end in
  if (match ip, fp with [], [] => true | _, _ => false end) then None else
  let m := digits_Z (ip ++ fp) in
  let e0 := (- Z.of_nat (length fp))%Z in
  match r2 with
  | [] => Some (m, e0)
  | c :: r3 =>
      if Ascii.eqb c "e"%char || Ascii.eqb c "E"%char then
        let '(sg, r4) := match r3 with
                         | d :: r => if Ascii.eqb d "-"%char then ((-1)%Z, r)
                                     else if Ascii.eqb d "+"%char then (1%Z, r)
                                     else (1%Z, r3)
                         | [] => (1%Z, r3)
                         end in
        let (ed, r5) := span_digits r4 in
        match ed, r5 with
        | _ :: _, [] => Some (m, (e0 + sg * digits_Z ed)%Z)
        | _, _ => None
        end
      else None
  end.

Fixpoint num_digits_aux (fuel : nat) (n : Z) : Z :=
  match fuel with
  | O => 0%Z
  | S f => if Z.ltb n 10 then 1%Z else (1 + num_digits_aux f (n / 10))%Z
  end.

Definition num_digits (n : Z) : Z := num_digits_aux (S (Z.to_nat (Z.log2 n))) n.

(** The least magnitude rounded to infinity: [2^1024 - 2^970]. *)
Definition f64_overflow : Z := (Z.pow 2 1024 - Z.pow 2 970)%Z.

(** [m * 10^e] is below [f64_overflow], i.e. its [f64] is finite. *)
Definition f64_finite (m e : Z) : bool :=
  if Z.eqb m 0 then true else
  let d := (num_digits m + e)%Z in
  if Z.leb d 308 then true
  else if Z.leb 310 d then false
  else if Z.leb 0 e then Z.ltb (m * Z.pow 10 e) f64_overflow
  else Z.ltb m (f64_overflow * Z.pow 10 (- e)).

Fixpoint digits_of_Z_aux (fuel : nat) (n : Z) (acc : list ascii) : list ascii :=
  match fuel with
  | 0 => acc
  | S f =>
      let acc' := ascii_of_nat (48 + Z.to_nat (n mod 10)) :: acc in
      if Z.ltb n 10 then acc' else digits_of_Z_aux f (n / 10) acc'
  end.

(** [Display] of an integer. *)
Definition dec_of_Z (z : Z) : list ascii :=
  if Z.ltb z 0
  then "-"%char :: digits_of_Z_aux (S (Z.to_nat (Z.log2 (- z)))) (- z) []
  else digits_of_Z_aux (S (Z.to_nat (Z.log2 z))) z [].

(** serde's [WithDecimalPoint] of the [f64] written [m * 10^e]: the
    decimal without exponent, with [.0] when it has no fractional part. *)
Definition float_text (neg : bool) (m e : Z) : list ascii :=
  let sign := if neg then ["-"%char] else [] in
  if Z.eqb m 0 then sign ++ ["0"; "."; "0"]%char else
  let '(ds, e') := (fix go (fuel : nat) (ds : list ascii) (e : Z) :=
                      match fuel with
                      | 0 => (ds, e)
                      | S f => match last ds with
                               | Some c => if Ascii.eqb c "0"%char
                                           then go f (removelast ds) (e + 1)%Z
                                           else (ds, e)
                               | None => (ds, e)
                               end
                      end) (length (dec_of_Z m)) (dec_of_Z m) e in
  let n := length ds in
  if Z.leb 0 e' then sign ++ ds ++ repeat "0"%char (Z.to_nat e') ++ ["."; "0"]%char
  else
    let k := Z.to_nat (- e') in
    if Nat.ltb k n then sign ++ firstn (n - k) ds ++ "."%char :: skipn (n - k) ds
    else sign ++ "0"%char :: "."%char :: repeat "0"%char (k - n) ++ ds.

Definition str_of (s : string) : list ascii := list_ascii_of_string s.

Definition is_word (s : list ascii) (w : string) : bool :=
  String.eqb (string_of_list_ascii s) w.

(** [parse_f64]: the [.inf]/[.nan] words of YAML, otherwise Rust's float
    syntax with a finite value; the result is the value's text. *)
Definition parse_f64 (s : list ascii) : option (list ascii) :=
  let plus := match s with c :: _ => Ascii.eqb c "+"%char | [] => false end in
  let unpositive := if plus then tl s else s in
  if plus && starts_with_sign unpositive then None else
  if existsb (is_word unpositive)
       [".inf"; ".Inf"; ".INF"] then Some (str_of "inf") else
  if existsb (is_word s)
       ["-.inf"; "-.Inf"; "-.INF"] then Some (str_of "-inf") else
  if existsb (is_word s)
       [".nan"; ".NaN"; ".NAN"] then Some (str_of "NaN") else
  let '(neg, body) := match unpositive with
                      | c :: r => if Ascii.eqb c "-"%char then (true, r) else (false, unpositive)
                      | [] => (false, unpositive)
                      end in
  match parse_decimal body with
  | Some (m, e) => if f64_finite m e then Some (float_text neg m e) else None
  | None => None
  end.

Definition is_null_word (s : list ascii) : bool :=
  existsb (is_word s) [""; "~"; "null"; "Null"; "NULL"].

Definition parse_bool (s : list ascii) : option bool :=
  if existsb (is_word s) ["true"; "True"; "TRUE"] then Some true
  else if existsb (is_word s) ["false"; "False"; "FALSE"] then Some false
  else None.

(** What [visit_untagged_scalar] hands its visitor for a plain scalar. *)
Inductive scalar_kind :=
| KUnit
| KBool (b : bool)
| KU64 (n : Z)
| KI64 (n : Z)
| KU128 (n : Z)
| KI128 (n : Z)
| KFloat (text : list ascii)
| KStr.

Definition untagged_kind (s : list ascii) : scalar_kind :=
  if is_null_word s then KUnit else
  match parse_bool s with Some b => KBool b | None =>
  match parse_unsigned_int 64 s with Some n => KU64 n | None =>
  match parse_negative_int 64 s with Some n => KI64 n | None =>
  match parse_unsigned_int 128 s with Some n => KU128 n | None =>
  match parse_negative_int 128 s with Some n => KI128 n | None =>
  if digits_but_not_number s then KStr else
  match parse_f64 s with Some t => KFloat t | None => KStr end
  end end end end end.


(** *** The emitter: serde_yaml's [serialize_str] and libyaml's emitter.c *)

Inductive scalar_style :=
| AnyStyle
| PlainStyle
| SingleQuotedStyle
| DoubleQuotedStyle
| LiteralStyle
| FoldedStyle.

(** [serialize_str]'s requested style ([InferScalarStyle]): literal for a
    value with a line feed, single-quoted for what would read back as
    something other than a string, [Any] otherwise. *)
Definition infer_style (v : list ascii) : scalar_style :=
  if existsb (fun c => Ascii.eqb c nl_char) v then LiteralStyle else
  match untagged_kind v with
  | KStr => if digits_but_not_number v then SingleQuotedStyle else AnyStyle
  | _ => SingleQuotedStyle
  end.

(** Each character with the one before and the one after it. *)
Fixpoint windows (prev : option (list ascii)) (cs : list (list ascii))
  : list (option (list ascii) * list ascii * option (list ascii)) :=
  match cs with
  | [] => []
  | c :: r => (prev, c, head r) :: windows (Some c) r
  end.

(** [preceded_by_whitespace] and [followed_by_whitespace]: the string's
    ends count as whitespace (the terminating NUL). *)
Definition ws_or_end (o : option (list ascii)) : bool :=
  match o with Some c => is_blankz c | None => true end.

Definition first_indicator (c : list ascii) (followed : bool) : bool :=
  existsb (fun i => is_ch i c) ["#"; ","; "["; "]"; "{"; "}"; "&"; "*"; "!"; "|"; ">"; "'"; dq_char; "%"; "@"; "`"]%char
  || ((is_ch "?"%char c || is_ch ":"%char c) && followed)
  || (is_ch "-"%char c && followed).

Definition inner_indicator (prev : option (list ascii)) (c : list ascii) (next : option (list ascii)) : bool :=
  (is_ch ":"%char c && ws_or_end next) || (is_ch "#"%char c && ws_or_end prev).

(** [block_indicators] of [yaml_emitter_analyze_scalar]. *)
Definition block_indicators (v : list ascii) (cs : list (list ascii)) : bool :=
  match strip_prefix ["-"; "-"; "-"]%char v, strip_prefix ["."; "."; "."]%char v with
  | None, None => false
  | _, _ => true
  end
  || existsb (fun '(p, c, n) =>
                match p with
                | None => first_indicator c (ws_or_end n)
                | Some _ => inner_indicator p c n
                end) (windows None cs).

Fixpoint adjacent (f g : list ascii -> bool) (cs : list (list ascii)) : bool :=
  match cs with
  | a :: ((b :: _) as r) => (f a && g b) || adjacent f g r
  | _ => false
  end.

Record analysis := {
  multiline : bool;
  block_plain_allowed : bool;
  single_quoted_allowed : bool;
  block_allowed : bool
}.

(** [yaml_emitter_analyze_scalar] in the block context (the flow flags are
    not needed: the emitter never enters a flow collection here). *)
Definition analyze (v : list ascii) : analysis :=
  let cs := utf8_chars v in
  match cs with
  | [] => {| multiline := false; block_plain_allowed := true;
             single_quoted_allowed := true; block_allowed := false |}
  | c0 :: _ =>
      let cl := List.last cs [] in
      let line_breaks := existsb is_break cs in
      let special := existsb (fun c => negb (is_printable c)) cs in
      let leading := is_space c0 || is_break c0 in
      let trailing_space := is_space cl in
      let trailing_break := is_break cl in
      let break_space := adjacent is_break is_space cs in
      let space_break := adjacent is_space is_break cs in
      {| multiline := line_breaks;
         block_plain_allowed :=
           negb (leading || trailing_space || trailing_break || break_space
                 || space_break || special || line_breaks
                 || block_indicators v cs);
         single_quoted_allowed := negb (break_space || space_break || special);
         block_allowed := negb (trailing_space || space_break || special) |}
  end.

(** [yaml_emitter_select_scalar_style] for an untagged scalar outside any
    flow collection. *)
Definition select_style (simple_key : bool) (a : analysis) (empty : bool)
  (requested : scalar_style) : scalar_style :=
  let s1 := match requested with AnyStyle => PlainStyle | s => s end in
  let s2 := if simple_key && multiline a then DoubleQuotedStyle else s1 in
  let s3 := match s2 with
            | PlainStyle =>
                if negb (block_plain_allowed a) || (empty && simple_key)
                then SingleQuotedStyle else PlainStyle
            | s => s
            end in
  let s4 := match s3 with
            | SingleQuotedStyle =>
                if single_quoted_allowed a then SingleQuotedStyle else DoubleQuotedStyle
            | s => s
            end in
  match s4 with
  | LiteralStyle | FoldedStyle =>
      if negb (block_allowed a) || simple_key then DoubleQuotedStyle else s4
  | s => s
  end.

(** The emitter's state as far as the output depends on it. *)
Record emitter := {
  em_out : list ascii;
  em_column : nat;
  em_whitespace : bool;
  em_indention : bool;
  em_open_ended : nat
}.

Definition set_flags (e : emitter) (ws ind : bool) : emitter :=
  {| em_out := em_out e; em_column := em_column e; em_whitespace := ws;
     em_indention := ind; em_open_ended := em_open_ended e |}.

Definition set_indention (e : emitter) (ind : bool) : emitter :=
  set_flags e (em_whitespace e) ind.

Definition set_open_ended (e : emitter) (k : nat) : emitter :=
  {| em_out := em_out e; em_column := em_column e; em_whitespace := em_whitespace e;
     em_indention := em_indention e; em_open_ended := k |}.

(** [PUT] of bytes that advance the column by one each, and [WRITE] of
    one character (one column). *)
Definition put_bytes (e : emitter) (bs : list ascii) (cols : nat) : emitter :=
  {| em_out := em_out e ++ bs; em_column := em_column e + cols;
     em_whitespace := em_whitespace e; em_indention := em_indention e;
     em_open_ended := em_open_ended e |}.

Definition put (e : emitter) (c : ascii) : emitter := put_bytes e [c] 1.

Definition write (e : emitter) (ch : list ascii) : emitter := put_bytes e ch 1.

(** [PUT_BREAK] (line feed breaks) and [WRITE_BREAK]. *)
Definition put_break (e : emitter) : emitter :=
  {| em_out := em_out e ++ [nl_char]; em_column := 0;
     em_whitespace := em_whitespace e; em_indention := em_indention e;
     em_open_ended := em_open_ended e |}.

Definition write_break (e : emitter) (ch : list ascii) : emitter :=
  if is_ch nl_char ch then put_break e else
  {| em_out := em_out e ++ ch; em_column := 0;
     em_whitespace := em_whitespace e; em_indention := em_indention e;
     em_open_ended := em_open_ended e |}.

(** [yaml_emitter_write_indent] *)
Definition write_indent (ind : nat) (e : emitter) : emitter :=
  let e1 := if negb (em_indention e) || Nat.ltb ind (em_column e)
               || (Nat.eqb (em_column e) ind && negb (em_whitespace e))
            then put_break e else e in
  let pad := ind - em_column e1 in
  set_flags (put_bytes e1 (repeat " "%char pad) pad) true true.

(** [yaml_emitter_write_indicator] *)
Definition write_indicator (e : emitter) (ind : list ascii)
  (need_ws is_ws is_ind : bool) : emitter :=
  let e1 := if need_ws && negb (em_whitespace e) then put e " "%char else e in
  let e2 := put_bytes e1 ind (length ind) in
  set_flags e2 is_ws (em_indention e2 && is_ind).

(** The writers below never fold a line: serde_yaml sets the best width
    to unlimited ([yaml_emitter_set_width(-1)]). *)

(** [yaml_emitter_write_plain_scalar] *)
Fixpoint plain_body (ind : nat) (breaks : bool) (e : emitter) (cs : list (list ascii)) : emitter :=
  match cs with
  | [] => e
  | ch :: r =>
      if is_space ch then plain_body ind breaks (write e ch) r
      else if is_break ch then
        let e1 := if negb breaks && is_ch nl_char ch then put_break e else e in
        plain_body ind true (set_indention (write_break e1 ch) true) r
      else
        let e1 := if breaks then write_indent ind e else e in
        plain_body ind false (set_indention (write e1 ch) false) r
  end.

Definition write_plain (ind : nat) (e : emitter) (v : list ascii) : emitter :=
  let e1 := if negb (em_whitespace e) && negb (Nat.eqb (length v) 0)
            then put e " "%char else e in
  set_flags (plain_body ind false e1 (utf8_chars v)) false false.

(** [yaml_emitter_write_single_quoted_scalar]: a quote is doubled. *)
Fixpoint sq_body (ind : nat) (breaks : bool) (e : emitter) (cs : list (list ascii))
  : emitter * bool :=
  match cs with
  | [] => (e, breaks)
  | ch :: r =>
      if is_space ch then sq_body ind breaks (write e ch) r
      else if is_break ch then
        let e1 := if negb breaks && is_ch nl_char ch then put_break e else e in
        sq_body ind true (set_indention (write_break e1 ch) true) r
      else
        let e1 := if breaks then write_indent ind e else e in
        let e2 := if is_ch "'"%char ch then put e1 "'"%char else e1 in
        sq_body ind false (set_indention (write e2 ch) false) r
  end.

Definition write_single_quoted (ind : nat) (e : emitter) (v : list ascii) : emitter :=
  let e1 := write_indicator e ["'"%char] true false false in
  let (e2, breaks) := sq_body ind false e1 (utf8_chars v) in
  let e3 := if breaks then write_indent ind e2 else e2 in
  set_flags (write_indicator e3 ["'"%char] false false false) false false.

Definition hex_digit (d : Z) : ascii :=
  if Z.ltb d 10 then ascii_of_nat (48 + Z.to_nat d) else ascii_of_nat (55 + Z.to_nat d).

Fixpoint hex_digits (k : nat) (v : Z) : list ascii :=
  match k with
  | O => []
  | S k' => hex_digits k' (v / 16) ++ [hex_digit (v mod 16)]
  end.

(** The escape of one character in a double-quoted scalar. *)
Definition dq_escape (v : Z) : list ascii :=
  "\"%char ::
  (if Z.eqb v 0 then ["0"%char]
   else if Z.eqb v 7 then ["a"%char]
   else if Z.eqb v 8 then ["b"%char]
   else if Z.eqb v 9 then ["t"%char]
   else if Z.eqb v 10 then ["n"%char]
   else if Z.eqb v 11 then ["v"%char]
   else if Z.eqb v 12 then ["f"%char]
   else if Z.eqb v 13 then ["r"%char]
   else if Z.eqb v 27 then ["e"%char]
   else if Z.eqb v 34 then [dq_char]
   else if Z.eqb v 92 then ["\"%char]
   else if Z.eqb v 133 then ["N"%char]
   else if Z.eqb v 160 then ["_"%char]
   else if Z.eqb v 8232 then ["L"%char]
   else if Z.eqb v 8233 then ["P"%char]
   else if Z.leb v 255 then "x"%char :: hex_digits 2 v
   else if Z.leb v 65535 then "u"%char :: hex_digits 4 v
   else "U"%char :: hex_digits 8 v).

(** [yaml_emitter_write_double_quoted_scalar] *)
Fixpoint dq_body (e : emitter) (cs : list (list ascii)) : emitter :=
  match cs with
  | [] => e
  | ch :: r =>
      if negb (is_printable ch) || is_bom ch || is_break ch
         || is_ch dq_char ch || is_ch "\"%char ch
      then let esc := dq_escape (code_point ch) in
           dq_body (put_bytes e esc (length esc)) r
      else dq_body (write e ch) r
  end.

Definition write_double_quoted (e : emitter) (v : list ascii) : emitter :=
  let e1 := write_indicator e [dq_char] true false false in
  set_flags (write_indicator (dq_body e1 (utf8_chars v)) [dq_char] false false false)
    false false.

(** [yaml_emitter_write_block_scalar_hints]: the indentation hint when the
    value starts with a space or a break, [-] when it does not end with a
    break, [+] when it ends with two breaks or is one break (the stream
    then ends with [...]). *)
Definition block_hints (e : emitter) (cs : list (list ascii)) : emitter :=
  let e1 := match cs with
            | ch :: _ => if is_space ch || is_break ch
                         then write_indicator e ["2"%char] false false false else e
            | [] => e
            end in
  let '(chomp, oe) :=
    match rev cs with
    | [] => (Some "-"%char, 0)
    | cl :: before =>
        if negb (is_break cl) then (Some "-"%char, 0) else
        match before with
        | [] => (Some "+"%char, 2)
        | cp :: _ => if is_break cp then (Some "+"%char, 2) else (None, 0)
        end
    end in
  let e2 := set_open_ended e1 oe in
  match chomp with
  | Some c => write_indicator e2 [c] false false false
  | None => e2
  end.

(** [yaml_emitter_write_literal_scalar] *)
Fixpoint literal_body (ind : nat) (breaks : bool) (e : emitter) (cs : list (list ascii)) : emitter :=
  match cs with
  | [] => e
  | ch :: r =>
      if is_break ch then literal_body ind true (set_indention (write_break e ch) true) r
      else
        let e1 := if breaks then write_indent ind e else e in
        literal_body ind false (set_indention (write e1 ch) false) r
  end.

Definition write_literal (ind : nat) (e : emitter) (v : list ascii) : emitter :=
  let cs := utf8_chars v in
  let e1 := block_hints (write_indicator e ["|"%char] true false false) cs in
  literal_body ind true (set_flags (put_break e1) true true) cs.

(** [yaml_emitter_emit_scalar] for a scalar of the top-level mapping
    (written at indentation 2, the mapping's plus the best indent). *)
Definition emit_scalar (simple_key : bool) (e : emitter) (v : list ascii) : emitter :=
  let sty := select_style simple_key (analyze v) (Nat.eqb (length v) 0) (infer_style v) in
  match sty with
  | PlainStyle => write_plain 2 e v
  | SingleQuotedStyle => write_single_quoted 2 e v
  | LiteralStyle => write_literal 2 e v
  | _ => write_double_quoted e v
  end.

(** One entry of the block mapping: [yaml_emitter_emit_block_mapping_key]
    with a simple key, then [yaml_emitter_emit_block_mapping_value]. *)
Definition emit_entry (e : emitter) (key value : list ascii) : emitter :=
  let e1 := emit_scalar true (write_indent 0 e) key in
  emit_scalar false (write_indicator e1 [":"%char] false false false) value.

Definition initial_emitter : emitter :=
  {| em_out := []; em_column := 0; em_whitespace := true; em_indention := true;
     em_open_ended := 0 |}.

(** The stream of one implicit document holding the mapping of the two
    fields; at the stream's end [...] closes an open-ended block scalar. *)
Definition emit_config (inner : ConfigInner) : list ascii :=
  let e1 := emit_entry initial_emitter (str_of "projects_directory")
              (str_of (projects_directory inner)) in
  let e2 := emit_entry e1 (str_of "editor_cmd") (str_of (editor_cmd inner)) in
  let e3 := write_indent 0 e2 in
  let e4 := if Nat.eqb (em_open_ended e3) 2
            then write_indent 0 (write_indicator e3 (str_of "...") true false false)
            else e3 in
  em_out e4.

(** [serde_norway::to_string(&inner)]: serializing a struct of two
    strings cannot fail, so the result is always [Ok]. *)
Definition to_string (inner : ConfigInner) : result string string :=
  Ok (string_of_list_ascii (emit_config inner)).


(** *** The parser: libyaml's scanner and parser on block documents *)

Local Open Scope list_scope.

Definition tab_char : ascii := ascii_of_nat 9.
Definition cr_char : ascii := ascii_of_nat 13.

Definition is_blank_c (c : ascii) : bool := Ascii.eqb c " "%char || Ascii.eqb c tab_char.

Fixpoint count_spaces (l : list ascii) : nat :=
  match l with
  | c :: r => if Ascii.eqb c " "%char then S (count_spaces r) else 0
  | [] => 0
  end.

Fixpoint skip_blanks (l : list ascii) : list ascii :=
  match l with
  | c :: r => if is_blank_c c then skip_blanks r else l
  | [] => []
  end.

Definition starts_with (c : ascii) (l : list ascii) : bool :=
  match l with d :: _ => Ascii.eqb c d | [] => false end.

(** Within a line, the end of the line is a break (or the end of input). *)
Definition next_is_blankz (l : list ascii) : bool :=
  match l with [] => true | c :: _ => is_blank_c c end.

(** A [---] or [...] document indicator at the start of a line. *)
Definition is_doc_marker (l : list ascii) : bool :=
  match l with
  | a :: b :: c :: r =>
      ((Ascii.eqb a "-"%char && Ascii.eqb b "-"%char && Ascii.eqb c "-"%char)
       || (Ascii.eqb a "."%char && Ascii.eqb b "."%char && Ascii.eqb c "."%char))
      && next_is_blankz r
  | _ => false
  end.

Definition is_start_marker (l : list ascii) : bool :=
  is_doc_marker l && starts_with "-"%char l.

(** A line the scanner skips between tokens: spaces, then nothing or a
    comment.  A tab at the start of a line is not skipped: in the block
    context it cannot start a token. *)
Definition is_empty_line (l : list ascii) : bool :=
  match skipn (count_spaces l) l with
  | [] => true
  | c :: _ => Ascii.eqb c "#"%char
  end.

Fixpoint skip_empty (ls : list (list ascii)) : list (list ascii) :=
  match ls with
  | l :: r => if is_empty_line l then skip_empty r else ls
  | [] => []
  end.

Definition is_seq_entry (c : list ascii) : bool :=
  match c with
  | d :: r => Ascii.eqb d "-"%char && next_is_blankz r
  | [] => false
  end.

Definition err_simple_key := "could not find expected ':', while scanning a simple key".
Definition err_mapping_values := "mapping values are not allowed in this context".
Definition err_expected_key := "did not find expected key, while parsing a block mapping".
Definition err_expected_dash := "did not find expected '-' indicator, while parsing a block collection".
Definition err_seq_entries := "block sequence entries are not allowed in this context".
Definition err_token := "found character that cannot start any token, while scanning for the next token".
Definition err_tab_plain := "found a tab character that violates indentation, while scanning a plain scalar".
Definition err_doc_start := "did not find expected <document start>".
Definition err_node := "did not find expected node content, while parsing a block node".
Definition err_quoted_eof := "found unexpected end of stream, while scanning a quoted scalar".
Definition err_quoted_doc := "found unexpected document indicator, while scanning a quoted scalar".
Definition err_escape := "found unknown escape character, while parsing a quoted scalar".
Definition err_hex := "did not find expected hexdecimal number, while parsing a quoted scalar".
Definition err_unicode := "found invalid Unicode character escape code, while parsing a quoted scalar".
Definition err_indent0 := "found an indentation indicator equal to 0, while scanning a block scalar".
Definition err_block_header := "did not find expected comment or line break, while scanning a block scalar".
Definition err_block_tab := "found a tab character where an indentation space is expected, while scanning a block scalar".
Definition err_control := "control characters are not allowed".

(** The model stops with this error at the YAML constructs it leaves out:
    flow collections, anchors, aliases, tags, explicit ([?]) keys and
    directives. *)
Definition err_unmodelled := "YAML construct outside the model (flow collection, anchor, alias, tag, explicit key or directive)".

(** The events of the first document, as a tree.  A syntax error ends the
    event stream: [YErr] stands where the next event would be, and a
    collection whose end was not reached records the error in [stop]. *)
Inductive ynode :=
| YScalar (sty : scalar_style) (v : list ascii)
| YSeq (items : list ynode) (stop : option string)
| YMap (entries : list (ynode * ynode)) (stop : option string)
| YErr (msg : string).

Definition empty_node : ynode := YScalar PlainStyle [].

(** The first syntax error met when all of a node's events are read. *)
Fixpoint node_error (n : ynode) : option string :=
  match n with
  | YScalar _ _ => None
  | YErr m => Some m
  | YSeq items stop =>
      (fix go (l : list ynode) : option string :=
         match l with
         | [] => stop
         | x :: r => match node_error x with Some m => Some m | None => go r end
         end) items
  | YMap es stop =>
      (fix go (l : list (ynode * ynode)) : option string :=
         match l with
         | [] => stop
         | (k, v) :: r =>
             match node_error k with
             | Some m => Some m
             | None => match node_error v with Some m => Some m | None => go r end
             end
         end) es
  end.

(** **** Plain scalars ([yaml_parser_scan_plain_scalar], block context) *)

Inductive plain_stop := PEnd | PComment | PColon (rest : list ascii).

(** One line of a plain scalar: it stops at a [#] after a blank (a comment)
    and at a [:] followed by a blank or the line's end; [acc] is reversed. *)
Fixpoint scan_plain (acc : list ascii) (prev_blank : bool) (l : list ascii)
  : list ascii * plain_stop :=
  match l with
  | [] => (acc, PEnd)
  | c :: r =>
      if is_blank_c c then scan_plain (c :: acc) true r
      else if prev_blank && Ascii.eqb c "#"%char then (acc, PComment)
      else if Ascii.eqb c ":"%char && next_is_blankz r then (acc, PColon r)
      else scan_plain (c :: acc) false r
  end.

(** The text of a line of a plain scalar, without its trailing blanks. *)
Definition plain_text (racc : list ascii) : list ascii := rev (skip_blanks racc).

Inductive pscan := PScalar (v : list ascii) (rest : list (list ascii)) | PFail (msg : string).

(** The continuation lines of a plain scalar whose parent block is at
    column [p]: more indented lines, folded (one space for a single line
    break, the breaks themselves when empty lines come between). *)
Fixpoint plain_cont (p : Z) (acc : list ascii) (empties : nat) (ls : list (list ascii))
  : pscan :=
  match ls with
  | [] => PScalar acc []
  | l :: r =>
      let sp := count_spaces l in
      let after := skipn sp l in
      if is_doc_marker l then PScalar acc ls else
      if starts_with tab_char after && Z.ltb (Z.of_nat sp) (p + 1) then PFail err_tab_plain else
      match skip_blanks after with
      | [] => plain_cont p acc (S empties) r
      | d :: _ =>
          if Z.leb (Z.of_nat sp) p || Ascii.eqb d "#"%char then PScalar acc ls else
          let (racc, stop) := scan_plain [] true (skip_blanks after) in
          let acc' := acc ++ (if Nat.eqb empties 0 then [" "%char] else repeat nl_char empties)
                          ++ plain_text racc in
          match stop with
          | PEnd => plain_cont p acc' 0 r
          | PComment => PScalar acc' r
          | PColon _ => PFail err_mapping_values
          end
      end
  end.

Definition scan_plain_scalar (p : Z) (c : list ascii) (ls : list (list ascii)) : pscan :=
  let (racc, stop) := scan_plain [] true c in
  match stop with
  | PEnd => plain_cont p (plain_text racc) 0 ls
  | PComment => PScalar (plain_text racc) ls
  | PColon _ => PFail err_mapping_values
  end.

(** [IS_PLAIN] start of a plain scalar in the block context. *)
Definition plain_start_ok (c : list ascii) : bool :=
  match c with
  | [] => false
  | x :: r =>
      if existsb (Ascii.eqb x) ["-"; "?"; ":"]%char then negb (next_is_blankz r)
      else negb (is_blank_c x)
           && negb (existsb (Ascii.eqb x)
                      [","; "["; "]"; "{"; "}"; "#"; "&"; "*"; "!"; "|"; ">"; "'"; dq_char; "%"; "@"; "`"]%char)
  end.

(** **** Quoted scalars ([yaml_parser_scan_flow_scalar]) *)

(** The scan of one line of a quoted scalar; [acc] is reversed. *)
Inductive qline :=
| QClosed (acc : list ascii) (rest : list ascii)
| QBreak (acc : list ascii)
| QEscBreak (acc : list ascii)
| QErr (msg : string).

(** Single-quoted: [''] is a quote; blanks before a line break are dropped
    ([ws] holds the pending blanks, reversed). *)
Fixpoint sq_line (acc ws : list ascii) (l : list ascii) : qline :=
  match l with
  | [] => QBreak acc
  | c :: r =>
      if is_blank_c c then sq_line acc (c :: ws) r else
      let acc' := ws ++ acc in
      if Ascii.eqb c "'"%char then
        match r with
        | d :: r' => if Ascii.eqb d "'"%char then sq_line ("'"%char :: acc') [] r'
                     else QClosed acc' r
        | [] => QClosed acc' []
        end
      else sq_line (c :: acc') [] r
  end.

(** The one-character escapes of a double-quoted scalar. *)
Definition simple_escape (c : ascii) : option (list ascii) :=
  let b := fun n => [ascii_of_nat n] in
  if Ascii.eqb c "0"%char then Some (b 0)
  else if Ascii.eqb c "a"%char then Some (b 7)
  else if Ascii.eqb c "b"%char then Some (b 8)
  else if Ascii.eqb c "t"%char || Ascii.eqb c tab_char then Some (b 9)
  else if Ascii.eqb c "n"%char then Some (b 10)
  else if Ascii.eqb c "v"%char then Some (b 11)
  else if Ascii.eqb c "f"%char then Some (b 12)
  else if Ascii.eqb c "r"%char then Some (b 13)
  else if Ascii.eqb c "e"%char then Some (b 27)
  else if Ascii.eqb c " "%char then Some (b 32)
  else if Ascii.eqb c dq_char then Some (b 34)
  else if Ascii.eqb c "/"%char then Some (b 47)
  else if Ascii.eqb c "\"%char then Some (b 92)
  else if Ascii.eqb c "N"%char then Some [ascii_of_nat 194; ascii_of_nat 133]
  else if Ascii.eqb c "_"%char then Some [ascii_of_nat 194; ascii_of_nat 160]
  else if Ascii.eqb c "L"%char then Some [ascii_of_nat 226; ascii_of_nat 128; ascii_of_nat 168]
  else if Ascii.eqb c "P"%char then Some [ascii_of_nat 226; ascii_of_nat 128; ascii_of_nat 169]
  else None.

Definition hex_value (c : ascii) : option Z :=
  match digit_value c with
  | Some d => if Z.ltb d 16 then Some d else None
  | None => None
  end.

Inductive dq_mode := DqText | DqEsc | DqHex (k : nat) (v : Z).

(** Double-quoted: escapes, [\x..], [\u....], [\U........] as UTF-8, and a
    backslash at the end of a line escapes the line break. *)
Fixpoint dq_line (mode : dq_mode) (acc ws : list ascii) (l : list ascii) : qline :=
  match l with
  | [] => match mode with
          | DqText => QBreak acc
          | DqEsc => QEscBreak acc
          | DqHex _ _ => QErr err_hex
          end
  | c :: r =>
      match mode with
      | DqText =>
          if is_blank_c c then dq_line DqText acc (c :: ws) r else
          let acc' := ws ++ acc in
          if Ascii.eqb c dq_char then QClosed acc' r
          else if Ascii.eqb c "\"%char then dq_line DqEsc acc' [] r
          else dq_line DqText (c :: acc') [] r
      | DqEsc =>
          match simple_escape c with
          | Some bs => dq_line DqText (rev bs ++ acc) [] r
          | None =>
              if Ascii.eqb c "x"%char then dq_line (DqHex 2 0) acc [] r
              else if Ascii.eqb c "u"%char then dq_line (DqHex 4 0) acc [] r
              else if Ascii.eqb c "U"%char then dq_line (DqHex 8 0) acc [] r
              else QErr err_escape
          end
      | DqHex k v =>
          match hex_value c with
          | None => QErr err_hex
          | Some d =>
              let v' := (v * 16 + d)%Z in
              match k with
              | S (S k') => dq_line (DqHex (S k') v') acc [] r
              | _ =>
                  if (Z.leb 55296 v' && Z.leb v' 57343) || Z.ltb 1114111 v'
                  then QErr err_unicode
                  else dq_line DqText (rev (utf8_encode v') ++ acc) [] r
              end
          end
      end
  end.

Definition quoted_line (single : bool) (acc : list ascii) (l : list ascii) : qline :=
  if single then sq_line acc [] l else dq_line DqText acc [] l.

Inductive qscan :=
| QScalar (v : list ascii) (rest_of_line : list ascii) (rest : list (list ascii))
| QFail (msg : string).

(** The lines after a break inside a quoted scalar: leading blanks are
    skipped; a break is folded to a space, or to the breaks of the empty
    lines that follow it; an escaped break folds to those breaks only. *)
Fixpoint quoted_cont (single escaped : bool) (acc : list ascii) (breaks : nat)
  (ls : list (list ascii)) : qscan :=
  match ls with
  | [] => QFail err_quoted_eof
  | l :: r =>
      if is_doc_marker l then QFail err_quoted_doc else
      match skip_blanks l, r with
      | [], [] => QFail err_quoted_eof
      | [], _ :: _ => quoted_cont single escaped acc (S breaks) r
      | t, _ =>
          let join := if escaped then repeat nl_char breaks
                      else if Nat.eqb breaks 0 then [" "%char] else repeat nl_char breaks in
          match quoted_line single (rev join ++ acc) t with
          | QClosed acc' rest => QScalar (rev acc') rest r
          | QBreak acc' => quoted_cont single false acc' 0 r
          | QEscBreak acc' => quoted_cont single true acc' 0 r
          | QErr m => QFail m
          end
      end
  end.

(** A quoted scalar whose opening quote is followed by [l] on its line. *)
Definition scan_quoted (single : bool) (l : list ascii) (ls : list (list ascii)) : qscan :=
  match quoted_line single [] l with
  | QClosed acc rest => QScalar (rev acc) rest ls
  | QBreak acc => quoted_cont single false acc 0 ls
  | QEscBreak acc => quoted_cont single true acc 0 ls
  | QErr m => QFail m
  end.

(** **** Block scalars ([yaml_parser_scan_block_scalar]) *)

(** The header after [|] or [>]: chomping ([-1] strip, [0] clip, [1] keep)
    and indentation indicators in either order, then blanks and a comment. *)
Definition block_header (l : list ascii) : result (Z * nat) string :=
  let chomp_of c := if Ascii.eqb c "+"%char then 1%Z else (-1)%Z in
  let is_chomp c := Ascii.eqb c "+"%char || Ascii.eqb c "-"%char in
  let indicators :=
    match l with
    | c :: r =>
        if is_chomp c then
          match r with
          | d :: r' => if is_digit d then
                         (if Ascii.eqb d "0"%char then None
                          else Some (chomp_of c, byte d - 48, r'))
                       else Some (chomp_of c, 0, r)
          | [] => Some (chomp_of c, 0, r)
          end
        else if is_digit c then
          if Ascii.eqb c "0"%char then None else
          match r with
          | d :: r' => if is_chomp d then Some (chomp_of d, byte c - 48, r')
                       else Some (0%Z, byte c - 48, r)
          | [] => Some (0%Z, byte c - 48, r)
          end
        else Some (0%Z, 0, l)
    | [] => Some (0%Z, 0, l)
    end in
  match indicators with
  | None => Err err_indent0
  | Some (ch, inc, r) =>
      match skip_blanks r with
      | [] => Ok (ch, inc)
      | c :: _ => if Ascii.eqb c "#"%char then Ok (ch, inc) else Err err_block_header
      end
  end.

(** [yaml_parser_scan_block_scalar_breaks]: empty lines (up to [indent]
    spaces, or any number while the indentation is not known yet) and
    their breaks; the last line of the input has no break. *)
Fixpoint block_breaks (indent : option nat) (maxi breaks : nat) (ls : list (list ascii))
  : result (nat * nat * list (list ascii)) string :=
  match ls with
  | [] => Ok (breaks, maxi, [])
  | l :: r =>
      let sp := count_spaces l in
      let eaten := match indent with Some n => Nat.min n sp | None => sp end in
      let rest := skipn eaten l in
      let maxi' := Nat.max maxi eaten in
      if match indent with Some n => Nat.ltb eaten n | None => true end
         && starts_with tab_char rest
      then Err err_block_tab else
      match rest, r with
      | [], _ :: _ => block_breaks indent maxi' (S breaks) r
      | _, _ => Ok (breaks, maxi', ls)
      end
  end.

(** The content lines: each line at the indentation is added after the
    pending break and empty lines; a folded scalar turns the break between
    two lines that do not start with a blank into a space. *)
Fixpoint block_lines (fuel : nat) (literal : bool) (indent : nat) (acc : list ascii)
  (lead leading_blank : bool) (breaks : nat) (ls : list (list ascii))
  : result (list ascii * bool * nat * list (list ascii)) string :=
  match fuel with
  | O => Ok (acc, lead, breaks, ls)
  | S f =>
      match ls with
      | [] => Ok (acc, lead, breaks, [])
      | l :: r =>
          let sp := count_spaces l in
          let rest := skipn indent l in
          if Nat.ltb sp indent then Ok (acc, lead, breaks, ls) else
          match rest, r with
          | [], [] => Ok (acc, lead, breaks, ls)
          | _, _ =>
              let trailing_blank := match rest with c :: _ => is_blank_c c | [] => false end in
              let acc1 := if negb literal && lead && negb leading_blank && negb trailing_blank
                          then (if Nat.eqb breaks 0 then acc ++ [" "%char] else acc)
                          else acc ++ (if lead then [nl_char] else []) in
              let acc2 := acc1 ++ repeat nl_char breaks ++ rest in
              let lead' := match r with [] => false | _ => true end in
              match block_breaks (Some indent) 0 0 r with
              | Err m => Err m
              | Ok (breaks', _, ls') =>
                  block_lines f literal indent acc2 lead' trailing_blank breaks' ls'
              end
          end
      end
  end.

Inductive bscan := BScalar (v : list ascii) (rest : list (list ascii)) | BFail (msg : string).

(** A block scalar of a node whose parent block is at column [p] (-1 at
    the top level); [header] follows the indicator on its line. *)
Definition scan_block_scalar (literal : bool) (p : Z) (header : list ascii)
  (ls : list (list ascii)) : bscan :=
  match block_header header with
  | Err m => BFail m
  | Ok (chomp, inc) =>
      let indent0 := if Nat.eqb inc 0 then None
                     else Some (if Z.leb 0 p then Z.to_nat p + inc else inc) in
      match block_breaks indent0 0 0 ls with
      | Err m => BFail m
      | Ok (breaks, maxi, ls1) =>
          let indent := match indent0 with
                        | Some n => n
                        | None => Nat.max (Nat.max maxi (Z.to_nat (p + 1))) 1
                        end in
          match block_lines (length ls1) literal indent [] false false breaks ls1 with
          | Err m => BFail m
          | Ok (acc, lead, breaks', rest) =>
              let v := acc ++ (if Z.eqb chomp (-1) then [] else if lead then [nl_char] else [])
                           ++ (if Z.eqb chomp 1 then repeat nl_char breaks' else []) in
              BScalar v rest
          end
      end
  end.

(** **** Keys, nodes, mappings and sequences *)

Inductive key_scan := KeyFound (k : ynode) (rest : list ascii) | KeyFail (msg : string) | NotKey.

(** A simple key on a line: a plain or quoted scalar on the line followed
    by [:] and a blank or the line's end. *)
Definition scan_key (c : list ascii) : key_scan :=
  match c with
  | [] => NotKey
  | q :: r =>
      if Ascii.eqb q "'"%char || Ascii.eqb q dq_char then
        let single := Ascii.eqb q "'"%char in
        match quoted_line single [] r with
        | QClosed acc rest =>
            match skip_blanks rest with
            | d :: rest' =>
                if Ascii.eqb d ":"%char && next_is_blankz rest'
                then KeyFound (YScalar (if single then SingleQuotedStyle else DoubleQuotedStyle)
                                 (rev acc)) rest'
                else NotKey
            | [] => NotKey
            end
        | QErr m => KeyFail m
        | _ => NotKey
        end
      else if plain_start_ok c then
        match scan_plain [] true c with
        | (racc, PColon rest) => KeyFound (YScalar PlainStyle (plain_text racc)) rest
        | _ => NotKey
        end
      else NotKey
  end.

Definition spaces (n : nat) : list ascii := repeat " "%char n.

(** A scalar that starts with [c] on the current line; what follows a
    quoted scalar on its line is handed back as a more indented line, which
    the enclosing block then reports. *)
Definition parse_value (p : Z) (c : list ascii) (r : list (list ascii))
  : ynode * list (list ascii) :=
  match c with
  | [] => (empty_node, r)
  | x :: rest =>
      if Ascii.eqb x "'"%char || Ascii.eqb x dq_char then
        let single := Ascii.eqb x "'"%char in
        match scan_quoted single rest r with
        | QScalar v after r' =>
            let n := YScalar (if single then SingleQuotedStyle else DoubleQuotedStyle) v in
            match skip_blanks after with
            | [] => (n, r')
            | (d :: _) as t =>
                if Ascii.eqb d "#"%char then (n, r')
                else (n, (spaces (Z.to_nat (p + 1)) ++ t) :: r')
            end
        | QFail m => (YErr m, [])
        end
      else if Ascii.eqb x "|"%char || Ascii.eqb x ">"%char then
        match scan_block_scalar (Ascii.eqb x "|"%char) p rest r with
        | BScalar v r' => (YScalar (if Ascii.eqb x "|"%char then LiteralStyle else FoldedStyle) v, r')
        | BFail m => (YErr m, [])
        end
      else if existsb (Ascii.eqb x) ["["; "{"; "&"; "*"; "!"]%char then (YErr err_unmodelled, [])
      else if Ascii.eqb x "-"%char && next_is_blankz rest then (YErr err_seq_entries, [])
      else if (Ascii.eqb x "?"%char || Ascii.eqb x ":"%char) && next_is_blankz rest
      then (YErr err_unmodelled, [])
      else if existsb (Ascii.eqb x) [","; "]"; "}"]%char then (YErr err_node, [])
      else if existsb (Ascii.eqb x) ["%"; "@"; "`"]%char then (YErr err_token, [])
      else
        match scan_plain_scalar p c r with
        | PScalar v r' => (YScalar PlainStyle v, r')
        | PFail m => (YErr m, [])
        end
  end.

Fixpoint parse_node (fuel : nat) (p : Z) (indentless_ok : bool) (ls : list (list ascii))
  : ynode * list (list ascii) :=
  match fuel with
  | O => (YErr err_node, [])
  | S f =>
      match skip_empty ls with
      | [] => (empty_node, [])
      | (l :: r) as ls1 =>
          if is_doc_marker l then (empty_node, ls1) else
          let i := count_spaces l in
          let c := skipn i l in
          if Z.leb (Z.of_nat i) p then
            if indentless_ok && Z.eqb (Z.of_nat i) p && is_seq_entry c
            then parse_seq f i true [] ls1
            else (empty_node, ls1)
          else parse_at f p i c r
      end
  end

(** A node that starts at column [col] of the current line with [c]. *)
with parse_at (fuel : nat) (p : Z) (col : nat) (c : list ascii) (r : list (list ascii))
  : ynode * list (list ascii) :=
  match fuel with
  | O => (YErr err_node, [])
  | S f =>
      if starts_with tab_char c then (YErr err_token, []) else
      if is_seq_entry c then parse_seq f col false [] ((spaces col ++ c) :: r) else
      match scan_key c with
      | KeyFound _ _ => parse_map f col [] ((spaces col ++ c) :: r)
      | KeyFail m => (YErr m, [])
      | NotKey => parse_value p c r
      end
  end

(** A block mapping whose keys are at column [m]. *)
with parse_map (fuel : nat) (m : nat) (acc : list (ynode * ynode)) (ls : list (list ascii))
  : ynode * list (list ascii) :=
  match fuel with
  | O => (YErr err_node, [])
  | S f =>
      match skip_empty ls with
      | [] => (YMap (rev acc) None, [])
      | (l :: r) as ls1 =>
          if is_doc_marker l then (YMap (rev acc) None, ls1) else
          let i := count_spaces l in
          let c := skipn i l in
          if Nat.ltb i m then (YMap (rev acc) None, ls1)
          else if Nat.ltb m i then (YMap (rev acc) (Some err_expected_key), [])
          else if starts_with tab_char c then (YMap (rev acc) (Some err_token), [])
          else if is_seq_entry c then (YMap (rev acc) (Some err_expected_key), [])
          else
            match scan_key c with
            | NotKey => (YMap (rev acc) (Some err_simple_key), [])
            | KeyFail msg => (YMap (rev acc) (Some msg), [])
            | KeyFound k after =>
                let a := skipn (count_spaces after) after in
                let '(v, r') :=
                  match a with
                  | [] => parse_node f (Z.of_nat m) true r
                  | x :: _ =>
                      if Ascii.eqb x tab_char then (YErr err_token, [])
                      else if Ascii.eqb x "#"%char then parse_node f (Z.of_nat m) true r
                      else parse_value (Z.of_nat m) a r
                  end in
                match node_error v with
                | Some e => (YMap (rev ((k, v) :: acc)) (Some e), [])
                | None => parse_map f m ((k, v) :: acc) r'
                end
            end
      end
  end

(** A block sequence whose [-] entries are at column [i]; an indentless
    sequence (a mapping value at the mapping's column) ends at the next
    line that is not an entry. *)
with parse_seq (fuel : nat) (i : nat) (indentless : bool) (acc : list ynode)
  (ls : list (list ascii)) : ynode * list (list ascii) :=
  match fuel with
  | O => (YErr err_node, [])
  | S f =>
      match skip_empty ls with
      | [] => (YSeq (rev acc) None, [])
      | (l :: r) as ls1 =>
          if is_doc_marker l then (YSeq (rev acc) None, ls1) else
          let j := count_spaces l in
          let c := skipn j l in
          if Nat.ltb j i then (YSeq (rev acc) None, ls1)
          else if Nat.ltb i j then (YSeq (rev acc) (Some err_expected_dash), [])
          else if negb (is_seq_entry c) then
            if indentless then (YSeq (rev acc) None, ls1)
            else if starts_with tab_char c then (YSeq (rev acc) (Some err_token), [])
            else (YSeq (rev acc) (Some err_expected_dash), [])
          else
            let after := tl c in
            let k := count_spaces after in
            let a := skipn k after in
            let '(v, r') :=
              match a with
              | [] => parse_node f (Z.of_nat i) false r
              | x :: _ =>
                  if Ascii.eqb x tab_char then (YErr err_token, [])
                  else if Ascii.eqb x "#"%char then parse_node f (Z.of_nat i) false r
                  else parse_at f (Z.of_nat i) (i + 1 + k) a r
              end in
            match node_error v with
            | Some e => (YSeq (rev (v :: acc)) (Some e), [])
            | None => parse_seq f i indentless (v :: acc) r'
            end
      end
  end.

(** **** The stream *)

(** [yaml_parser_update_buffer]: the characters libyaml accepts. *)
Definition allowed_code_point (v : Z) : bool :=
  Z.eqb v 9 || Z.eqb v 10 || Z.eqb v 13 || (Z.leb 32 v && Z.leb v 126) || Z.eqb v 133
  || (Z.leb 160 v && Z.leb v 55295) || (Z.leb 57344 v && Z.leb v 65533)
  || (Z.leb 65536 v && Z.leb v 1114111).

(** The reader drops a byte order mark at the start of the input. *)
Definition strip_bom (l : list ascii) : list ascii :=
  match l with
  | a :: b :: c :: r =>
      if Nat.eqb (byte a) 239 && Nat.eqb (byte b) 187 && Nat.eqb (byte c) 191 then r else l
  | _ => l
  end.

Fixpoint split_at_nl (cur : list ascii) (l : list ascii) : list (list ascii) :=
  match l with
  | [] => [rev cur]
  | c :: r => if Ascii.eqb c nl_char then rev cur :: split_at_nl [] r
              else split_at_nl (c :: cur) r
  end.

(** A line of a CRLF file ends in CR before its LF. *)
Definition strip_cr (l : list ascii) : list ascii :=
  match rev l with
  | c :: r => if Ascii.eqb c cr_char then rev r else l
  | [] => []
  end.

(** The lines of the input; the last one is not followed by a break. *)
Definition input_lines (l : list ascii) : list (list ascii) :=
  map strip_cr (split_at_nl [] l).

(** After a [...] document end: does a further document follow?  Further
    [...] lines, blank lines and comments do not start one. *)
Fixpoint more_after_end (ls : list (list ascii)) : bool :=
  match ls with
  | [] => false
  | l :: r =>
      if is_empty_line l then more_after_end r
      else if is_doc_marker l && starts_with "."%char l then
        match skip_blanks (skipn 3 l) with
        | [] => more_after_end r
        | c :: _ => if Ascii.eqb c "#"%char then more_after_end r else true
        end
      else true
  end.

(** The first document of the stream, and whether another one follows it.
    Text after the first document's node that neither ends the document
    nor starts a new one belongs to the next document, where libyaml finds
    no document start. *)
Record document := { doc_root : ynode; doc_more : bool }.

Definition parse_stream (input : list ascii) : document :=
  let bs := strip_bom input in
  if negb (forallb (fun ch => allowed_code_point (code_point ch)) (utf8_chars bs))
  then {| doc_root := YErr err_control; doc_more := false |} else
  let fuel := 4 * (length bs + 1) in
  let '(root, rest) :=
    match skip_empty (input_lines bs) with
    | [] => (empty_node, [])
    | (l :: r) as ls =>
        if starts_with "%"%char l then (YErr err_unmodelled, [])
        else if is_start_marker l then
          match skip_blanks (skipn 3 l) with
          | [] => parse_node fuel (-1) false r
          | (c :: _) as t =>
              if Ascii.eqb c "#"%char then parse_node fuel (-1) false r
              else parse_at fuel (-1) (length l - length t) t r
          end
        else parse_node fuel (-1) false ls
    end in
  let more :=
    match node_error root with
    | Some _ => false
    | None =>
        match skip_empty rest with
        | [] => false
        | l :: r =>
            if is_doc_marker l && starts_with "."%char l then more_after_end (l :: r)
            else true
        end
    end in
  {| doc_root := root; doc_more := more |}.

(** **** The derived [Deserialize] of [ConfigInner] over the events *)

(** serde's [Error::invalid_type] message. *)
Definition invalid_type_msg (unexp expected : string) : string :=
  "invalid type: " +:+ unexp +:+ ", expected " +:+ expected.

Definition hex_lower (d : nat) : ascii :=
  if Nat.ltb d 10 then ascii_of_nat (48 + d) else ascii_of_nat (87 + d).

Fixpoint hex_lower_digits (fuel n : nat) (acc : list ascii) : list ascii :=
  match fuel with
  | O => acc
  | S f =>
      let acc' := hex_lower (n mod 16) :: acc in
      if Nat.ltb n 16 then acc' else hex_lower_digits f (n / 16) acc'
  end.

(** [char::escape_debug] on one byte of a string's [Debug] form: bytes
    from 128 on are parts of characters Rust prints as they are. *)
Definition debug_escape (c : ascii) : list ascii :=
  let n := byte c in
  if Nat.eqb n 0 then ["\"; "0"]%char
  else if Nat.eqb n 9 then ["\"; "t"]%char
  else if Nat.eqb n 10 then ["\"; "n"]%char
  else if Nat.eqb n 13 then ["\"; "r"]%char
  else if Nat.eqb n 34 then ["\"; dq_char]%char
  else if Nat.eqb n 92 then ["\"; "\"]%char
  else if Nat.ltb n 32 || Nat.eqb n 127
  then ["\"; "u"; "{"]%char ++ hex_lower_digits 2 n [] ++ ["}"%char]
  else [c].

(** [Debug] of a string: quoted and escaped. *)
Definition debug_str (v : list ascii) : list ascii :=
  dq_char :: flat_map debug_escape v ++ [dq_char].

(** What serde names a scalar given to a visitor that does not take it: a
    plain scalar is first resolved as null, a boolean, a number or a
    string ([visit_untagged_scalar]); a quoted or block scalar is a string. *)
Definition unexpected_scalar (sty : scalar_style) (v : list ascii) : string :=
  let s := string_of_list_ascii in
  match sty with
  | PlainStyle =>
      match untagged_kind v with
      | KUnit => "unit value"
      | KBool b => "boolean `" +:+ (if b then "true" else "false") +:+ "`"
      | KU64 n | KI64 n => "integer `" +:+ s (dec_of_Z n) +:+ "`"
      | KU128 n => "integer `" +:+ s (dec_of_Z n) +:+ "` as u128"
      | KI128 n => "integer `" +:+ s (dec_of_Z n) +:+ "` as i128"
      | KFloat t => "floating point `" +:+ s t +:+ "`"
      | KStr => "string " +:+ s (debug_str v)
      end
  | _ => "string " +:+ s (debug_str v)
  end.

(** [deserialize_str] on the value of field [field]: any scalar is its
    text; a collection is an invalid type, reported under the field's
    path. *)
Definition de_field (field : string) (v : ynode) : result string string :=
  match v with
  | YScalar _ s => Ok (string_of_list_ascii s)
  | YSeq _ _ => Err (field +:+ ": " +:+ invalid_type_msg "sequence" "a string")
  | YMap _ _ => Err (field +:+ ": " +:+ invalid_type_msg "map" "a string")
  | YErr m => Err m
  end.

(** [IgnoredAny]: all the events of the value are read. *)
Definition de_ignored (v : ynode) : result unit string :=
  match node_error v with
  | Some e => Err e
  | None => Ok tt
  end.

(** The derived [visit_map] of [ConfigInner]: unknown keys are ignored, a
    repeated field is an error as soon as its key is read, missing fields
    are reported at the end in declaration order.  [stop] is the syntax
    error where the mapping's events end, if they do not reach its end. *)
Fixpoint visit_map (es : list (ynode * ynode)) (stop : option string)
  (pd cmd : option string) : result ConfigInner string :=
  match es with
  | [] =>
      match stop with
      | Some e => Err e
      | None =>
          match pd, cmd with
          | None, _ => Err "missing field `projects_directory`"
          | _, None => Err "missing field `editor_cmd`"
          | Some p, Some c => Ok {| projects_directory := p; editor_cmd := c |}
          end
      end
  | (k, v) :: rest =>
      match k with
      | YErr m => Err m
      | YSeq _ _ => Err (invalid_type_msg "sequence" "field identifier")
      | YMap _ _ => Err (invalid_type_msg "map" "field identifier")
      | YScalar _ kv =>
          let key := string_of_list_ascii kv in
          if String.eqb key "projects_directory" then
            match pd with
            | Some _ => Err "duplicate field `projects_directory`"
            | None =>
                match de_field key v with
                | Ok s => visit_map rest stop (Some s) cmd
                | Err m => Err m
                end
            end
          else if String.eqb key "editor_cmd" then
            match cmd with
            | Some _ => Err "duplicate field `editor_cmd`"
            | None =>
                match de_field key v with
                | Ok s => visit_map rest stop pd (Some s)
                | Err m => Err m
                end
            end
          else
            match de_ignored v with
            | Ok _ => visit_map rest stop pd cmd
            | Err m => Err m
            end
      end
  end.

(** [deserialize_struct] (through [deserialize_map]): a mapping is
    visited; an empty document, or an empty plain scalar, is an empty
    mapping; anything else is an invalid type. *)
Definition de_config_inner (n : ynode) : result ConfigInner string :=
  match n with
  | YMap es stop => visit_map es stop None None
  | YScalar PlainStyle [] => visit_map [] None None None
  | YScalar sty v => Err (invalid_type_msg (unexpected_scalar sty v) "struct ConfigInner")
  | YSeq _ _ => Err (invalid_type_msg "sequence" "struct ConfigInner")
  | YErr m => Err m
  end.

Definition msg_more_documents : string :=
  "deserializing from YAML containing more than one document is not supported".

(** [serde_norway::from_str::<ConfigInner>]; the error is its [to_string]
    without the [at line L column C] positions. *)
Definition from_str (raw : string) : result ConfigInner string :=
  let d := parse_stream (list_ascii_of_string raw) in
  match de_config_inner (doc_root d) with
  | Err m => Err m
  | Ok c => if doc_more d then Err msg_more_documents else Ok c
  end.

Local Open Scope string_scope.

(** [looks_like_missing_field] *)
Definition looks_like_missing_field (msg : string) : bool :=
  contains "missing field" msg.

(** [fs::read_to_string]: the file's bytes, which must be UTF-8
    ([io::ErrorKind::InvalidData] otherwise). *)
Definition read_to_string (st : fs) (p : path) : result string io_error :=
  match st !! p with
  | Some (File data true _) =>
      if utf8_valid (list_ascii_of_string data) then Ok data else Err InvalidData
  | Some (File _ false _) => Err PermissionDenied
  | Some (Dir _ _) => Err IsADirectory
  | None => Err NotFound
  end.

(* ------------------------------------------------------------------ *)
(** ** [Config::load] and [Config::create_and_persist] *)

Section Env.

(** [dirs::config_dir()] (or its [HOME] fallback) of the running process. *)
Variable platform_config_dir : path.

(** [app_config_dir]: [<platform_config_dir>/rustm]. *)
Definition app_config_dir : path := path_join platform_config_dir "rustm".

(** [config_file_path]: [<app_config_dir>/config.yaml]. *)
Definition config_file_path : path := path_join app_config_dir "config.yaml".

(** [path.with_extension("yaml.tmp")], a sibling of [config_file_path]. *)
Definition tmp_file_path : path := path_join app_config_dir "config.yaml.tmp".

(** The I/O steps of [create_and_persist] after validation and serialization,
    with what the source does with each step's error. *)
Definition persist_protocol (yaml : string) : list (io_action * on_error) :=
  [ (CreateDirAll app_config_dir, Propagate);
    (CreateFile app_config_dir tmp_file_path, Propagate);
    (WriteAll tmp_file_path yaml, Propagate);
    (SyncAll tmp_file_path, Discard);
    (Rename app_config_dir tmp_file_path config_file_path, Propagate) ].

(** [Config::load] *)
Definition load (st : fs) : result LoadStatus LoadError * fs :=
  let p := config_file_path in
  if negb (path_exists st p) then (Ok (NeedsInitialSetup MissingFile), st) else
  match read_to_string st p with
  | Err e => (Err (LoadIo e), st)
  | Ok raw =>
      match from_str raw with
      | Ok inner =>
          if is_blank (projects_directory inner)
          then (Ok (NeedsInitialSetup IncompleteData), st) else
          if is_blank (editor_cmd inner)
          then (Ok (NeedsInitialSetup IncompleteData), st) else
          let (vr, st1) :=
            validate_projects_directory st (projects_directory inner) in
          match vr with
          | Err _ => (Ok (NeedsInitialSetup IncompleteData), st1)
          | Ok _ => (Ok (Ready inner), st1)
          end
      | Err msg =>
          if looks_like_missing_field msg
          then (Ok (NeedsInitialSetup IncompleteData), st)
          else (Err (Corrupt msg), st)
      end
  end.

(** [Config::create_and_persist]; [to_string_lossy] is the identity on
    the path strings of the model. *)
Definition create_and_persist (flt : faults) (st : fs)
  (pd : path) (cmd : string) : result Config SaveError * fs :=
  if is_blank cmd then (Err (Validation (EmptyField "editor_cmd")), st) else
  let (vr, st1) := validate_projects_directory st pd in
  match vr with
  | Err e => (Err (Validation e), st1)
  | Ok _ =>
      let inner := {| projects_directory := pd; editor_cmd := trim cmd |} in
      match to_string inner with
      | Err m => (Err (Serialize m), st1)
      | Ok yaml =>
          let (r, st2) := run_protocol flt st1 (persist_protocol yaml) in
          match r with
          | Err e => (Err (SaveIo e), st2)
          | Ok _ => (Ok inner, st2)
          end
      end
  end.

(** The state left by [create_and_persist] when the process stops after
    the first [k] I/O steps of the protocol (a crash or a kill). *)
Definition create_and_persist_interrupted (flt : faults) (st : fs)
  (pd : path) (cmd : string) (k : nat) : fs :=
  if is_blank cmd then st else
  let (vr, st1) := validate_projects_directory st pd in
  match vr with
  | Err _ => st1
  | Ok _ =>
      let inner := {| projects_directory := pd; editor_cmd := trim cmd |} in
      match to_string inner with
      | Err _ => st1
      | Ok yaml => snd (run_protocol flt st1 (firstn k (persist_protocol yaml)))
      end
  end.

(** [Config::save]: the directory is validated before the editor command is
    checked, the stored record is written as it is (no trimming), through
    the same temporary-file protocol as [create_and_persist]. *)
Definition save (flt : faults) (st : fs) (c : Config) : result unit SaveError * fs :=
  let (vr, st1) := validate_projects_directory st (projects_directory c) in
  match vr with
  | Err e => (Err (Validation e), st1)
  | Ok _ =>
      if is_blank (editor_cmd c)
      then (Err (Validation (EmptyField "editor_cmd")), st1) else
      match to_string c with
      | Err m => (Err (Serialize m), st1)
      | Ok yaml =>
          let (r, st2) := run_protocol flt st1 (persist_protocol yaml) in
          match r with
          | Err e => (Err (SaveIo e), st2)
          | Ok _ => (Ok tt, st2)
          end
      end
  end.

End Env.

(** [impl Display for ValidationError]; [p.display()] is the path string. *)
Definition display_validation (e : ValidationError) : string :=
  match e with
  | EmptyField field => "Field '" +:+ field +:+ "' cannot be empty"
  | ProjectsDirDoesNotExist p => "Projects directory does not exist: " +:+ p
  | ProjectsDirNotDirectory p => "Projects directory is not a directory: " +:+ p
  | ProjectsDirNotWritable p => "Projects directory not writable: " +:+ p
  | ProjectsDirNotReadable p => "Projects directory not readable: " +:+ p
  end.

(** Every character printable ASCII, from the space to [~]. *)
Definition printable_ascii (s : string) : bool :=
  forallb (in_range 32 126) (list_ascii_of_string s).

(* ------------------------------------------------------------------ *)
(** ** [Path::parent] (Unix)

    Computed on the reversed character list.  [trim_back] is the trimming of
    [Components::as_path] at the end of a path: separators and [.]
    components are skipped, a root or a leading [.] stays. *)

Fixpoint trim_back (r : list ascii) : list ascii :=
  match r with
  | [] => []
  | c :: r' =>
      if Ascii.eqb c "/"%char then
        match r' with [] => r | _ => trim_back r' end
      else if Ascii.eqb c "."%char then
        match r' with
        | d :: _ => if Ascii.eqb d "/"%char then trim_back r' else r
        | [] => r
        end
      else r
  end.

(** Drop the characters of the last component. *)
Fixpoint drop_component (r : list ascii) : list ascii :=
  match r with
  | [] => []
  | c :: r' => if Ascii.eqb c "/"%char then r else drop_component r'
  end.

(** [Path::parent]: [None] for the empty path and for the root. *)
Definition path_parent (p : path) : option path :=
  let r := trim_back (rev (list_ascii_of_string p)) in
  match r with
  | [] => None
  | c :: _ =>
      if Ascii.eqb c "/"%char then None
      else Some (string_of_list_ascii (rev (trim_back (drop_component r))))
  end.

(** The last character of the path is neither a separator nor [.]. *)
Definition last_plain (p : path) : bool :=
  match last (list_ascii_of_string p) with
  | Some c => negb (Ascii.eqb c "/"%char) && negb (Ascii.eqb c "."%char)
  | None => false
  end.

(* ------------------------------------------------------------------ *)
(** ** External processes ([std::process::Command])

    A process is described by its program, arguments and working
    directory.  The world is the filesystem together with the list of the
    processes started so far; what a process does (its exit status, its
    output, its effect on the filesystem) is given by a [runner]. *)

Record command := {
  program : string;
  args : list string;
  current_dir : option path
}.

(** [ExitStatus]: [code] is [None] when the process was killed by a signal. *)
Record exit_status := { code : option Z }.

(** [ExitStatus::success] *)
Definition success (s : exit_status) : bool :=
  match code s with Some 0%Z => true | _ => false end.

(** [std::process::Output] ([stderr] after [from_utf8_lossy]). *)
Record proc_output := { status : exit_status; stderr : string }.

Abbreviation world := (fs * list command)%type.

(** Starting [c]: [Err] when it cannot be started ([NotFound] when the
    program does not exist). *)
Abbreviation runner := (command -> fs -> result proc_output io_error * fs).

Definition run_cmd (run : runner) (w : world) (c : command)
  : result proc_output io_error * world :=
  let '(r, st') := run c (fst w) in (r, (st', (snd w ++ [c])%list)).

(** [str::split_whitespace] *)
Fixpoint split_ws (cur : list ascii) (l : list ascii) : list string :=
  match l with
  | [] => match cur with [] => [] | _ => [string_of_list_ascii (rev cur)] end
  | c :: r =>
      if is_whitespace c then
        match cur with
        | [] => split_ws [] r
        | _ => string_of_list_ascii (rev cur) :: split_ws [] r
        end
      else split_ws (c :: cur) r
  end.

Definition split_whitespace (s : string) : list string :=
  split_ws [] (list_ascii_of_string s).

(* ------------------------------------------------------------------ *)
(** ** Project creation (src/src/project/create.rs) *)

Module Create.

Inductive ProjectType := Binary | Library.

(** [ProjectType::cargo_flag] *)
Definition cargo_flag (t : ProjectType) : string :=
  match t with Binary => "--bin" | Library => "--lib" end.

Inductive ProjectEdition := E2015 | E2018 | E2021 | E2024.

(** [ProjectEdition::as_str] *)
Definition as_str (e : ProjectEdition) : string :=
  match e with
  | E2015 => "2015"
  | E2018 => "2018"
  | E2021 => "2021"
  | E2024 => "2024"
  end.

(** The [Default] impls. *)
Definition default_edition : ProjectEdition := E2024.
Definition default_project_type : ProjectType := Binary.

Record CreateProjectParams := {
  name : string;
  project_type : ProjectType;
  edition : ProjectEdition
}.

(** [CreateProjectParams::new] *)
Definition CreateProjectParams_new (n : string) : CreateProjectParams :=
  {| name := n; project_type := default_project_type; edition := default_edition |}.

Record CreateProjectResult := {
  project_path : path;
  params : CreateProjectParams
}.

Inductive CreateProjectError :=
| InvalidName (msg : string)
| ProjectsDirInvalid (msg : string)
| AlreadyExists (p : path)
| CargoNotFound
| CargoFailed (status : Z) (stderr : string)
| Io (e : io_error).

Inductive OpenEditorError :=
| EditorCommandEmpty
| Spawn (e : io_error)
| Failed (code : Z).

Inductive CreateAndOpenError :=
| CreateFailed (e : CreateProjectError)
| OpenAfterCreate (result : CreateProjectResult) (error : OpenEditorError).

Definition is_ascii_alphabetic (c : ascii) : bool :=
  let n := nat_of_ascii c in
  (Nat.leb 65 n && Nat.leb n 90) || (Nat.leb 97 n && Nat.leb n 122).

Definition is_ascii_alphanumeric (c : ascii) : bool :=
  let n := nat_of_ascii c in
  is_ascii_alphabetic c || (Nat.leb 48 n && Nat.leb n 57).

Definition name_char_ok (c : ascii) : bool :=
  is_ascii_alphanumeric c || Ascii.eqb c "_"%char || Ascii.eqb c "-"%char.

(** [validate_name]; [None] when the [unwrap] of the first character
    panics. *)
Definition validate_name (nm : string) : option (result unit string) :=
  if is_blank nm then Some (Err "name cannot be blank") else
  if existsb is_whitespace (list_ascii_of_string nm)
  then Some (Err "name cannot contain whitespace") else
  match list_ascii_of_string nm with
  | [] => None
  | first :: _ =>
      if negb (is_ascii_alphabetic first)
      then Some (Err "name must start with an ASCII alphabetic character") else
      if negb (forallb name_char_ok (list_ascii_of_string nm))
      then Some (Err "name can only contain ASCII alphanumeric, '_' or '-'")
      else Some (Ok tt)
  end.

Definition git_default_branch_cmd : command :=
  {| program := "git";
     args := ["config"; "--global"; "init.defaultBranch"; "main"];
     current_dir := None |}.

(** [set_global_git_default_branch]: the outcome is only logged. *)
Definition set_global_git_default_branch (run : runner) (w : world) : world :=
  snd (run_cmd run w git_default_branch_cmd).

Definition cargo_new_cmd (ps : CreateProjectParams) (dir : path) : command :=
  {| program := "cargo";
     args := ["new"; cargo_flag (project_type ps); "--edition";
              as_str (edition ps); name ps];
     current_dir := Some dir |}.

(** [run_cargo_new]; [None] when the [expect] on the parent panics. *)
Definition run_cargo_new (run : runner) (w : world) (pp : path)
  (ps : CreateProjectParams) : option (result unit CreateProjectError) * world :=
  match path_parent pp with
  | None => (None, w)
  | Some dir =>
      let '(r, w') := run_cmd run w (cargo_new_cmd ps dir) in
      match r with
      | Err NotFound => (Some (Err CargoNotFound), w')
      | Err e => (Some (Err (Io e)), w')
      | Ok out =>
          if success (status out) then (Some (Ok tt), w')
          else (Some (Err (CargoFailed
                             (match code (status out) with
                              | Some c => c
                              | None => (-1)%Z
                              end) (stderr out))), w')
      end
  end.

(** [create_project]; [None] when the process panics. *)
Definition create_project (run : runner) (w : world) (config : Config)
  (ps : CreateProjectParams)
  : option (result CreateProjectResult CreateProjectError) * world :=
  match validate_name (name ps) with
  | None => (None, w)
  | Some (Err m) => (Some (Err (InvalidName m)), w)
  | Some (Ok _) =>
      let (vr, st1) := validate_projects_directory (fst w) (projects_directory config) in
      let w1 : world := (st1, snd w) in
      match vr with
      | Err e => (Some (Err (ProjectsDirInvalid (display_validation e))), w1)
      | Ok _ =>
          let pp := path_join (projects_directory config) (name ps) in
          if path_exists st1 pp then (Some (Err (AlreadyExists pp)), w1) else
          let w2 := set_global_git_default_branch run w1 in
          match run_cargo_new run w2 pp ps with
          | (None, w3) => (None, w3)
          | (Some (Err e), w3) => (Some (Err e), w3)
          | (Some (Ok _), w3) =>
              (Some (Ok {| project_path := pp; params := ps |}), w3)
          end
      end
  end.

(** [open_in_editor]: [Command::status] waits for the editor. *)
Definition open_in_editor (run : runner) (w : world) (ecmd : string) (pp : path)
  : result unit OpenEditorError * world :=
  if is_blank ecmd then (Err EditorCommandEmpty, w) else
  match split_whitespace ecmd with
  | [] => (Err EditorCommandEmpty, w)
  | prog :: rest =>
      let '(r, w') :=
        run_cmd run w {| program := prog; args := (rest ++ [pp])%list;
                         current_dir := None |} in
      match r with
      | Err e => (Err (Spawn e), w')
      | Ok out =>
          if success (status out) then (Ok tt, w')
          else (Err (Failed (match code (status out) with
                             | Some c => c
                             | None => (-1)%Z
                             end)), w')
      end
  end.

(** [CreateProjectResult::maybe_open_in_editor] *)
Definition maybe_open_in_editor (run : runner) (w : world) (res : CreateProjectResult)
  (config : Config) : result unit OpenEditorError * world :=
  open_in_editor run w (editor_cmd config) (project_path res).

(** [create_and_optionally_open]: the [if let ... && open_in_editor] chain
    calls [maybe_open_in_editor] before it looks at the flag. *)
Definition create_and_optionally_open (run : runner) (w : world) (config : Config)
  (ps : CreateProjectParams) (open_flag : bool)
  : option (result CreateProjectResult CreateAndOpenError) * world :=
  match create_project run w config ps with
  | (None, w1) => (None, w1)
  | (Some (Err e), w1) => (Some (Err (CreateFailed e)), w1)
  | (Some (Ok res), w1) =>
      let (r, w2) := maybe_open_in_editor run w1 res config in
      match r with
      | Err e =>
          if open_flag then (Some (Err (OpenAfterCreate res e)), w2)
          else (Some (Ok res), w2)
      | Ok _ => (Some (Ok res), w2)
      end
  end.

End Create.

(** What [run_cargo_new] makes of the outcome of [cmd.output()]. *)
Definition cargo_outcome (r : result proc_output io_error)
  : result unit Create.CreateProjectError :=
  match r with
  | Err NotFound => Err Create.CargoNotFound
  | Err e => Err (Create.Io e)
  | Ok out =>
      if success (status out) then Ok tt
      else Err (Create.CargoFailed
                  (match code (status out) with Some c => c | None => (-1)%Z end)
                  (stderr out))
  end.

(* ------------------------------------------------------------------ *)
(** ** The TUI handlers of src/src/main.rs that feed [create_project] *)

Module MainTui.
Import Create.

(** The values of the "Project type" and "Rust edition" menus. *)
Definition type_menu_values : list string := ["bin"; "lib"].
Definition edition_menu_values : list string := ["2015"; "2018"; "2021"; "2024"].

(** The matches of the Create button on the selected values. *)
Definition project_type_of_selection (s : string) : ProjectType :=
  if String.eqb s "lib" then Library else Binary.

Definition edition_of_selection (s : string) : ProjectEdition :=
  if String.eqb s "2015" then E2015
  else if String.eqb s "2018" then E2018
  else if String.eqb s "2021" then E2021
  else E2024.

(** The parameters the Create button builds: [CreateProjectParams::new]
    with the type and edition overridden; no selection means ["bin"] and
    ["2024"] ([unwrap_or]). *)
Definition params_of_selection (nm : string) (ty ed : option string)
  : CreateProjectParams :=
  let p := CreateProjectParams_new nm in
  {| name := name p;
     project_type := project_type_of_selection (default "bin" ty);
     edition := edition_of_selection (default "2024" ed) |}.

(** What the "Open" button of the "Project Created" dialog shows. *)
Inductive OpenDialog :=
| EditorNotSet
| EditorLaunched
| LaunchFailed (e : io_error)
| InvalidEditorCommand.

(** The "Open" button: [Command::spawn] does not wait, only a failure to
    start the editor is observed. *)
Definition open_button (run : runner) (w : world) (ecmd : string) (pp : path)
  : OpenDialog * world :=
  if is_blank ecmd then (EditorNotSet, w) else
  match split_whitespace ecmd with
  | [] => (InvalidEditorCommand, w)
  | prog :: rest =>
      let '(r, w') :=
        run_cmd run w {| program := prog; args := (rest ++ [pp])%list;
                         current_dir := None |} in
      match r with
      | Ok _ => (EditorLaunched, w')
      | Err e => (LaunchFailed e, w')
      end
  end.

End MainTui.

(* ------------------------------------------------------------------ *)
(** ** Project listing (src/src/project/list.rs) *)

Module ProjectList.

Record ProjectInfo := {
  name : string;
  path : string;
  has_uncommitted_changes : bool
}.

Inductive ListProjectsError :=
| ProjectsDirInvalid (msg : string)
| Io (e : io_error).

(** A name [read_dir] can report: non-empty, no separator, not [.] or [..]. *)
Definition valid_component (l : list ascii) : bool :=
  match l with
  | [] => false
  | _ =>
      negb (existsb (Ascii.eqb "/"%char) l) &&
      negb (String.eqb (string_of_list_ascii l) ".") &&
      negb (String.eqb (string_of_list_ascii l) "..")
  end.

(** The text [path_join root] puts before the joined name. *)
Definition dir_prefix (root : string) : string :=
  if ends_with_sep root then root else root +:+ "/".

(** The name of [k] inside [root], when [k] is an entry directly inside it. *)
Definition child_name (root k : string) : option string :=
  match strip_prefix (list_ascii_of_string (dir_prefix root)) (list_ascii_of_string k) with
  | Some rest => if valid_component rest then Some (string_of_list_ascii rest) else None
  | None => None
  end.

(** [fs::read_dir(root)]: the entries directly inside [root], with their
    names, in the order of the map (the model has no per-entry errors). *)
Definition dir_entries (st : fs) (root : string) : list (string * node) :=
  omap (fun kn : string * node =>
          match child_name root kn.1 with
          | Some nm => Some (nm, kn.2)
          | None => None
          end) (map_to_list st).

(** [Path::is_file] *)
Definition path_is_file (st : fs) (p : string) : bool :=
  match st !! p with Some (File _ _ _) => true | _ => false end.

(** [scan_git_status]: [git] stands for opening the repository with git2 and
    looking for a dirty status entry. *)
Definition scan_git_status (git : string -> result bool string) (st : fs)
  (dir : string) : result bool string :=
  if negb (path_exists st (path_join dir ".git")) then Ok false else git dir.

(** [file_name().and_then(|s| s.to_str()).unwrap_or_default()]: the entry
    name when its bytes are valid UTF-8, the empty string otherwise. *)
Definition name_of_entry (nm : string) : string :=
  if utf8_valid (list_ascii_of_string nm) then nm else "".

(** The body of the loop of [list_projects] for one entry. *)
Definition project_of (git : string -> result bool string) (st : fs)
  (root : string) (e : string * node) : option ProjectInfo :=
  let '(nm, n) := e in
  let p := path_join root nm in
  match n with
  | Dir _ _ =>
      if path_is_file st (path_join p "Cargo.toml") then
        Some {| name := name_of_entry nm; path := p;
                has_uncommitted_changes :=
                  match scan_git_status git st p with Ok b => b | Err _ => false end |}
      else None
  | File _ _ _ => None
  end.

(** The comparison of [sort_by]: [lower] stands for Rust's Unicode
    [str::to_lowercase] on the UTF-8 bytes of a name, and [String.compare]
    is the byte-wise lexicographic order of [Ord for String]. *)
Definition cmp_lower (lower : string -> string) (a b : ProjectInfo) : comparison :=
  String.compare (lower (name a)) (lower (name b)).

(** [sort_by] is a stable sort: insertion sort, an element going before the
    first later element it does not exceed. *)
Fixpoint insert_sorted (lower : string -> string) (x : ProjectInfo)
  (l : list ProjectInfo) : list ProjectInfo :=
  match l with
  | [] => [x]
  | y :: l' =>
      match cmp_lower lower x y with
      | Gt => y :: insert_sorted lower x l'
      | _ => x :: l
      end
  end.

Fixpoint sort_by_lower (lower : string -> string) (l : list ProjectInfo)
  : list ProjectInfo :=
  match l with
  | [] => []
  | x :: l' => insert_sorted lower x (sort_by_lower lower l')
  end.

(** [list_projects] *)
Definition list_projects (lower : string -> string)
  (git : string -> result bool string) (st : fs)
  (config : Config) : result (list ProjectInfo) ListProjectsError * fs :=
  let root := projects_directory config in
  let (vr, st1) := validate_projects_directory st root in
  match vr with
  | Err e => (Err (ProjectsDirInvalid (display_validation e)), st1)
  | Ok _ =>
      match read_dir st1 root with
      | Err e => (Err (Io e), st1)
      | Ok _ =>
          (Ok (sort_by_lower lower (omap (project_of git st1 root) (dir_entries st1 root))), st1)
      end
  end.

End ProjectList.

(* ------------------------------------------------------------------ *)
(** ** The "List projects" screen (main.rs, [show_list_projects]) *)

Module ListView.
Import ProjectList.

(** [impl Display for ListProjectsError]; [show_io] is the [Display] of
    [std::io::Error]. *)
Definition display_list_error (show_io : io_error -> string)
  (e : ListProjectsError) : string :=
  match e with
  | ProjectsDirInvalid msg => "Projects directory invalid: " +:+ msg
  | Io e => "I/O error listing projects: " +:+ show_io e
  end.

(** The layer [show_list_projects] adds. *)
Inductive ListScreen :=
| InfoDialog (msg : string)
| ProjectsDialog (text : string).

(** The line written for one project ([writeln!] ends it with a newline). *)
Definition project_line (p : ProjectInfo) : string :=
  name p +:+ (if has_uncommitted_changes p then " *" else "") +:+
  "  " +:+ path p +:+ nl.

(** [show_list_projects] *)
Definition show_list_projects (lower : string -> string)
  (show_io : io_error -> string)
  (git : string -> result bool string) (st : fs) (config : Config)
  : ListScreen * fs :=
  let (r, st1) := list_projects lower git st config in
  match r with
  | Ok [] => (InfoDialog "No Rust projects found.", st1)
  | Ok ps => (ProjectsDialog (fold_left (fun text p => text +:+ project_line p) ps ""), st1)
  | Err e => (InfoDialog ("Failed to list projects:" +:+ nl +:+ display_list_error show_io e), st1)
  end.

End ListView.

(* ------------------------------------------------------------------ *)
(** ** Sample states *)

Definition no_faults : faults := fun _ => false.

Definition home_cfg : path := "/home/u/.config".

Definition st_base : fs :=
  <["/home/u/.config" := Dir true true]>
  (<["/home/u" := Dir true true]> (<["/home" := Dir true true]>
  (<["/p" := Dir true true]> ∅))).

(** The entry an I/O action may change. *)
Definition touches (q : path) (a : io_action) : Prop :=
  match a with
  | CreateDirAll d => In q (ancestors d)
  | CreateFile _ f => q = f
  | WriteAll f _ => q = f
  | SyncAll _ => False
  | Rename _ src dst => q = src \/ q = dst
  end.

(** The oracle [flt] with every [sync_all] call failing in addition. *)
Definition fail_sync (flt : faults) : faults :=
  fun op => match op with OpSync _ => true | _ => flt op end.

Definition rename_fails : faults :=
  fun op => match op with OpRename _ _ => true | _ => false end.

Definition st_old_config : fs :=
  <["/home/u/.config/rustm/config.yaml" := File "old" true true]>
  (<["/home/u/.config/rustm" := Dir true true]> st_base).

Definition sample_cfg_path : path := "/home/u/.config/rustm/config.yaml".

Definition with_config (raw : string) : fs :=
  <[sample_cfg_path := File raw true true]>
  (<["/home/u/.config/rustm" := Dir true true]> st_base).


(** The directory facts the validator establishes when it succeeds: a
    non-empty path naming a listable directory in which the writability
    probe can be created. *)
Definition dir_usable (st : fs) (p : path) : Prop :=
  p <> "" /\ (exists w, st !! p = Some (Dir true w)) /\
  is_err (file_create st p (write_probe p)) = false.

Definition padded_cmd_file : string :=
  "projects_directory: '/p'" +:+ nl +:+ "editor_cmd: '  code  '" +:+ nl.

Definition cfg_p_code : Config := {| projects_directory := "/p"; editor_cmd := "code" |}.

(** A working directory holding a listable, writable directory whose name
    is three spaces. *)
Definition st_blank_dir : fs := <["   " := Dir true true]> st_base.

Definition blank_dir_file : string :=
  "projects_directory: '   '" +:+ nl +:+ "editor_cmd: code" +:+ nl.

Definition always_ok_runner : runner :=
  fun _ st => (Ok {| status := {| code := Some 0%Z |}; stderr := "" |}, st).

Definition failing_editor_runner : runner :=
  fun c st =>
    if String.eqb (program c) "code"
    then (Ok {| status := {| code := Some 1%Z |}; stderr := "" |}, st)
    else (Ok {| status := {| code := Some 0%Z |}; stderr := "" |}, st).

(** The order [sort_by] establishes: [a] may come before [b]. *)
Definition not_after (lower : string -> string) (a b : ProjectList.ProjectInfo) : Prop :=
  ProjectList.cmp_lower lower a b <> Gt.

(** A lowercasing that agrees with [str::to_lowercase] on ASCII text. *)
Definition ascii_lower (c : ascii) : ascii :=
  let n := nat_of_ascii c in
  if Nat.leb 65 n && Nat.leb n 90 then ascii_of_nat (n + 32) else c.

Definition ascii_lowercase (s : string) : string :=
  string_of_list_ascii (List.map ascii_lower (list_ascii_of_string s)).

(** A projects directory with two projects, [b] a dirty git repository,
    a directory without [Cargo.toml], and a plain file. *)
Definition git_sample (d : string) : result bool string :=
  if String.eqb d "/p/b" then Ok true else Err "not a repository".

Definition st_list : fs :=
  <["/p/b" := Dir true true]> (<["/p/b/Cargo.toml" := File "" true true]>
  (<["/p/b/.git" := Dir true true]>
  (<["/p/A" := Dir true true]> (<["/p/A/Cargo.toml" := File "" true true]>
  (<["/p/c" := Dir true true]> (<["/p/notes.txt" := File "" true true]> st_base)))))).

Definition projA : ProjectList.ProjectInfo :=
  {| ProjectList.name := "A"; ProjectList.path := "/p/A";
     ProjectList.has_uncommitted_changes := false |}.
Definition projb : ProjectList.ProjectInfo :=
  {| ProjectList.name := "b"; ProjectList.path := "/p/b";
     ProjectList.has_uncommitted_changes := true |}.

Example trim_ex : trim "  a b  " = "a b".
Proof. reflexivity. Qed.

Example parse_ex :
  from_str ("projects_directory: '/p'" +:+ nl +:+ "editor_cmd: code")
  = Ok {| projects_directory := "/p"; editor_cmd := "code" |}.
Proof. vm_compute. reflexivity. Qed.

Example missing_ex :
  from_str "editor_command: code" = Err "missing field `projects_directory`".
Proof. vm_compute. reflexivity. Qed.

Example corrupt_ex :
  fst (load home_cfg (<["/home/u/.config/rustm/config.yaml" :=
        File "editor_command code" true true]> st_base))
  = Err (Corrupt (invalid_type_msg ("string " +:+ dq +:+ "editor_command code" +:+ dq)
                   "struct ConfigInner")).
Proof. vm_compute. reflexivity. Qed.

Example roundtrip_ex :
  let '(r, st1) := create_and_persist home_cfg no_faults st_base "/p" " code " in
  r = Ok {| projects_directory := "/p"; editor_cmd := "code" |} /\
  fst (load home_cfg st1) = Ok (Ready {| projects_directory := "/p"; editor_cmd := "code" |}).
Proof. vm_compute. split; reflexivity. Qed.

(* ------------------------------------------------------------------ *)
(** ** Path lemmas *)

Lemma length_append_str (s1 s2 : string) :
  String.length (s1 +:+ s2) = String.length s1 + String.length s2.
Proof. induction s1 as [|c s1 IH]; simpl; auto. Qed.

Lemma append_assoc_str (s1 s2 s3 : string) :
  s1 +:+ s2 +:+ s3 = (s1 +:+ s2) +:+ s3.
Proof.
  induction s1 as [|c s1 IH]; [reflexivity|].
  change (String c (s1 +:+ s2 +:+ s3) = String c ((s1 +:+ s2) +:+ s3)).
  rewrite IH. reflexivity.
Qed.

Lemma path_join_length (b n : path) :
  b <> "" -> String.length b + String.length n <= String.length (path_join b n).
Proof.
  intros Hb. unfold path_join. destruct b as [|c b']; [congruence|].
  destruct (ends_with_sep _); rewrite ?length_append_str; simpl; lia.
Qed.

Lemma write_probe_neq (p : path) : write_probe p <> p.
Proof.
  unfold write_probe. destruct (decide (p = "")) as [->|Hp].
  - discriminate.
  - intros Heq. pose proof (path_join_length p probe_name Hp) as Hl.
    rewrite Heq in Hl. simpl in Hl. lia.
Qed.

(** Unfolding of the validator once its path is known to be non-empty. *)
Lemma validate_nonempty (st : fs) (p : path) :
  p <> "" ->
  validate_projects_directory st p =
    match st !! p with
    | None => (Err (ProjectsDirDoesNotExist p), st)
    | Some (File _ _ _) => (Err (ProjectsDirNotDirectory p), st)
    | Some (Dir false _) => (Err (ProjectsDirNotReadable p), st)
    | Some (Dir true _) =>
        match file_create st p (write_probe p) with
        | Ok st1 =>
            (Ok tt, match remove_file st1 p (write_probe p) with
                    | Ok st2 => st2
                    | Err _ => st1
                    end)
        | Err _ => (Err (ProjectsDirNotWritable p), st)
        end
    end.
Proof.
  intros Hp. unfold validate_projects_directory, path_exists, path_is_dir, read_dir.
  destruct (String.eqb_spec p "") as [|_]; [congruence|].
  destruct (st !! p) as [[d r w|[] w]|]; reflexivity.
Qed.

Ltac solve_iffs :=
  repeat split; intros;
  repeat match goal with
         | H : _ /\ _ |- _ => destruct H
         end;
  try congruence; try discriminate; try tauto.

(** ** C4: the five checks of the validator, in order, first failure wins *)

(** Claim C4: [validate_projects_directory] reports [EmptyField] exactly when
    the path is empty, [ProjectsDirDoesNotExist] exactly when it is non-empty
    and missing, [ProjectsDirNotDirectory] exactly when the earlier checks pass
    and it is not a directory, [ProjectsDirNotReadable] exactly when the
    earlier checks pass and listing fails, [ProjectsDirNotWritable] exactly
    when the earlier checks pass and the probe cannot be created, and success
    exactly when all five pass; in particular a path with no entry yields
    [ProjectsDirDoesNotExist] (or [EmptyField] for the empty path) and never
    [ProjectsDirNotReadable] or [ProjectsDirNotWritable]. *)
Theorem validate_projects_directory_check_order (st : fs) (p : path) :
  let r := fst (validate_projects_directory st p) in
  (r = Err (EmptyField "projects_directory") <-> p = "") /\
  (r = Err (ProjectsDirDoesNotExist p) <->
     p <> "" /\ path_exists st p = false) /\
  (r = Err (ProjectsDirNotDirectory p) <->
     p <> "" /\ path_exists st p = true /\ path_is_dir st p = false) /\
  (r = Err (ProjectsDirNotReadable p) <->
     p <> "" /\ path_exists st p = true /\ path_is_dir st p = true /\
     is_err (read_dir st p) = true) /\
  (r = Err (ProjectsDirNotWritable p) <->
     p <> "" /\ path_exists st p = true /\ path_is_dir st p = true /\
     is_err (read_dir st p) = false /\
     is_err (file_create st p (write_probe p)) = true) /\
  (r = Ok tt <->
     p <> "" /\ path_exists st p = true /\ path_is_dir st p = true /\
     is_err (read_dir st p) = false /\
     is_err (file_create st p (write_probe p)) = false) /\
  (st !! p = None ->
     r = Err (if String.eqb p "" then EmptyField "projects_directory"
              else ProjectsDirDoesNotExist p)).
Proof.
  simpl. destruct (decide (p = "")) as [->|Hp].
  - simpl. solve_iffs.
  - rewrite (validate_nonempty st p Hp).
    assert (Hb : String.eqb p "" = false) by (apply String.eqb_neq; exact Hp).
    rewrite Hb.
    unfold path_exists, path_is_dir, read_dir.
    destruct (st !! p) as [[d r w|[] w]|]; simpl;
      try destruct (file_create st p (write_probe p)); simpl; solve_iffs.
Qed.

(* ------------------------------------------------------------------ *)
(** ** C9: the validator's outcome is a function of the inspected entries *)

Lemma file_create_agree (st1 st2 : fs) (d f : path) :
  st1 !! d = st2 !! d -> st1 !! f = st2 !! f ->
  is_err (file_create st1 d f) = is_err (file_create st2 d f).
Proof.
  intros Hd Hf. unfold file_create. rewrite Hf, Hd.
  destruct (st2 !! f) as [[]|]; [destruct writable; reflexivity|reflexivity|].
  destruct (st2 !! d) as [[|r []]|]; reflexivity.
Qed.

Lemma validate_result_agree (st1 st2 : fs) (p : path) :
  st1 !! p = st2 !! p -> st1 !! write_probe p = st2 !! write_probe p ->
  fst (validate_projects_directory st1 p) = fst (validate_projects_directory st2 p).
Proof.
  intros Hp Hprobe. destruct (decide (p = "")) as [->|Hne]; [reflexivity|].
  rewrite !(validate_nonempty _ p Hne), Hp.
  pose proof (file_create_agree st1 st2 p (write_probe p) Hp Hprobe) as Hc.
  destruct (st2 !! p) as [[|[] w]|]; try reflexivity.
  destruct (file_create st1 p (write_probe p)), (file_create st2 p (write_probe p));
    simpl in Hc |- *; congruence.
Qed.

(** After a successful validation, the directory entry is unchanged and the
    probe can again be created. *)
Lemma validate_ok_state (st : fs) (p : path) :
  fst (validate_projects_directory st p) = Ok tt ->
  p <> "" /\
  snd (validate_projects_directory st p) !! p = st !! p /\
  is_err (file_create (snd (validate_projects_directory st p)) p (write_probe p)) = false.
Proof.
  intros Hok. destruct (decide (p = "")) as [->|Hne]; [discriminate|].
  split; [exact Hne|].
  pose proof (write_probe_neq p) as Hpr.
  rewrite (validate_nonempty st p Hne) in *.
  destruct (st !! p) as [[|[] w]|] eqn:Hp; try discriminate.
  unfold file_create in *.
  destruct (st !! write_probe p) as [[d r w'|]|] eqn:Hq; try discriminate.
  - destruct w'; try discriminate. simpl.
    unfold remove_file. rewrite lookup_insert_eq, lookup_insert_ne by congruence.
    rewrite Hp. destruct w; simpl.
    + rewrite lookup_delete_eq, lookup_delete_ne, lookup_insert_ne by congruence.
      rewrite Hp. auto.
    + rewrite lookup_insert_eq, lookup_insert_ne by congruence. auto.
  - rewrite Hp in Hok |- *. destruct w; try discriminate. simpl.
    unfold remove_file. rewrite lookup_insert_eq, lookup_insert_ne by congruence.
    rewrite Hp. simpl.
    rewrite lookup_delete_eq, !lookup_delete_ne, !lookup_insert_ne by congruence.
    rewrite Hp. auto.
Qed.

(** Claim C9: the validator is deterministic in the filesystem state: two
    calls on states that agree on the candidate path and on its probe path
    return the same fault or success, and calling it again on the state it
    leaves behind returns the same outcome as the first call. *)
Theorem validate_projects_directory_deterministic (st1 st2 : fs) (p : path)
  (Hp : st1 !! p = st2 !! p)
  (Hprobe : st1 !! write_probe p = st2 !! write_probe p) :
  fst (validate_projects_directory st1 p) = fst (validate_projects_directory st2 p) /\
  fst (validate_projects_directory (snd (validate_projects_directory st1 p)) p)
  = fst (validate_projects_directory st1 p).
Proof.
  split; [apply validate_result_agree; assumption|].
  destruct (fst (validate_projects_directory st1 p)) as [[]|e] eqn:Hr.
  - destruct (validate_ok_state st1 p Hr) as (Hne & Hlk & Hc).
    rewrite (validate_nonempty _ p Hne), Hlk.
    rewrite (validate_nonempty _ p Hne) in Hr.
    destruct (st1 !! p) as [[|[] w]|]; try discriminate.
    destruct (file_create (snd _) p (write_probe p)); [reflexivity|discriminate].
  - assert (Hs : snd (validate_projects_directory st1 p) = st1).
    { unfold validate_projects_directory in *.
      destruct (String.eqb p ""); [reflexivity|].
      destruct (negb (path_exists st1 p)); [reflexivity|].
      destruct (negb (path_is_dir st1 p)); [reflexivity|].
      destruct (read_dir st1 p); [|reflexivity].
      destruct (file_create st1 p (write_probe p)); [discriminate|reflexivity]. }
    rewrite Hs. exact Hr.
Qed.

Lemma validate_projects_directory_deterministic_witness :
  let st1 := <["/p/.rustm_write_probe" := File "x" true true]> st_base in
  let st2 := <["/q" := Dir false false]> st1 in
  st1 !! "/p" = st2 !! "/p" /\
  st1 !! (write_probe "/p") = st2 !! (write_probe "/p") /\
  fst (validate_projects_directory st1 "/p") = fst (validate_projects_directory st2 "/p") /\
  fst (validate_projects_directory (snd (validate_projects_directory st1 "/p")) "/p")
  = fst (validate_projects_directory st1 "/p").
Proof.
  cbv zeta. split; [reflexivity|]. split; [reflexivity|].
  apply validate_projects_directory_deterministic; reflexivity.
Defined.

(* ------------------------------------------------------------------ *)
(** ** C10: the fixed-name writability probe *)

Lemma write_probe_name (p : path) :
  p <> "" -> exists pre, write_probe p = pre +:+ ".rustm_write_probe".
Proof.
  intros Hp. unfold write_probe, path_join, probe_name.
  destruct p as [|c p']; [congruence|].
  destruct (ends_with_sep _).
  - eexists; reflexivity.
  - exists (String c p' +:+ "/"). apply append_assoc_str.
Qed.

(** Claim C10 (counterexample): in a listable directory that is not itself
    writable but holds a writable file [.rustm_write_probe], validation
    succeeds, truncates that file and leaves it in place: it is not
    deleted. *)
Lemma validate_probe_not_deleted_counterexample :
  let st := <["/ro/.rustm_write_probe" := File "notes" true true]>
            (<["/ro" := Dir true false]> (∅ : fs)) in
  fst (validate_projects_directory st "/ro") = Ok tt /\
  snd (validate_projects_directory st "/ro") !! (write_probe "/ro")
  = Some (File "" true true).
Proof. vm_compute. split; reflexivity. Qed.

(** Claim C10 (amended): the probe is the fixed file [.rustm_write_probe]
    inside the candidate directory; when a file of that name already exists
    and validation succeeds, that file is truncated and its removal is
    attempted: afterwards it is gone exactly when the directory itself is
    listable and writable, and otherwise it is still there but empty (same
    permissions); so any previous content is lost and validation is not
    frame-preserving on the directory's contents. *)
Theorem validate_probe_clobbers_existing (st : fs) (p : path)
  (data : string) (r w : bool)
  (Hprobe : st !! write_probe p = Some (File data r w))
  (Hok : fst (validate_projects_directory st p) = Ok tt) :
  let st' := snd (validate_projects_directory st p) in
  (exists pre, write_probe p = pre +:+ ".rustm_write_probe") /\
  (st' !! write_probe p = None <-> st !! p = Some (Dir true true)) /\
  (st' !! write_probe p <> None -> st' !! write_probe p = Some (File "" r w)) /\
  (data <> "" -> st' !! write_probe p <> st !! write_probe p).
Proof.
  destruct (decide (p = "")) as [->|Hne]; [discriminate|].
  pose proof (write_probe_neq p) as Hpr.
  cbv zeta. rewrite (validate_nonempty st p Hne) in *.
  split; [apply write_probe_name; exact Hne|].
  unfold file_create in *. rewrite Hprobe in *.
  destruct (st !! p) as [[|[] w']|] eqn:Hp; try discriminate.
  destruct w; try discriminate. simpl.
  unfold remove_file. rewrite lookup_insert_eq, lookup_insert_ne by congruence.
  rewrite Hp. destruct w'; simpl.
  - rewrite lookup_delete_eq. repeat split; try congruence.
  - rewrite lookup_insert_eq. repeat split; try congruence.
Qed.

Lemma validate_probe_clobbers_existing_witness :
  let st := <["/p/.rustm_write_probe" := File "notes" true true]> st_base in
  st !! (write_probe "/p") = Some (File "notes" true true) /\
  fst (validate_projects_directory st "/p") = Ok tt /\
  snd (validate_projects_directory st "/p") !! (write_probe "/p") = None.
Proof.
  cbv zeta.
  assert (H1 : (<["/p/.rustm_write_probe" := File "notes" true true]> st_base : fs)
                 !! (write_probe "/p") = Some (File "notes" true true))
    by reflexivity.
  assert (H2 : fst (validate_projects_directory
                 (<["/p/.rustm_write_probe" := File "notes" true true]> st_base) "/p")
               = Ok tt) by reflexivity.
  split; [exact H1|]. split; [exact H2|].
  apply (validate_probe_clobbers_existing _ "/p" "notes" true true H1 H2).
  reflexivity.
Defined.

(* ------------------------------------------------------------------ *)
(** ** Distinctness of the paths the save touches *)

Lemma list_ascii_of_string_append (s1 s2 : string) :
  list_ascii_of_string (s1 +:+ s2) = (list_ascii_of_string s1 ++ list_ascii_of_string s2)%list.
Proof.
  induction s1 as [|c s1 IH]; [reflexivity|].
  change (c :: list_ascii_of_string (s1 +:+ s2)
          = c :: (list_ascii_of_string s1 ++ list_ascii_of_string s2)%list).
  rewrite IH. reflexivity.
Qed.

Lemma length_list_ascii_of_string (s : string) :
  length (list_ascii_of_string s) = String.length s.
Proof. induction s as [|c s IH]; simpl; auto. Qed.

Lemma length_string_of_list_ascii (l : list ascii) :
  String.length (string_of_list_ascii l) = length l.
Proof. induction l as [|c l IH]; simpl; auto. Qed.

Lemma path_join_suffix (b n : path) : exists pre, path_join b n = pre +:+ n.
Proof.
  unfold path_join. destruct b as [|c b'].
  - exists "". reflexivity.
  - destruct (ends_with_sep _).
    + eexists; reflexivity.
    + exists (String c b' +:+ "/"). apply append_assoc_str.
Qed.

Lemma path_join_length_exact (b n : path) :
  b <> "" ->
  String.length (path_join b n)
  = String.length b + String.length n + (if ends_with_sep b then 0 else 1).
Proof.
  intros Hb. unfold path_join. destruct b as [|c b']; [congruence|].
  destruct (ends_with_sep _); rewrite ?length_append_str; simpl; lia.
Qed.

Lemma path_join_length_ge (b n : path) :
  String.length n <= String.length (path_join b n).
Proof.
  destruct (decide (b = "")) as [->|Hb]; [simpl; lia|].
  pose proof (path_join_length b n Hb). lia.
Qed.

Lemma ancestors_aux_length (l acc : list ascii) (a : path) :
  In a (ancestors_aux acc l) -> String.length a <= length acc + length l.
Proof.
  revert acc. induction l as [|c r IH]; intros acc Hin; simpl in Hin.
  - destruct Hin as [<-|[]]. rewrite length_string_of_list_ascii, length_rev. lia.
  - destruct (Ascii.eqb c "/"%char && negb (Nat.eqb (length acc) 0)).
    + destruct Hin as [<-|Hin].
      * rewrite length_string_of_list_ascii, length_rev. simpl. lia.
      * specialize (IH (c :: acc) Hin). simpl in *. lia.
    + specialize (IH (c :: acc) Hin). simpl in *. lia.
Qed.

Lemma ancestors_length (d a : path) :
  In a (ancestors d) -> String.length a <= String.length d.
Proof.
  intros Hin. apply ancestors_aux_length in Hin.
  rewrite length_list_ascii_of_string in Hin. simpl in Hin. lia.
Qed.

Section Paths.
Variable cfg : path.

Lemma app_config_dir_length : 5 <= String.length (app_config_dir cfg).
Proof. apply (path_join_length_ge cfg "rustm"). Qed.

Lemma app_config_dir_nonempty : app_config_dir cfg <> "".
Proof. pose proof app_config_dir_length as H. intros Heq. rewrite Heq in H. simpl in H. lia. Qed.

Lemma config_not_ancestor (a : path) :
  In a (ancestors (app_config_dir cfg)) -> a <> config_file_path cfg.
Proof.
  intros Hin Heq. apply ancestors_length in Hin. rewrite Heq in Hin.
  unfold config_file_path in Hin.
  pose proof (path_join_length _ "config.yaml" app_config_dir_nonempty).
  simpl in *. lia.
Qed.

Lemma config_neq_tmp : tmp_file_path cfg <> config_file_path cfg.
Proof.
  unfold tmp_file_path, config_file_path. intros Heq.
  pose proof (path_join_length_exact _ "config.yaml" app_config_dir_nonempty) as H1.
  pose proof (path_join_length_exact _ "config.yaml.tmp" app_config_dir_nonempty) as H2.
  rewrite Heq in H2. simpl in *. lia.
Qed.

Lemma config_neq_probe (p : path) : write_probe p <> config_file_path cfg.
Proof.
  unfold write_probe, config_file_path.
  destruct (path_join_suffix p probe_name) as [pre1 ->].
  destruct (path_join_suffix (app_config_dir cfg) "config.yaml") as [pre2 ->].
  intros Heq. apply (f_equal list_ascii_of_string) in Heq.
  rewrite !list_ascii_of_string_append in Heq.
  change (list_ascii_of_string probe_name)
    with (list_ascii_of_string ".rustm_write_prob" ++ ["e"%char])%list in Heq.
  change (list_ascii_of_string "config.yaml")
    with (list_ascii_of_string "config.yam" ++ ["l"%char])%list in Heq.
  rewrite !app_assoc in Heq. apply app_inj_tail in Heq as [_ Hc]. discriminate.
Qed.

End Paths.

(* ------------------------------------------------------------------ *)
(** ** Frame lemmas for the validator and the save protocol *)

Lemma file_create_frame (st st' : fs) (d f q : path) :
  file_create st d f = Ok st' -> q <> f -> st' !! q = st !! q.
Proof.
  intros H Hq. unfold file_create in H.
  destruct (st !! f) as [[? ? []|]|]; try discriminate;
    [|destruct (st !! d) as [[|? []]|]; try discriminate];
    injection H as <-; apply lookup_insert_ne; congruence.
Qed.

Lemma remove_file_frame (st st' : fs) (d f q : path) :
  remove_file st d f = Ok st' -> q <> f -> st' !! q = st !! q.
Proof.
  intros H Hq. unfold remove_file in H.
  destruct (st !! f) as [[]|]; try discriminate.
  destruct (st !! d) as [[|? []]|]; try discriminate.
  injection H as <-. apply lookup_delete_ne. congruence.
Qed.

Lemma validate_frame (st : fs) (p q : path) :
  q <> write_probe p ->
  snd (validate_projects_directory st p) !! q = st !! q.
Proof.
  intros Hq. unfold validate_projects_directory.
  destruct (String.eqb p ""); [reflexivity|].
  destruct (negb (path_exists st p)); [reflexivity|].
  destruct (negb (path_is_dir st p)); [reflexivity|].
  destruct (read_dir st p); [|reflexivity].
  destruct (file_create st p (write_probe p)) as [st1|] eqn:Hc; [|reflexivity].
  simpl. destruct (remove_file st1 p (write_probe p)) as [st2|] eqn:Hr.
  - rewrite (remove_file_frame _ _ _ _ _ Hr Hq).
    exact (file_create_frame _ _ _ _ _ Hc Hq).
  - exact (file_create_frame _ _ _ _ _ Hc Hq).
Qed.

Lemma create_dirs_frame (flt : faults) (q : path) (ds : list path) (st st' : fs) :
  create_dirs flt st ds = Ok st' -> ~ In q ds -> st' !! q = st !! q.
Proof.
  revert st. induction ds as [|d ds IH]; intros st H Hq; simpl in H.
  - congruence.
  - assert (Hd : q <> d) by (intros ->; apply Hq; left; reflexivity).
    assert (Hq' : ~ In q ds) by (intros Hin; apply Hq; right; exact Hin).
    destruct (st !! d) as [[]|]; try discriminate.
    + apply IH; assumption.
    + destruct (flt (OpMkdir d)); [discriminate|].
      rewrite (IH _ H Hq'). apply lookup_insert_ne. congruence.
Qed.

Lemma exec_action_frame (flt : faults) (q : path) (a : io_action) (st st' : fs) :
  exec_action flt st a = Ok st' -> ~ touches q a -> st' !! q = st !! q.
Proof.
  intros H Hq. destruct a as [d|dir f|f bytes|f|dir src dst]; simpl in H, Hq.
  - eapply create_dirs_frame; eassumption.
  - destruct (flt (OpCreate f)); [discriminate|].
    eapply file_create_frame; [exact H|congruence].
  - destruct (flt (OpWrite f)); [discriminate|].
    destruct (st !! f) as [[]|]; try discriminate.
    injection H as <-. apply lookup_insert_ne. congruence.
  - destruct (flt (OpSync f)); [discriminate|]. congruence.
  - destruct (flt (OpRename src dst)); [discriminate|].
    destruct (st !! src), (st !! dst) as [[]|], (st !! dir) as [[|? []]|];
      try discriminate; injection H as <-;
      rewrite lookup_insert_ne, lookup_delete_ne; intuition congruence.
Qed.

Lemma run_protocol_frame (flt : faults) (q : path)
  (acts : list (io_action * on_error)) (st : fs) :
  Forall (fun ap => ~ touches q (fst ap)) acts ->
  snd (run_protocol flt st acts) !! q = st !! q.
Proof.
  revert st. induction acts as [|[a pol] rest IH]; intros st Hall; [reflexivity|].
  inversion Hall as [|? ? Ha Hrest]; subst. simpl.
  destruct (exec_action flt st a) as [st1|e] eqn:Hx.
  - rewrite IH by exact Hrest. eapply exec_action_frame; eassumption.
  - destruct pol; [reflexivity|]. apply IH; exact Hrest.
Qed.

(** A failed run stops in the state reached by the run without its last
    step. *)
Lemma run_protocol_err_removelast (flt : faults)
  (acts : list (io_action * on_error)) (st st' : fs) (e : io_error) :
  run_protocol flt st acts = (Err e, st') ->
  st' = snd (run_protocol flt st (removelast acts)).
Proof.
  revert st. induction acts as [|[a pol] rest IH]; intros st H; [discriminate|].
  simpl in H.
  destruct rest as [|ap rest'].
  - simpl in H |- *. destruct (exec_action flt st a); [discriminate|].
    destruct pol; [congruence|discriminate].
  - change (removelast ((a, pol) :: ap :: rest'))
      with ((a, pol) :: removelast (ap :: rest')).
    simpl. destruct (exec_action flt st a) as [st1|e'] eqn:Hx.
    + apply IH. exact H.
    + destruct pol; [simpl; congruence|]. apply IH. exact H.
Qed.

Lemma protocol_prefix_untouched (cfg yaml : string) (k : nat) :
  k <= 4 ->
  Forall (fun ap => ~ touches (config_file_path cfg) (fst ap))
         (firstn k (persist_protocol cfg yaml)).
Proof.
  intros Hk.
  assert (H0 : ~ In (config_file_path cfg) (ancestors (app_config_dir cfg)))
    by (intros Hin; exact (config_not_ancestor cfg _ Hin eq_refl)).
  assert (H1 : config_file_path cfg <> tmp_file_path cfg)
    by (intros Heq; exact (config_neq_tmp cfg (eq_sym Heq))).
  destruct k as [|[|[|[|[|k]]]]]; try lia; simpl;
    repeat constructor; simpl; auto.
Qed.

(** ** C1: a failed or interrupted save leaves the configuration file as it was *)

(** Claim C1: when [create_and_persist] returns an error, the entry at the
    canonical configuration path (a file with its content, or nothing) is
    exactly what it was before the call; and when the process stops after
    any number of the I/O steps that precede the rename (the rename is the
    fifth step), the entry is also unchanged. *)
Theorem create_and_persist_failure_keeps_config
  (cfg : path) (flt : faults) (st : fs) (pd cmd : string) :
  (forall e, fst (create_and_persist cfg flt st pd cmd) = Err e ->
     snd (create_and_persist cfg flt st pd cmd) !! config_file_path cfg
     = st !! config_file_path cfg) /\
  (forall k, k <= 4 ->
     create_and_persist_interrupted cfg flt st pd cmd k !! config_file_path cfg
     = st !! config_file_path cfg).
Proof.
  pose proof (validate_frame st pd (config_file_path cfg)
                (fun H => config_neq_probe cfg pd (eq_sym H))) as Hfr.
  unfold create_and_persist, create_and_persist_interrupted.
  destruct (is_blank cmd); [split; intros; reflexivity|].
  destruct (validate_projects_directory st pd) as [vr st1] eqn:Hv.
  simpl in Hfr. destruct vr as [u|ve]; [|split; intros; exact Hfr].
  cbn [to_string].
  split.
  - intros e.
    destruct (run_protocol flt st1 _) as [r st2] eqn:Hr.
    destruct r as [u'|e']; [discriminate|]. intros _. simpl.
    apply run_protocol_err_removelast in Hr. rewrite Hr, <- Hfr.
    apply run_protocol_frame, (protocol_prefix_untouched cfg _ 4). lia.
  - intros k Hk. rewrite <- Hfr.
    apply run_protocol_frame, protocol_prefix_untouched. exact Hk.
Qed.

(* ------------------------------------------------------------------ *)
(** ** C6: how the save reports the errors of its I/O steps *)

Lemma create_dirs_fail_sync (flt : faults) (ds : list path) (st : fs) :
  create_dirs (fail_sync flt) st ds = create_dirs flt st ds.
Proof.
  revert st. induction ds as [|d ds IH]; intros st; simpl; [reflexivity|].
  destruct (st !! d) as [[]|]; auto. simpl. destruct (flt (OpMkdir d)); auto.
Qed.

Local Ltac finish_sync :=
  match goal with
  | IH : forall st, _ -> run_protocol _ st ?rest = _, Hs' : _ |- _ =>
      first [ reflexivity
            | apply IH; exact Hs'
            | match goal with
              | |- context [match ?pol with Propagate => _ | Discard => _ end] =>
                  destruct pol; [reflexivity | apply IH; exact Hs']
              end ]
  end.

Lemma run_protocol_fail_sync (flt : faults) (acts : list (io_action * on_error)) (st : fs) :
  (forall f pol, In (SyncAll f, pol) acts -> pol = Discard) ->
  run_protocol (fail_sync flt) st acts = run_protocol flt st acts.
Proof.
  revert st. induction acts as [|[a pol] rest IH]; intros st Hs; [reflexivity|].
  assert (Hs' : forall f pol', In (SyncAll f, pol') rest -> pol' = Discard)
    by (intros f pol' Hin; apply (Hs f); right; exact Hin).
  simpl. destruct a as [d|dir f|f bytes|f|dir src dst]; simpl.
  - unfold create_dir_all. rewrite create_dirs_fail_sync.
    destruct (create_dirs flt st _); finish_sync.
  - destruct (flt (OpCreate f)); [finish_sync|].
    destruct (file_create st dir f); finish_sync.
  - destruct (flt (OpWrite f)); [finish_sync|].
    destruct (st !! f) as [[]|]; finish_sync.
  - rewrite (Hs f pol (or_introl eq_refl)).
    destruct (flt (OpSync f)); apply IH; exact Hs'.
  - destruct (flt (OpRename src dst)); [finish_sync|].
    destruct (st !! src), (st !! dst) as [[]|], (st !! dir) as [[|? []]|];
      finish_sync.
Qed.

Lemma run_protocol_prefix_fail (flt : faults) (k : nat)
  (acts : list (io_action * on_error)) (st stk : fs) (a : io_action) (e : io_error) :
  run_protocol flt st (firstn k acts) = (Ok tt, stk) ->
  nth_error acts k = Some (a, Propagate) ->
  exec_action flt stk a = Err e ->
  run_protocol flt st acts = (Err e, stk).
Proof.
  revert acts st. induction k as [|k IH]; intros acts st Hpre Hnth Hx.
  - destruct acts as [|ap rest]; [discriminate|].
    simpl in Hpre, Hnth. injection Hpre as <-. injection Hnth as ->.
    simpl. rewrite Hx. reflexivity.
  - destruct acts as [|[a0 pol0] rest]; [discriminate|].
    simpl in Hpre, Hnth |- *.
    destruct (exec_action flt st a0) as [st1|e0].
    + exact (IH rest st1 Hpre Hnth Hx).
    + destruct pol0; [discriminate|]. exact (IH rest st Hpre Hnth Hx).
Qed.

(** Claim C6 (counterexample): when only the [sync_all] call fails, the save
    still succeeds; the failing I/O step is not reported. *)
Lemma create_and_persist_sync_failure_counterexample :
  fail_sync no_faults (OpSync (tmp_file_path home_cfg)) = true /\
  fst (create_and_persist home_cfg (fail_sync no_faults) st_base "/p" "code")
  = Ok {| projects_directory := "/p"; editor_cmd := "code" |}.
Proof. split; vm_compute; reflexivity. Qed.

(** Claim C6 (amended): in [create_and_persist], once the editor command is
    non-blank and the directory validates, a failure of creating the parent
    directory, creating the temporary file, writing the bytes or renaming
    over the target (steps 0, 1, 2 and 4 of the protocol), reached after the
    earlier steps succeeded, makes the call return that error as [Io];
    a failure of the sync step (step 3) is discarded: making every sync
    fail changes neither the result nor the final filesystem.  The steps
    other than the rename never change the entry at the canonical path,
    and a successful rename puts the temporary file's entry there. *)
Theorem create_and_persist_io_errors
  (cfg : path) (flt : faults) (st : fs) (pd cmd : string) :
  (forall (yaml : string) (k : nat) (stk : fs) (a : io_action) (pol : on_error)
          (e : io_error),
     is_blank cmd = false ->
     fst (validate_projects_directory st pd) = Ok tt ->
     to_string {| projects_directory := pd; editor_cmd := trim cmd |} = Ok yaml ->
     run_protocol flt (snd (validate_projects_directory st pd))
       (firstn k (persist_protocol cfg yaml)) = (Ok tt, stk) ->
     nth_error (persist_protocol cfg yaml) k = Some (a, pol) ->
     k <> 3 ->
     exec_action flt stk a = Err e ->
     fst (create_and_persist cfg flt st pd cmd) = Err (SaveIo e)) /\
  create_and_persist cfg (fail_sync flt) st pd cmd
  = create_and_persist cfg flt st pd cmd /\
  (forall (yaml : string) (k : nat) (a : io_action) (pol : on_error) (s s' : fs),
     nth_error (persist_protocol cfg yaml) k = Some (a, pol) ->
     k <> 4 ->
     exec_action flt s a = Ok s' ->
     s' !! config_file_path cfg = s !! config_file_path cfg) /\
  (forall (s s' : fs),
     exec_action flt s (Rename (app_config_dir cfg) (tmp_file_path cfg)
                          (config_file_path cfg)) = Ok s' ->
     s' !! config_file_path cfg = s !! tmp_file_path cfg).
Proof.
  split; [|split; [|split]].
  - intros yaml k stk a pol e Hb Hv Hy Hpre Hnth Hk Hx.
    assert (Hpol : pol = Propagate).
    { destruct k as [|[|[|[|[|k]]]]]; simpl in Hnth; try congruence.
      destruct k; discriminate. }
    subst pol.
    unfold create_and_persist. rewrite Hb.
    destruct (validate_projects_directory st pd) as [vr st1] eqn:Hval.
    simpl in Hv, Hpre. subst vr. rewrite Hy.
    rewrite (run_protocol_prefix_fail flt k _ st1 stk a e Hpre Hnth Hx).
    reflexivity.
  - unfold create_and_persist.
    destruct (is_blank cmd); [reflexivity|].
    destruct (validate_projects_directory st pd) as [[u|ve] st1]; [|reflexivity].
    cbn [to_string].
    rewrite run_protocol_fail_sync; [reflexivity|].
    intros f pol Hin. simpl in Hin.
    repeat destruct Hin as [Hin|Hin]; try discriminate; try contradiction.
    congruence.
  - intros yaml k a pol s s' Hnth Hk Hx.
    apply (exec_action_frame flt _ a s s' Hx).
    destruct k as [|[|[|[|[|k]]]]]; simpl in Hnth; try congruence;
      [..|destruct k; discriminate];
      injection Hnth as <- _; simpl.
    + intros Hin. exact (config_not_ancestor cfg _ Hin eq_refl).
    + intros Heq. exact (config_neq_tmp cfg (eq_sym Heq)).
    + intros Heq. exact (config_neq_tmp cfg (eq_sym Heq)).
    + auto.
  - intros s s' Hx. simpl in Hx.
    destruct (flt _); [discriminate|].
    destruct (s !! tmp_file_path cfg) as [n|] eqn:Ht; [|discriminate].
    destruct (s !! config_file_path cfg) as [[]|], (s !! app_config_dir cfg) as [[|? []]|];
      try discriminate; injection Hx as <-; apply lookup_insert_eq.
Qed.

Lemma create_and_persist_io_errors_witness :
  let flt : faults := fun op => match op with OpRename _ _ => true | _ => false end in
  fst (create_and_persist home_cfg flt st_base "/p" "code") = Err (SaveIo StorageFailure).
Proof.
  cbv zeta.
  pose (y := match to_string {| projects_directory := "/p"; editor_cmd := trim "code" |}
             with Ok y => y | Err _ => "" end).
  pose (flt := fun op => match op with OpRename _ _ => true | _ => false end).
  pose (s4 := snd (run_protocol flt (snd (validate_projects_directory st_base "/p"))
                     (firstn 4 (persist_protocol home_cfg y)))).
  apply (proj1 (create_and_persist_io_errors home_cfg flt st_base "/p" "code")
           y 4 s4 (Rename (app_config_dir home_cfg) (tmp_file_path home_cfg)
                    (config_file_path home_cfg)) Propagate StorageFailure);
    try (vm_compute; reflexivity); try discriminate.
Defined.

Lemma create_and_persist_failure_keeps_config_witness :
  fst (create_and_persist home_cfg rename_fails st_old_config "/p" "code")
  = Err (SaveIo StorageFailure) /\
  snd (create_and_persist home_cfg rename_fails st_old_config "/p" "code")
    !! config_file_path home_cfg = Some (File "old" true true) /\
  create_and_persist_interrupted home_cfg rename_fails st_old_config "/p" "code" 4
    !! config_file_path home_cfg = Some (File "old" true true).
Proof.
  split; [reflexivity|]. split.
  - rewrite (proj1 (create_and_persist_failure_keeps_config home_cfg rename_fails
                      st_old_config "/p" "code") (SaveIo StorageFailure) eq_refl).
    reflexivity.
  - rewrite (proj2 (create_and_persist_failure_keeps_config home_cfg rename_fails
                      st_old_config "/p" "code") 4 (le_n 4)).
    reflexivity.
Defined.

(* ------------------------------------------------------------------ *)
(** ** C3: classification of parse failures by [load] *)

Lemma load_existing_file (cfg : path) (st : fs) (raw : string) (w : bool) :
  st !! config_file_path cfg = Some (File raw true w) ->
  utf8_valid (list_ascii_of_string raw) = true ->
  load cfg st =
    match from_str raw with
    | Ok inner =>
        if is_blank (projects_directory inner)
        then (Ok (NeedsInitialSetup IncompleteData), st) else
        if is_blank (editor_cmd inner)
        then (Ok (NeedsInitialSetup IncompleteData), st) else
        let (vr, st1) := validate_projects_directory st (projects_directory inner) in
        match vr with
        | Err _ => (Ok (NeedsInitialSetup IncompleteData), st1)
        | Ok _ => (Ok (Ready inner), st1)
        end
    | Err msg =>
        if looks_like_missing_field msg
        then (Ok (NeedsInitialSetup IncompleteData), st)
        else (Err (Corrupt msg), st)
    end.
Proof.
  intros Hf Hu. unfold load, path_exists, read_to_string. rewrite Hf.
  cbv beta iota. rewrite Hu. reflexivity.
Qed.

(** Claim C3 (counterexample): a configuration file holding the single
    scalar [missing field] fails to parse with a wrong-type error (a scalar
    where a mapping is expected), yet [load] classifies it as an incomplete
    configuration, not as [Corrupt]. *)
Lemma load_wrong_type_classified_incomplete_counterexample :
  from_str "missing field"
  = Err (invalid_type_msg ("string " +:+ dq +:+ "missing field" +:+ dq)
                          "struct ConfigInner") /\
  fst (load home_cfg (with_config "missing field"))
  = Ok (NeedsInitialSetup IncompleteData).
Proof. split; vm_compute; reflexivity. Qed.

(** Claim C3 (amended): for an existing, readable configuration file whose
    bytes are UTF-8 and whose parse fails with message [msg], [load] returns
    [Ok (NeedsInitialSetup IncompleteData)] when [msg] contains the text
    [missing field] and [Err (Corrupt msg)] otherwise (one of the two, never
    both), without changing the filesystem; every missing-field report of the
    parser contains that text, so a missing required field is always
    classified as incomplete. *)
Theorem load_parse_failure_classification (cfg : path) (st : fs)
  (raw msg : string) (w : bool)
  (Hf : st !! config_file_path cfg = Some (File raw true w))
  (Hu : utf8_valid (list_ascii_of_string raw) = true)
  (Hp : from_str raw = Err msg) :
  load cfg st =
    (if contains "missing field" msg
     then Ok (NeedsInitialSetup IncompleteData)
     else Err (Corrupt msg), st) /\
  (forall field : string,
     looks_like_missing_field ("missing field `" +:+ field +:+ "`") = true).
Proof.
  split.
  - rewrite (load_existing_file cfg st raw w Hf Hu), Hp.
    unfold looks_like_missing_field. destruct (contains _ _); reflexivity.
  - intros field. reflexivity.
Qed.

Lemma load_parse_failure_classification_witness :
  load home_cfg (with_config "editor_cmd: code")
  = (Ok (NeedsInitialSetup IncompleteData), with_config "editor_cmd: code").
Proof.
  pose proof (load_parse_failure_classification home_cfg
                (with_config "editor_cmd: code") "editor_cmd: code"
                "missing field `projects_directory`" true eq_refl eq_refl eq_refl) as [H _].
  rewrite H. reflexivity.
Defined.

(* ------------------------------------------------------------------ *)
(** ** C7: validation faults after a clean parse downgrade to setup *)



(* ------------------------------------------------------------------ *)
(** ** Trimming is idempotent *)

Lemma drop_ws_split (l : list ascii) :
  exists pre, l = (pre ++ drop_ws l)%list /\ Forall (fun c => is_whitespace c = true) pre.
Proof.
  induction l as [|c r IH]; simpl.
  - exists []. auto.
  - destruct (is_whitespace c) eqn:Hc.
    + destruct IH as [pre [Heq Hall]]. exists (c :: pre). simpl. rewrite <- Heq. auto.
    + exists []. auto.
Qed.

Lemma drop_ws_head (l : list ascii) :
  match drop_ws l with [] => True | c :: _ => is_whitespace c = false end.
Proof.
  induction l as [|c r IH]; simpl; auto.
  destruct (is_whitespace c) eqn:Hc; auto.
Qed.

Lemma drop_ws_fixed (l : list ascii) :
  match l with [] => True | c :: _ => is_whitespace c = false end -> drop_ws l = l.
Proof. destruct l as [|c r]; simpl; [auto|]. intros ->. reflexivity. Qed.

Lemma trim_idempotent (s : string) : trim (trim s) = trim s.
Proof.
  unfold trim. rewrite list_ascii_of_string_of_list_ascii.
  set (l1 := drop_ws (list_ascii_of_string s)).
  set (l2 := drop_ws (rev l1)).
  assert (H2 : drop_ws l2 = l2) by (apply drop_ws_fixed, drop_ws_head).
  assert (Hr : drop_ws (rev l2) = rev l2).
  { apply drop_ws_fixed.
    destruct (drop_ws_split (rev l1)) as [pre [Heq _]]. fold l2 in Heq.
    destruct (rev l2) as [|c r] eqn:Hrl2; [exact I|].
    pose proof (drop_ws_head (list_ascii_of_string s)) as Hh. fold l1 in Hh.
    assert (Hl1 : l1 = (rev l2 ++ rev pre)%list).
    { rewrite <- rev_app_distr, <- Heq, rev_involutive. reflexivity. }
    rewrite Hrl2 in Hl1. rewrite Hl1 in Hh. exact Hh. }
  rewrite Hr, rev_involutive, H2. reflexivity.
Qed.

Lemma is_blank_trim (s : string) : is_blank (trim s) = is_blank s.
Proof. unfold is_blank. rewrite trim_idempotent. reflexivity. Qed.

(* ------------------------------------------------------------------ *)
(** ** C8: the records constructed by [load] and [create_and_persist] *)

Lemma validate_ok_usable (st : fs) (p : path) :
  fst (validate_projects_directory st p) = Ok tt -> dir_usable st p.
Proof.
  intros Hok. destruct (decide (p = "")) as [->|Hne]; [discriminate|].
  rewrite (validate_nonempty st p Hne) in Hok.
  split; [exact Hne|].
  destruct (st !! p) as [[|[] w]|]; try discriminate.
  split; [exists w; reflexivity|].
  destruct (file_create st p (write_probe p)); [reflexivity|discriminate].
Qed.

(** Claim C8 (failing input): in a working directory holding a listable,
    writable directory named by three spaces, [create_and_persist] with
    that directory and the command [code] constructs a record whose
    projects directory is blank; and a configuration file whose editor
    command is the quoted ['  code  '] loads as a [Ready] record whose
    editor command is not its own trimmed form. *)
Lemma constructed_records_blank_dir_untrimmed_cmd :
  fst (create_and_persist home_cfg no_faults st_blank_dir "   " "code")
  = Ok {| projects_directory := "   "; editor_cmd := "code" |} /\
  is_blank "   " = true /\
  fst (load home_cfg (with_config padded_cmd_file))
  = Ok (Ready {| projects_directory := "/p"; editor_cmd := "  code  " |}) /\
  trim "  code  " <> "  code  ".
Proof.
  split; [|split; [|split]]; vm_compute; try reflexivity. discriminate.
Qed.

(* ------------------------------------------------------------------ *)
(** ** C2 and C5: a whitespace-only projects directory *)

(** Claim C2 (failing input): the directory named by three spaces passes the
    validator and [create_and_persist "   " "code"] succeeds, but the
    following [load] finds the stored directory blank and asks for setup
    again instead of returning [Ready]. *)
Lemma roundtrip_fails_for_blank_directory :
  fst (validate_projects_directory st_blank_dir "   ") = Ok tt /\
  is_blank "code" = false /\
  fst (create_and_persist home_cfg no_faults st_blank_dir "   " "code")
  = Ok {| projects_directory := "   "; editor_cmd := "code" |} /\
  fst (load home_cfg (snd (create_and_persist home_cfg no_faults st_blank_dir "   " "code")))
  = Ok (NeedsInitialSetup IncompleteData).
Proof. vm_compute. repeat split; reflexivity. Qed.

(** Claim C5 (failing input): for the whitespace-only directory string
    ["   "] the load path treats the field as blank, while
    [create_and_persist] (through [validate_projects_directory]) reports a
    missing directory instead of [EmptyField]. *)
Lemma blank_directory_reported_missing :
  is_blank "   " = true /\
  fst (load home_cfg (with_config blank_dir_file))
  = Ok (NeedsInitialSetup IncompleteData) /\
  fst (validate_projects_directory st_base "   ")
  = Err (ProjectsDirDoesNotExist "   ") /\
  fst (create_and_persist home_cfg no_faults st_base "   " "code")
  = Err (Validation (ProjectsDirDoesNotExist "   ")).
Proof. vm_compute. repeat split; reflexivity. Qed.

(* ------------------------------------------------------------------ *)
(** ** Blankness and whitespace splitting *)

Lemma list_ascii_of_string_inj (s1 s2 : string) :
  list_ascii_of_string s1 = list_ascii_of_string s2 -> s1 = s2.
Proof.
  intros H. rewrite <- (string_of_list_ascii_of_string s1),
    <- (string_of_list_ascii_of_string s2), H. reflexivity.
Qed.

Lemma drop_ws_nil (l : list ascii) :
  drop_ws l = [] <-> forallb is_whitespace l = true.
Proof.
  induction l as [|c r IH]; simpl; [tauto|].
  destruct (is_whitespace c); simpl; [exact IH|split; discriminate].
Qed.

Lemma forallb_drop_ws (l : list ascii) :
  forallb is_whitespace (drop_ws l) = true -> drop_ws l = [].
Proof.
  pose proof (drop_ws_head l) as Hh.
  destruct (drop_ws l) as [|c r]; [auto|]. simpl. rewrite Hh. discriminate.
Qed.

Lemma forallb_rev_eq {A} (f : A -> bool) (l : list A) :
  forallb f (rev l) = forallb f l.
Proof.
  induction l as [|x l IH]; simpl; [reflexivity|].
  rewrite forallb_app, IH. simpl. rewrite andb_true_r, andb_comm. reflexivity.
Qed.

Lemma is_blank_forallb (s : string) :
  is_blank s = forallb is_whitespace (list_ascii_of_string s).
Proof.
  unfold is_blank, trim.
  set (l := list_ascii_of_string s).
  destruct (forallb is_whitespace l) eqn:Hl.
  - apply drop_ws_nil in Hl. rewrite Hl. reflexivity.
  - destruct (rev (drop_ws (rev (drop_ws l)))) as [|c r] eqn:Hr; [|reflexivity].
    exfalso. apply (f_equal (@rev ascii)) in Hr. rewrite rev_involutive in Hr.
    apply drop_ws_nil in Hr. rewrite forallb_rev_eq in Hr.
    apply forallb_drop_ws, drop_ws_nil in Hr. congruence.
Qed.


Lemma split_ws_nonempty (l cur : list ascii) :
  (cur <> [] \/ forallb is_whitespace l = false) -> split_ws cur l <> [].
Proof.
  revert cur. induction l as [|c r IH]; intros cur H; simpl.
  - destruct cur; [destruct H as [H|H]; [congruence|discriminate]|discriminate].
  - destruct (is_whitespace c) eqn:Hc.
    + destruct cur as [|d cur'].
      * apply IH. destruct H as [H|H]; [congruence|simpl in H; rewrite Hc in H; right; exact H].
      * discriminate.
    + apply IH. left. discriminate.
Qed.

(** A non-blank string splits into at least one token. *)
Lemma split_whitespace_nonblank (s : string) :
  is_blank s = false -> exists prog rest, split_whitespace s = prog :: rest.
Proof.
  intros Hb. rewrite is_blank_forallb in Hb.
  unfold split_whitespace.
  destruct (split_ws [] (list_ascii_of_string s)) as [|t ts] eqn:Hs.
  - exfalso. apply (split_ws_nonempty (list_ascii_of_string s) []); [right; exact Hb|exact Hs].
  - eauto.
Qed.

(* ------------------------------------------------------------------ *)
(** ** Display of validation errors *)

(** The Display texts of two validation errors coincide only when the errors
    are equal: the message names the fault and carries the path (or field)
    unchanged, so the [ProjectsDirInvalid] texts built by [create_project]
    and [list_projects] determine the fault. *)
Theorem display_validation_injective (e1 e2 : ValidationError) :
  display_validation e1 = display_validation e2 -> e1 = e2.
Proof.
  intros H. apply (f_equal list_ascii_of_string) in H.
  destruct e1, e2; simpl in H; rewrite ?list_ascii_of_string_append in H;
    simpl in H; try discriminate;
    repeat match type of H with
           | ?c :: _ = ?c :: _ => apply (f_equal (@tl ascii)) in H; simpl in H
           end;
    first [ apply app_inv_tail in H | idtac ];
    apply list_ascii_of_string_inj in H; subst; reflexivity.
Qed.

Lemma display_validation_injective_witness :
  display_validation (ProjectsDirNotWritable "/p") =
    display_validation (ProjectsDirNotWritable "/p") /\
  ProjectsDirNotWritable "/p" = ProjectsDirNotWritable "/p".
Proof.
  split; [reflexivity|].
  apply display_validation_injective. reflexivity.
Defined.

(* ------------------------------------------------------------------ *)
(** ** Project names *)

Lemma alphabetic_not_ws (c : ascii) :
  Create.is_ascii_alphabetic c = true -> is_whitespace c = false.
Proof.
  unfold Create.is_ascii_alphabetic, is_whitespace.
  destruct (Nat.leb_spec 65 (nat_of_ascii c)), (Nat.leb_spec (nat_of_ascii c) 90),
    (Nat.leb_spec 97 (nat_of_ascii c)), (Nat.leb_spec (nat_of_ascii c) 122),
    (Nat.leb_spec 9 (nat_of_ascii c)), (Nat.leb_spec (nat_of_ascii c) 13),
    (Nat.eqb_spec (nat_of_ascii c) 32); simpl; intros; try discriminate; lia.
Qed.

Lemma name_char_not_ws (c : ascii) :
  Create.name_char_ok c = true -> is_whitespace c = false.
Proof.
  unfold Create.name_char_ok, Create.is_ascii_alphanumeric, Create.is_ascii_alphabetic,
    is_whitespace.
  destruct (Ascii.eqb_spec c "_"%char) as [->|_]; [reflexivity|].
  destruct (Ascii.eqb_spec c "-"%char) as [->|_]; [reflexivity|].
  destruct (Nat.leb_spec 65 (nat_of_ascii c)), (Nat.leb_spec (nat_of_ascii c) 90),
    (Nat.leb_spec 97 (nat_of_ascii c)), (Nat.leb_spec (nat_of_ascii c) 122),
    (Nat.leb_spec 48 (nat_of_ascii c)), (Nat.leb_spec (nat_of_ascii c) 57),
    (Nat.leb_spec 9 (nat_of_ascii c)), (Nat.leb_spec (nat_of_ascii c) 13),
    (Nat.eqb_spec (nat_of_ascii c) 32); simpl; intros; try discriminate; lia.
Qed.

Lemma name_char_not_sep (c : ascii) :
  Create.name_char_ok c = true -> Ascii.eqb "/"%char c = false /\ Ascii.eqb "."%char c = false.
Proof.
  unfold Create.name_char_ok, Create.is_ascii_alphanumeric, Create.is_ascii_alphabetic.
  destruct (Ascii.eqb_spec "/"%char c) as [<-|_];
    [simpl; discriminate|].
  destruct (Ascii.eqb_spec "."%char c) as [<-|_];
    [simpl; discriminate|auto].
Qed.

Lemma validate_name_ok_iff (nm : string) :
  Create.validate_name nm = Some (Ok tt) <->
  exists c rest, list_ascii_of_string nm = c :: rest /\
                 Create.is_ascii_alphabetic c = true /\
                 forallb Create.name_char_ok rest = true.
Proof.
  unfold Create.validate_name. rewrite is_blank_forallb.
  destruct (list_ascii_of_string nm) as [|c rest] eqn:Hl; simpl.
  - split; [discriminate|]. intros (c & rest & H & _). discriminate.
  - split.
    + destruct (is_whitespace c && forallb is_whitespace rest); [discriminate|].
      destruct (is_whitespace c || existsb is_whitespace rest); [discriminate|].
      destruct (Create.is_ascii_alphabetic c) eqn:Ha; [|discriminate]. simpl.
      destruct (Create.name_char_ok c && forallb Create.name_char_ok rest) eqn:Hf;
        [|discriminate].
      intros _. apply andb_true_iff in Hf as [_ Hf]. exists c, rest. auto.
    + intros (c' & rest' & Heq & Ha & Hf). injection Heq as <- <-.
      pose proof (alphabetic_not_ws c Ha) as Hc. rewrite Hc. simpl.
      assert (Hex : existsb is_whitespace rest = false).
      { apply not_true_iff_false. intros Hex.
        apply existsb_exists in Hex as [x [Hx Hw]].
        rewrite forallb_forall in Hf.
        rewrite (name_char_not_ws x (Hf x Hx)) in Hw. discriminate. }
      rewrite Hex, Ha. simpl.
      assert (Hcok : Create.name_char_ok c = true).
      { unfold Create.name_char_ok, Create.is_ascii_alphanumeric.
        rewrite Ha. reflexivity. }
      rewrite Hcok, Hf. reflexivity.
Qed.

Lemma validate_name_total (nm : string) : Create.validate_name nm <> None.
Proof.
  unfold Create.validate_name. rewrite is_blank_forallb.
  destruct (list_ascii_of_string nm) as [|c rest]; simpl; [discriminate|].
  repeat match goal with |- context [if ?b then _ else _] => destruct b end;
    discriminate.
Qed.

Lemma validate_name_ok_chars (nm : string) :
  Create.validate_name nm = Some (Ok tt) ->
  exists c rest, list_ascii_of_string nm = c :: rest /\
    Ascii.eqb "."%char c = false /\
    forallb Create.name_char_ok (c :: rest) = true.
Proof.
  intros Hok. apply validate_name_ok_iff in Hok as (c & rest & Hl & Ha & Hf).
  exists c, rest. split; [exact Hl|].
  assert (Hcok : Create.name_char_ok c = true)
    by (unfold Create.name_char_ok, Create.is_ascii_alphanumeric; rewrite Ha; reflexivity).
  split; [apply name_char_not_sep; exact Hcok|].
  simpl. rewrite Hcok, Hf. reflexivity.
Qed.

Lemma no_sep_of_name_chars (l : list ascii) :
  forallb Create.name_char_ok l = true -> existsb (Ascii.eqb "/"%char) l = false.
Proof.
  intros Hall. apply not_true_iff_false. intros Hex.
  apply existsb_exists in Hex as [x [Hx Hw]].
  rewrite forallb_forall in Hall.
  rewrite (proj1 (name_char_not_sep x (Hall x Hx))) in Hw. discriminate.
Qed.

Lemma validate_name_component (nm : string) :
  Create.validate_name nm = Some (Ok tt) ->
  ProjectList.valid_component (list_ascii_of_string nm) = true.
Proof.
  intros Hok. destruct (validate_name_ok_chars nm Hok) as (c & rest & Hl & Hdot & Hall).
  rewrite Hl. unfold ProjectList.valid_component.
  rewrite (no_sep_of_name_chars _ Hall). simpl.
  rewrite (Ascii.eqb_sym c "."%char), Hdot. reflexivity.
Qed.

(** [validate_name] accepts a name exactly when it starts with an ASCII
    letter and consists only of ASCII letters, digits, [_] and [-]; it never
    panics (the [unwrap] of the first character is reached only for a
    non-blank name).  An accepted name has no separator and is neither [.]
    nor [..], so joined to a directory it names an entry directly inside. *)
Theorem validate_name_accepts (nm : string) :
  (Create.validate_name nm = Some (Ok tt) <->
   exists c rest, list_ascii_of_string nm = c :: rest /\
                  Create.is_ascii_alphabetic c = true /\
                  forallb Create.name_char_ok rest = true) /\
  Create.validate_name nm <> None /\
  (Create.validate_name nm = Some (Ok tt) ->
   ProjectList.valid_component (list_ascii_of_string nm) = true).
Proof.
  split; [apply validate_name_ok_iff|].
  split; [apply validate_name_total|apply validate_name_component].
Qed.

Lemma validate_name_accepts_witness :
  list_ascii_of_string "my-crate" = "m"%char :: list_ascii_of_string "y-crate" /\
  Create.validate_name "my-crate" = Some (Ok tt) /\
  ProjectList.valid_component (list_ascii_of_string "my-crate") = true.
Proof.
  split; [reflexivity|].
  pose proof (validate_name_accepts "my-crate") as [H [_ H3]].
  assert (Hok : Create.validate_name "my-crate" = Some (Ok tt))
    by (apply H; exists "m"%char, (list_ascii_of_string "y-crate"); repeat split).
  split; [exact Hok|]. exact (H3 Hok).
Defined.

(* ------------------------------------------------------------------ *)
(** ** What the TUI menus pass to [cargo new] *)

(** Every value of the "Rust edition" menu reaches [cargo new] as the
    [--edition] argument unchanged and every value of the "Project type"
    menu as the flag [--bin] or [--lib]; [as_str] and the menu mapping are
    inverse; with nothing selected the Create button builds exactly
    [CreateProjectParams::new] (binary, 2024). *)
Theorem menu_selection_reaches_cargo (nm : string) (dir : path) :
  (forall t v, In t MainTui.type_menu_values -> In v MainTui.edition_menu_values ->
     args (Create.cargo_new_cmd (MainTui.params_of_selection nm (Some t) (Some v)) dir)
     = ["new"; "--" +:+ t; "--edition"; v; nm]) /\
  (forall e, MainTui.edition_of_selection (Create.as_str e) = e) /\
  MainTui.params_of_selection nm None None = Create.CreateProjectParams_new nm /\
  args (Create.cargo_new_cmd (Create.CreateProjectParams_new nm) dir)
  = ["new"; "--bin"; "--edition"; "2024"; nm].
Proof.
  split; [|split; [|split]].
  - intros t v Ht Hv.
    simpl in Ht, Hv.
    repeat destruct Ht as [<-|Ht]; try contradiction;
      repeat destruct Hv as [<-|Hv]; try contradiction; reflexivity.
  - intros []; reflexivity.
  - reflexivity.
  - reflexivity.
Qed.

(* ------------------------------------------------------------------ *)
(** ** Launching the editor *)



(** The "Open" button of main.rs starts the same process as
    [open_in_editor] (same program, arguments and resulting world), shows
    "Editor command not set." exactly when the command is blank, and never
    shows "Invalid editor command.". *)
Theorem open_button_matches_open_in_editor (run : runner) (w : world) (ecmd : string)
  (pp : path) :
  snd (MainTui.open_button run w ecmd pp) = snd (Create.open_in_editor run w ecmd pp) /\
  (fst (MainTui.open_button run w ecmd pp) = MainTui.EditorNotSet <-> is_blank ecmd = true) /\
  fst (MainTui.open_button run w ecmd pp) <> MainTui.InvalidEditorCommand.
Proof.
  unfold MainTui.open_button, Create.open_in_editor.
  destruct (is_blank ecmd) eqn:Hb.
  - simpl. split; [reflexivity|]. split; [tauto|discriminate].
  - destruct (split_whitespace_nonblank ecmd Hb) as (prog & rest & ->).
    unfold run_cmd. destruct (run _ (fst w)) as [[out|e] st'];
      [destruct (success (status out))|]; simpl;
      (split; [reflexivity|split; [split; discriminate|discriminate]]).
Qed.

(* ------------------------------------------------------------------ *)
(** ** Creating then opening *)

(** [create_and_optionally_open] runs the editor after every successful
    creation, whatever its flag: the flag only decides whether a failure to
    open is reported.  With the flag off the created project is returned
    even when the editor could not be started or failed; the world is the
    one left by [open_in_editor] in both cases. *)
Theorem create_and_optionally_open_always_opens (run : runner) (w w1 : world)
  (config : Config) (ps : Create.CreateProjectParams) (res : Create.CreateProjectResult)
  (Hc : Create.create_project run w config ps = (Some (Ok res), w1)) :
  (forall flag,
     snd (Create.create_and_optionally_open run w config ps flag)
     = snd (Create.open_in_editor run w1 (editor_cmd config) (Create.project_path res))) /\
  fst (Create.create_and_optionally_open run w config ps false) = Some (Ok res) /\
  fst (Create.create_and_optionally_open run w config ps true)
  = match fst (Create.open_in_editor run w1 (editor_cmd config) (Create.project_path res)) with
    | Ok _ => Some (Ok res)
    | Err e => Some (Err (Create.OpenAfterCreate res e))
    end.
Proof.
  unfold Create.create_and_optionally_open, Create.maybe_open_in_editor. rewrite Hc.
  destruct (Create.open_in_editor run w1 (editor_cmd config) (Create.project_path res))
    as [[u|e] w2].
  - split; [intros []; reflexivity|]. split; reflexivity.
  - split; [intros []; reflexivity|]. split; reflexivity.
Qed.

Lemma create_and_optionally_open_always_opens_witness :
  fst (Create.create_and_optionally_open failing_editor_runner (st_base, []) cfg_p_code
         (Create.CreateProjectParams_new "demo") false)
  = Some (Ok {| Create.project_path := "/p/demo";
                Create.params := Create.CreateProjectParams_new "demo" |}).
Proof.
  exact (proj1 (proj2 (create_and_optionally_open_always_opens failing_editor_runner
           (st_base, []) _ cfg_p_code (Create.CreateProjectParams_new "demo")
           {| Create.project_path := "/p/demo";
              Create.params := Create.CreateProjectParams_new "demo" |} eq_refl))).
Defined.

(* ------------------------------------------------------------------ *)
(** ** Joining a project name to the projects directory *)

Lemma path_join_inj (b n1 n2 : path) : path_join b n1 = path_join b n2 -> n1 = n2.
Proof.
  unfold path_join. destruct b as [|c b']; [auto|].
  intros H. apply (f_equal list_ascii_of_string) in H.
  destruct (ends_with_sep _); rewrite !list_ascii_of_string_append in H;
    repeat apply app_inv_head in H; apply list_ascii_of_string_inj; exact H.
Qed.

Lemma list_path_join (dir nm : path) :
  dir <> "" ->
  list_ascii_of_string (path_join dir nm)
  = (list_ascii_of_string (ProjectList.dir_prefix dir) ++ list_ascii_of_string nm)%list.
Proof.
  intros Hd. unfold path_join, ProjectList.dir_prefix.
  destruct dir as [|c d']; [congruence|].
  destruct (ends_with_sep _); rewrite !list_ascii_of_string_append; [reflexivity|].
  rewrite app_assoc. reflexivity.
Qed.

Lemma last_rev_hd {A} (l : list A) :
  last l = match rev l with [] => None | x :: _ => Some x end.
Proof.
  induction l as [|x l IH]; [reflexivity|].
  destruct l as [|y l']; [reflexivity|].
  change (last (x :: y :: l')) with (last (y :: l')). rewrite IH.
  change (rev (x :: y :: l')) with (rev (y :: l') ++ [x])%list.
  destruct (rev (y :: l')) as [|z r] eqn:Hr; [|reflexivity].
  apply (f_equal (@length A)) in Hr. rewrite length_rev in Hr. discriminate.
Qed.

(** The reversed text of [dir_prefix dir] starts with the separator. *)
Lemma rev_dir_prefix (dir : path) :
  dir <> "" ->
  exists q, rev (list_ascii_of_string (ProjectList.dir_prefix dir)) = "/"%char :: q /\
            (last_plain dir = true -> q = rev (list_ascii_of_string dir)).
Proof.
  intros Hd. unfold ProjectList.dir_prefix, ends_with_sep, last_plain.
  rewrite last_rev_hd.
  destruct (rev (list_ascii_of_string dir)) as [|c r] eqn:Hr.
  - apply (f_equal (@rev ascii)) in Hr. rewrite rev_involutive in Hr.
    destruct dir; [congruence|discriminate].
  - destruct (Ascii.eqb_spec c "/"%char) as [->|Hc].
    + exists r. simpl. split; [exact Hr|discriminate].
    + exists (c :: r). rewrite list_ascii_of_string_append, rev_app_distr, Hr.
      split; reflexivity.
Qed.

Lemma trim_back_plain (c : ascii) (r : list ascii) :
  Ascii.eqb c "/"%char = false -> Ascii.eqb c "."%char = false ->
  trim_back (c :: r) = c :: r.
Proof.
  intros H1 H2. simpl trim_back. revert H1 H2.
  destruct (Ascii.eqb c "/"%char); [discriminate|].
  destruct (Ascii.eqb c "."%char); [discriminate|]. reflexivity.
Qed.

Lemma drop_component_app (l x : list ascii) :
  existsb (Ascii.eqb "/"%char) l = false -> drop_component (l ++ x) = drop_component x.
Proof.
  induction l as [|c l IH]; [reflexivity|].
  change (existsb (Ascii.eqb "/"%char) (c :: l))
    with (Ascii.eqb "/"%char c || existsb (Ascii.eqb "/"%char) l).
  intros H. apply orb_false_iff in H as [Hc Hl].
  rewrite Ascii.eqb_sym in Hc.
  change (drop_component ((c :: l) ++ x)%list)
    with (if Ascii.eqb c "/"%char then (c :: l ++ x)%list else drop_component (l ++ x)).
  rewrite Hc. apply IH, Hl.
Qed.

Lemma existsb_rev {A} (f : A -> bool) (l : list A) : existsb f (rev l) = existsb f l.
Proof.
  induction l as [|x l IH]; simpl; [reflexivity|].
  rewrite existsb_app, IH. simpl. rewrite orb_false_r, orb_comm. reflexivity.
Qed.

(** For a name made of name characters, the joined path has a parent (the
    [expect] of [run_cargo_new] cannot panic), and that parent is the
    directory itself when it does not end in a separator or [.]. *)
Lemma path_parent_join (dir nm : path) :
  list_ascii_of_string nm <> [] ->
  forallb Create.name_char_ok (list_ascii_of_string nm) = true ->
  exists cwd, path_parent (path_join dir nm) = Some cwd /\
              (last_plain dir = true -> cwd = dir).
Proof.
  intros Hne Hall.
  pose proof (no_sep_of_name_chars _ Hall) as Hns.
  assert (Hlast : exists c r, rev (list_ascii_of_string nm) = c :: r /\
                    Ascii.eqb c "/"%char = false /\ Ascii.eqb c "."%char = false).
  { destruct (rev (list_ascii_of_string nm)) as [|c r] eqn:Hr.
    - apply (f_equal (@rev ascii)) in Hr. rewrite rev_involutive in Hr. simpl in Hr. congruence.
    - exists c, r. split; [reflexivity|].
      assert (Hin : In c (list_ascii_of_string nm))
        by (apply in_rev; rewrite Hr; left; reflexivity).
      rewrite forallb_forall in Hall.
      destruct (name_char_not_sep c (Hall c Hin)) as [H1 H2].
      rewrite Ascii.eqb_sym in H1, H2. auto. }
  destruct Hlast as (c & r & Hr & Hc1 & Hc2).
  destruct (decide (dir = "")) as [->|Hd].
  - exists "". split; [|unfold last_plain; simpl; discriminate].
    unfold path_parent. change (path_join "" nm) with nm. rewrite Hr.
    rewrite trim_back_plain by assumption. rewrite Hc1.
    pose proof (drop_component_app (rev (list_ascii_of_string nm)) []
                  ltac:(rewrite existsb_rev; exact Hns)) as Hd0.
    rewrite app_nil_r, Hr in Hd0. rewrite Hd0. reflexivity.
  - destruct (rev_dir_prefix dir Hd) as (q & Hq & Hplain).
    unfold path_parent. rewrite list_path_join by exact Hd.
    rewrite rev_app_distr, Hr, Hq.
    change ((c :: r) ++ "/"%char :: q)%list with (c :: (r ++ "/"%char :: q))%list.
    rewrite trim_back_plain by assumption. rewrite Hc1.
    eexists. split; [reflexivity|].
    intros Hp. specialize (Hplain Hp). subst q.
    change (c :: (r ++ "/"%char :: rev (list_ascii_of_string dir)))%list
      with ((c :: r) ++ "/"%char :: rev (list_ascii_of_string dir))%list.
    rewrite <- Hr, drop_component_app by (rewrite existsb_rev; exact Hns).
    unfold last_plain in Hp. rewrite last_rev_hd in Hp.
    destruct (rev (list_ascii_of_string dir)) as [|d q'] eqn:Hrd; [discriminate|].
    apply andb_true_iff in Hp as [Hp1 Hp2].
    apply negb_true_iff in Hp1, Hp2.
    simpl. rewrite Hp1, Hp2, <- Hrd, rev_involutive, string_of_list_ascii_of_string.
    reflexivity.
Qed.

(* ------------------------------------------------------------------ *)
(** ** Creating a project *)

Lemma name_ok_not_probe (nm : string) :
  Create.validate_name nm = Some (Ok tt) -> nm <> probe_name.
Proof.
  intros Hok ->. destruct (validate_name_ok_chars _ Hok) as (c & rest & Hl & Hdot & _).
  injection Hl as <- _. discriminate.
Qed.

Lemma name_ok_path_not_probe (dir nm : path) :
  Create.validate_name nm = Some (Ok tt) -> path_join dir nm <> write_probe dir.
Proof.
  intros Hok Heq. apply path_join_inj in Heq. exact (name_ok_not_probe nm Hok Heq).
Qed.

Lemma name_ok_parent (dir nm : path) :
  Create.validate_name nm = Some (Ok tt) ->
  exists cwd, path_parent (path_join dir nm) = Some cwd /\
              (last_plain dir = true -> cwd = dir).
Proof.
  intros Hok. destruct (validate_name_ok_chars _ Hok) as (c & rest & Hl & _ & Hall).
  apply path_parent_join; rewrite Hl; [discriminate|exact Hall].
Qed.

Ltac crush_checks :=
  repeat split; intros;
  repeat match goal with
         | H : _ /\ _ |- _ => destruct H
         | H : exists _, _ |- _ => destruct H
         end;
  try discriminate; try congruence;
  try (exfalso; match goal with H : ~ _ |- _ => apply H end; repeat split; congruence);
  try (eexists; split; [reflexivity|congruence]).

(** [create_project] never panics (the [unwrap] in [validate_name] and the
    [expect] on the parent in [run_cargo_new] cannot fail), and its checks
    run in order: [InvalidName] carries [validate_name]'s message,
    [ProjectsDirInvalid] the Display text of the validator's error once the
    name is valid, and [AlreadyExists] the joined path once both pass and
    that path has an entry before the call.  When one of the three checks
    fails no process is started. *)
Theorem create_project_checks (run : runner) (w : world) (config : Config)
  (ps : Create.CreateProjectParams) :
  fst (Create.create_project run w config ps) <> None /\
  (forall m, fst (Create.create_project run w config ps) = Some (Err (Create.InvalidName m))
     <-> Create.validate_name (Create.name ps) = Some (Err m)) /\
  (forall m, fst (Create.create_project run w config ps) = Some (Err (Create.ProjectsDirInvalid m))
     <-> Create.validate_name (Create.name ps) = Some (Ok tt) /\
         exists e, fst (validate_projects_directory (fst w) (projects_directory config)) = Err e /\
                   m = display_validation e) /\
  (forall p, fst (Create.create_project run w config ps) = Some (Err (Create.AlreadyExists p))
     <-> Create.validate_name (Create.name ps) = Some (Ok tt) /\
         fst (validate_projects_directory (fst w) (projects_directory config)) = Ok tt /\
         fst w !! path_join (projects_directory config) (Create.name ps) <> None /\
         p = path_join (projects_directory config) (Create.name ps)) /\
  (~ (Create.validate_name (Create.name ps) = Some (Ok tt) /\
      fst (validate_projects_directory (fst w) (projects_directory config)) = Ok tt /\
      fst w !! path_join (projects_directory config) (Create.name ps) = None) ->
   snd (snd (Create.create_project run w config ps)) = snd w).
Proof.
  unfold Create.create_project.
  set (pd := projects_directory config). set (nm := Create.name ps).
  destruct (Create.validate_name nm) as [[[]|m]|] eqn:Hn;
    [| |exfalso; exact (validate_name_total _ Hn)].
  - pose proof (validate_frame (fst w) pd (path_join pd nm)
                  (name_ok_path_not_probe pd nm Hn)) as Hfr.
    destruct (validate_projects_directory (fst w) pd) as [vr st1] eqn:Hv.
    simpl in Hfr. destruct vr as [[]|e].
    + unfold path_exists. rewrite Hfr.
      destruct (fst w !! path_join pd nm) as [n|] eqn:Hx.
      * simpl. repeat split; intros; try discriminate;
          repeat match goal with H : _ /\ _ |- _ => destruct H end;
          try congruence.
        crush_checks.
      * destruct (name_ok_parent pd nm Hn) as (cwd & Hpp & _).
        unfold Create.run_cargo_new. rewrite Hpp.
        unfold Create.set_global_git_default_branch, run_cmd. simpl.
        destruct (run Create.git_default_branch_cmd st1) as [rg stg].
        simpl. destruct (run (Create.cargo_new_cmd ps cwd) stg) as [[out|[]] st3]; simpl;
          try destruct (success (status out)); simpl;
          crush_checks.
    + simpl. crush_checks.
  - simpl. crush_checks.
Qed.

(** When the name is valid, the directory validates and the project path
    is free, [create_project] starts exactly two processes, [git config
    --global init.defaultBranch main] and then [cargo new], the latter in
    the parent of the project path (the projects directory itself when it
    does not end in a separator or [.]); its result is decided by the cargo
    run alone (the outcome of [git] is ignored), success returning the
    joined path and the parameters. *)
Theorem create_project_runs_cargo (run : runner) (w : world) (config : Config)
  (ps : Create.CreateProjectParams)
  (Hn : Create.validate_name (Create.name ps) = Some (Ok tt))
  (Hd : fst (validate_projects_directory (fst w) (projects_directory config)) = Ok tt)
  (Hx : fst w !! path_join (projects_directory config) (Create.name ps) = None) :
  exists cwd,
    path_parent (path_join (projects_directory config) (Create.name ps)) = Some cwd /\
    (last_plain (projects_directory config) = true -> cwd = projects_directory config) /\
    snd (snd (Create.create_project run w config ps))
    = (snd w ++ [Create.git_default_branch_cmd; Create.cargo_new_cmd ps cwd])%list /\
    fst (Create.create_project run w config ps)
    = Some (match cargo_outcome
                    (fst (run (Create.cargo_new_cmd ps cwd)
                          (snd (run Create.git_default_branch_cmd
                                  (snd (validate_projects_directory (fst w)
                                          (projects_directory config))))))) with
            | Ok _ => Ok {| Create.project_path :=
                              path_join (projects_directory config) (Create.name ps);
                            Create.params := ps |}
            | Err e => Err e
            end).
Proof.
  set (pd := projects_directory config) in *. set (nm := Create.name ps) in *.
  destruct (name_ok_parent pd nm Hn) as (cwd & Hpp & Hcwd).
  exists cwd. split; [exact Hpp|]. split; [exact Hcwd|].
  pose proof (validate_frame (fst w) pd (path_join pd nm)
                (name_ok_path_not_probe pd nm Hn)) as Hfr.
  unfold Create.create_project. fold nm pd. rewrite Hn.
  destruct (validate_projects_directory (fst w) pd) as [vr st1] eqn:Hv.
  simpl in Hd, Hfr |- *. subst vr.
  unfold path_exists. rewrite Hfr, Hx.
  unfold Create.run_cargo_new. rewrite Hpp.
  unfold Create.set_global_git_default_branch, run_cmd. simpl.
  destruct (run Create.git_default_branch_cmd st1) as [rg stg]. simpl.
  destruct (run (Create.cargo_new_cmd ps cwd) stg) as [[out|[]] st3]; simpl;
    try destruct (success (status out)); simpl;
    (split; [rewrite <- app_assoc; reflexivity|reflexivity]).
Qed.

Lemma create_project_runs_cargo_witness :
  Create.validate_name "demo" = Some (Ok tt) /\
  fst (validate_projects_directory st_base "/p") = Ok tt /\
  st_base !! "/p/demo" = None /\
  snd (snd (Create.create_project always_ok_runner (st_base, []) cfg_p_code
              (Create.CreateProjectParams_new "demo")))
  = [Create.git_default_branch_cmd;
     Create.cargo_new_cmd (Create.CreateProjectParams_new "demo") "/p"].
Proof.
  assert (Hn : Create.validate_name "demo" = Some (Ok tt)) by reflexivity.
  assert (Hd : fst (validate_projects_directory st_base "/p") = Ok tt) by (vm_compute; reflexivity).
  assert (Hx : st_base !! "/p/demo" = None) by (vm_compute; reflexivity).
  split; [exact Hn|]. split; [exact Hd|]. split; [exact Hx|].
  destruct (create_project_runs_cargo always_ok_runner (st_base, []) cfg_p_code
              (Create.CreateProjectParams_new "demo") Hn Hd Hx) as (cwd & _ & Hc & Hw & _).
  rewrite Hw. rewrite (Hc eq_refl). reflexivity.
Defined.

(* ------------------------------------------------------------------ *)
(** ** The YAML text written by the save, and reading it back *)

(** The emitter and the parser on values of printable ASCII: such a value
    is written plain or single-quoted, and read back as it was. *)

Section YamlRoundTrip.

Local Open Scope list_scope.
Local Abbreviation chars_of := (map (fun c : ascii => [c])).

Lemma ascii_forall (P : ascii -> bool) :
  forallb (fun n => P (ascii_of_nat n)) (seq 0 256) = true -> forall c, P c = true.
Proof.
  intros H c. rewrite <- (ascii_nat_embedding c).
  rewrite forallb_forall in H. apply H, in_seq.
  pose proof (nat_ascii_bounded c). lia.
Qed.

Ltac ascii_fact c :=
  let Hc := fresh "Hc" in let H := fresh "H" in
  intros Hc;
  match goal with |- ?lhs = ?rhs =>
    let P := eval pattern c in (implb (in_range 32 126 c) (Bool.eqb lhs rhs)) in
    match P with ?F c =>
      pose proof (ascii_forall F ltac:(vm_compute; reflexivity) c) as H end end;
  cbv beta in H; rewrite Hc in H; apply Bool.eqb_prop in H; exact H.

Lemma pc_break c : in_range 32 126 c = true -> is_break [c] = false.
Proof. ascii_fact c. Qed.
Lemma pc_space c : in_range 32 126 c = true -> is_space [c] = Ascii.eqb c " "%char.
Proof. ascii_fact c. Qed.
Lemma pc_blank c : in_range 32 126 c = true -> is_blank_c c = Ascii.eqb c " "%char.
Proof. ascii_fact c. Qed.
Lemma pc_blankz c : in_range 32 126 c = true -> is_blankz [c] = Ascii.eqb c " "%char.
Proof. ascii_fact c. Qed.
Lemma pc_printable c : in_range 32 126 c = true -> is_printable [c] = true.
Proof. ascii_fact c. Qed.
Lemma pc_tab c : in_range 32 126 c = true -> Ascii.eqb c tab_char = false.
Proof. ascii_fact c. Qed.
Lemma pc_cr c : in_range 32 126 c = true -> Ascii.eqb c cr_char = false.
Proof. ascii_fact c. Qed.
Lemma pc_nl c : in_range 32 126 c = true -> Ascii.eqb c nl_char = false.
Proof. ascii_fact c. Qed.
Lemma pc_quote c : in_range 32 126 c = true -> is_ch "'"%char [c] = Ascii.eqb c "'"%char.
Proof. ascii_fact c. Qed.
Lemma pc_allowed c : in_range 32 126 c = true -> allowed_code_point (code_point [c]) = true.
Proof. ascii_fact c. Qed.
Lemma nl_allowed : allowed_code_point (code_point [nl_char]) = true.
Proof. reflexivity. Qed.

Lemma chars_aux_ascii (fuel : nat) (l : list ascii) :
  length l <= fuel -> forallb (fun c => Nat.ltb (byte c) 128) l = true ->
  chars_aux fuel l = chars_of l.
Proof.
  revert fuel. induction l as [|c r IH]; intros fuel Hl H; [destruct fuel; reflexivity|].
  destruct fuel as [|f]; [simpl in Hl; lia|].
  simpl in H. apply andb_true_iff in H as [Hc H].
  cbn [chars_aux]. unfold width. rewrite Hc. simpl. f_equal. apply IH; [simpl in Hl; lia|exact H].
Qed.

Lemma utf8_chars_ascii (l : list ascii) :
  forallb (fun c => Nat.ltb (byte c) 128) l = true -> utf8_chars l = chars_of l.
Proof. intros H. apply chars_aux_ascii; [lia|exact H]. Qed.

Lemma utf8_valid_ascii (l : list ascii) :
  forallb (fun c => Nat.ltb (byte c) 128) l = true -> utf8_valid l = true.
Proof.
  induction l as [|c r IH]; [reflexivity|]. simpl. intros H.
  apply andb_true_iff in H as [Hc H]. rewrite Hc. exact (IH H).
Qed.

Lemma printable_lt128 (l : list ascii) :
  forallb (in_range 32 126) l = true -> forallb (fun c => Nat.ltb (byte c) 128) l = true.
Proof.
  induction l as [|c r IH]; [reflexivity|]. simpl. intros H.
  apply andb_true_iff in H as [Hc H]. rewrite (IH H), andb_true_r.
  unfold in_range in Hc. apply andb_true_iff in Hc as [_ Hc].
  apply Nat.leb_le in Hc. apply Nat.ltb_lt. lia.
Qed.

Lemma plain_body_printable (ind : nat) (e : emitter) (v : list ascii) :
  forallb (in_range 32 126) v = true ->
  em_out (plain_body ind false e (chars_of v)) = em_out e ++ v /\
  em_open_ended (plain_body ind false e (chars_of v)) = em_open_ended e.
Proof.
  revert e. induction v as [|c v IH]; intros e Hv; [simpl; rewrite app_nil_r; auto|].
  simpl in Hv. apply andb_true_iff in Hv as [Hc Hv].
  cbn [map plain_body]. rewrite (pc_break c Hc).
  destruct (is_space [c]).
  - destruct (IH (write e [c]) Hv) as [-> ->]. simpl. rewrite <- app_assoc. auto.
  - destruct (IH (set_indention (write e [c]) false) Hv) as [-> ->].
    simpl. rewrite <- app_assoc. auto.
Qed.

Lemma sq_body_printable (ind : nat) (e : emitter) (v : list ascii) :
  forallb (in_range 32 126) v = true ->
  snd (sq_body ind false e (chars_of v)) = false /\
  em_out (fst (sq_body ind false e (chars_of v))) =
    em_out e ++ flat_map (fun c => if Ascii.eqb c "'"%char then ["'"%char; "'"%char] else [c]) v /\
  em_open_ended (fst (sq_body ind false e (chars_of v))) = em_open_ended e.
Proof.
  revert e. induction v as [|c v IH]; intros e Hv; [simpl; rewrite app_nil_r; auto|].
  simpl in Hv. apply andb_true_iff in Hv as [Hc Hv].
  cbn [map sq_body flat_map]. rewrite (pc_break c Hc), (pc_quote c Hc).
  destruct (is_space [c]) eqn:Hs.
  - destruct (IH (write e [c]) Hv) as (-> & -> & ->).
    assert (Hq : Ascii.eqb c "'"%char = false).
    { rewrite (pc_space c Hc) in Hs. apply Ascii.eqb_eq in Hs. subst c. reflexivity. }
    rewrite Hq. simpl. rewrite <- app_assoc. auto.
  - destruct (Ascii.eqb c "'"%char) eqn:Hq.
    + destruct (IH (set_indention (write (put e "'"%char) [c]) false) Hv) as (-> & -> & ->).
      apply Ascii.eqb_eq in Hq. subst c. simpl. rewrite <- !app_assoc. auto.
    + destruct (IH (set_indention (write e [c]) false) Hv) as (-> & -> & ->).
      simpl. rewrite <- app_assoc. auto.
Qed.

Lemma printable_no_break (v : list ascii) :
  forallb (in_range 32 126) v = true -> forallb (fun ch => negb (is_break ch)) (chars_of v) = true.
Proof.
  induction v as [|c v IH]; [reflexivity|]. simpl. intros H.
  apply andb_true_iff in H as [Hc H]. rewrite (pc_break c Hc), (IH H). reflexivity.
Qed.

Lemma printable_all_printable (v : list ascii) :
  forallb (in_range 32 126) v = true -> existsb (fun ch => negb (is_printable ch)) (chars_of v) = false.
Proof.
  induction v as [|c v IH]; [reflexivity|]. simpl. intros H.
  apply andb_true_iff in H as [Hc H]. rewrite (pc_printable c Hc), (IH H). reflexivity.
Qed.

Lemma adjacent_no_break (g : list ascii -> bool) (cs : list (list ascii)) :
  forallb (fun ch => negb (is_break ch)) cs = true ->
  adjacent is_break g cs = false /\ adjacent g is_break cs = false.
Proof.
  induction cs as [|a cs IH]; [auto|]. intros H. simpl in H.
  apply andb_true_iff in H as [Ha H]. apply negb_true_iff in Ha.
  destruct cs as [|b cs']; [auto|].
  simpl in H. apply andb_true_iff in H as [Hb H']. apply negb_true_iff in Hb.
  destruct (IH ltac:(simpl; rewrite Hb, H'; reflexivity)) as [I1 I2].
  change (adjacent is_break g (a :: b :: cs')) with ((is_break a && g b) || adjacent is_break g (b :: cs')).
  change (adjacent g is_break (a :: b :: cs')) with ((g a && is_break b) || adjacent g is_break (b :: cs')).
  rewrite Ha, Hb, I1, I2, andb_false_r. auto.
Qed.

Lemma existsb_break_printable (v : list ascii) :
  forallb (in_range 32 126) v = true -> existsb is_break (chars_of v) = false.
Proof.
  induction v as [|c v IH]; [reflexivity|]. simpl. intros H.
  apply andb_true_iff in H as [Hc H]. rewrite (pc_break c Hc), (IH H). reflexivity.
Qed.

Lemma analyze_printable (v : list ascii) :
  forallb (in_range 32 126) v = true ->
  single_quoted_allowed (analyze v) = true /\ multiline (analyze v) = false.
Proof.
  intros Hv. unfold analyze. rewrite (utf8_chars_ascii v (printable_lt128 v Hv)).
  pose proof (printable_no_break v Hv) as Hnb.
  destruct (adjacent_no_break is_space _ Hnb) as [A1 A2].
  pose proof (printable_all_printable v Hv) as Hpr.
  pose proof (existsb_break_printable v Hv) as Hbr.
  destruct v as [|c v']; [auto|].
  change (chars_of (c :: v')) with ([c] :: chars_of v') in *.
  cbv beta iota zeta. cbn [single_quoted_allowed multiline].
  rewrite A1, A2, Hpr, Hbr. auto.
Qed.

Lemma infer_style_printable (v : list ascii) :
  forallb (in_range 32 126) v = true ->
  (infer_style v = AnyStyle /\ v <> []) \/ infer_style v = SingleQuotedStyle.
Proof.
  intros Hv. destruct v as [|c v']; [right; reflexivity|].
  unfold infer_style.
  assert (Hn : existsb (fun c0 => Ascii.eqb c0 nl_char) (c :: v') = false).
  { clear -Hv. induction (c :: v') as [|d r IH]; [reflexivity|]. simpl in *.
    apply andb_true_iff in Hv as [Hd Hr]. rewrite (pc_nl d Hd), (IH Hr). reflexivity. }
  rewrite Hn. destruct (untagged_kind (c :: v')); try (right; reflexivity).
  destruct (digits_but_not_number (c :: v')); [right; reflexivity|left; split; [reflexivity|discriminate]].
Qed.

Lemma style_printable (v : list ascii) :
  forallb (in_range 32 126) v = true ->
  (select_style false (analyze v) (Nat.eqb (length v) 0) (infer_style v) = PlainStyle /\
   v <> [] /\ block_plain_allowed (analyze v) = true) \/
  select_style false (analyze v) (Nat.eqb (length v) 0) (infer_style v) = SingleQuotedStyle.
Proof.
  intros Hv. destruct (analyze_printable v Hv) as [Hsq _].
  unfold select_style.
  destruct (infer_style_printable v Hv) as [[-> Hne]| ->]; cbn [andb].
  - destruct (block_plain_allowed (analyze v)) eqn:Hb; cbn [negb orb andb].
    + rewrite andb_false_r. left. auto.
    + rewrite Hsq. right. reflexivity.
  - rewrite Hsq. right. reflexivity.
Qed.

Lemma emit_value_printable (e : emitter) (v : list ascii) :
  forallb (in_range 32 126) v = true -> em_whitespace e = false ->
  exists t,
    em_out (emit_scalar false e v) = em_out e ++ " "%char :: t /\
    em_indention (emit_scalar false e v) = false /\
    em_open_ended (emit_scalar false e v) = em_open_ended e /\
    ((t = v /\ v <> [] /\ block_plain_allowed (analyze v) = true) \/
     t = "'"%char :: flat_map (fun c => if Ascii.eqb c "'"%char then ["'"%char; "'"%char] else [c]) v
           ++ ["'"%char]).
Proof.
  intros Hv He. unfold emit_scalar.
  destruct (style_printable v Hv) as [(Hs & Hne & Hb) | Hs]; rewrite Hs.
  - unfold write_plain. rewrite He.
    assert (Hl : Nat.eqb (length v) 0 = false)
      by (destruct v; [congruence|reflexivity]).
    rewrite Hl. cbn [negb andb]. rewrite (utf8_chars_ascii v (printable_lt128 v Hv)).
    destruct (plain_body_printable 2 (put e " "%char) v Hv) as [Ho Hoe].
    exists v. cbn [em_out set_flags em_indention em_open_ended]. rewrite Ho, Hoe.
    split; [simpl; rewrite <- app_assoc; reflexivity|split; [reflexivity|split; [reflexivity|left; auto]]].
  - unfold write_single_quoted, write_indicator. rewrite He. cbn [negb andb].
    rewrite (utf8_chars_ascii v (printable_lt128 v Hv)).
    set (e1 := set_flags _ false _).
    destruct (sq_body_printable 2 e1 v Hv) as (Hbr & Ho & Hoe).
    destruct (sq_body 2 false e1 (chars_of v)) as [e2 br]. simpl in Hbr, Ho, Hoe. subst br.
    eexists. cbn [em_out set_flags em_indention em_open_ended put_bytes]. rewrite Ho, Hoe.
    subst e1. simpl. split; [|split; [reflexivity|split; [reflexivity|right; reflexivity]]].
    rewrite <- !app_assoc. reflexivity.
Qed.

Lemma write_indent0_ws (e : emitter) :
  em_whitespace (write_indent 0 e) = true /\ em_open_ended (write_indent 0 e) = em_open_ended e.
Proof.
  unfold write_indent. destruct (_ || _); simpl; auto.
Qed.

Lemma emit_key_printable (e : emitter) (k : list ascii) :
  forallb (in_range 32 126) k = true ->
  select_style true (analyze k) (Nat.eqb (length k) 0) (infer_style k) = PlainStyle ->
  em_whitespace e = true ->
  em_out (emit_scalar true e k) = em_out e ++ k /\
  em_open_ended (emit_scalar true e k) = em_open_ended e.
Proof.
  intros Hk Hs He. unfold emit_scalar. rewrite Hs. unfold write_plain. rewrite He.
  cbn [negb andb]. rewrite (utf8_chars_ascii k (printable_lt128 k Hk)).
  destruct (plain_body_printable 2 e k Hk) as [Ho Hoe]. simpl. auto.
Qed.

Lemma emit_entry_printable (e : emitter) (k v : list ascii) :
  forallb (in_range 32 126) k = true ->
  select_style true (analyze k) (Nat.eqb (length k) 0) (infer_style k) = PlainStyle ->
  forallb (in_range 32 126) v = true ->
  exists t,
    em_out (emit_entry e k v) = em_out (write_indent 0 e) ++ k ++ ":"%char :: " "%char :: t /\
    em_indention (emit_entry e k v) = false /\
    em_open_ended (emit_entry e k v) = em_open_ended e /\
    ((t = v /\ v <> [] /\ block_plain_allowed (analyze v) = true) \/
     t = "'"%char :: flat_map (fun c => if Ascii.eqb c "'"%char then ["'"%char; "'"%char] else [c]) v
           ++ ["'"%char]).
Proof.
  intros Hk Hs Hv. unfold emit_entry.
  destruct (write_indent0_ws e) as [Hw Hwo].
  destruct (emit_key_printable (write_indent 0 e) k Hk Hs Hw) as [Hko Hkoe].
  set (e1 := emit_scalar true (write_indent 0 e) k) in *.
  set (e2 := write_indicator e1 [":"%char] false false false).
  assert (He2 : em_whitespace e2 = false) by reflexivity.
  destruct (emit_value_printable e2 v Hv He2) as (t & Ho & Hi & Hoe & Ht).
  exists t. rewrite Ho, Hi, Hoe. subst e2.
  cbn [em_out em_open_ended set_flags put_bytes write_indicator andb negb].
  rewrite Hko, Hkoe, Hwo. rewrite <- !app_assoc. auto.
Qed.

Lemma emit_config_printable (c : ConfigInner) :
  forallb (in_range 32 126) (str_of (projects_directory c)) = true ->
  forallb (in_range 32 126) (str_of (editor_cmd c)) = true ->
  exists t1 t2,
    emit_config c = str_of "projects_directory" ++ ":"%char :: " "%char :: t1 ++
                    nl_char :: str_of "editor_cmd" ++ ":"%char :: " "%char :: t2 ++ [nl_char] /\
    ((t1 = str_of (projects_directory c) /\ str_of (projects_directory c) <> [] /\
      block_plain_allowed (analyze (str_of (projects_directory c))) = true) \/
     t1 = "'"%char :: flat_map (fun c => if Ascii.eqb c "'"%char then ["'"%char; "'"%char] else [c])
                       (str_of (projects_directory c)) ++ ["'"%char]) /\
    ((t2 = str_of (editor_cmd c) /\ str_of (editor_cmd c) <> [] /\
      block_plain_allowed (analyze (str_of (editor_cmd c))) = true) \/
     t2 = "'"%char :: flat_map (fun c => if Ascii.eqb c "'"%char then ["'"%char; "'"%char] else [c])
                       (str_of (editor_cmd c)) ++ ["'"%char]).
Proof.
  intros H1 H2. unfold emit_config.
  destruct (emit_entry_printable initial_emitter (str_of "projects_directory")
              (str_of (projects_directory c)) eq_refl ltac:(vm_compute; reflexivity) H1)
    as (t1 & O1 & I1 & E1 & T1).
  set (e1 := emit_entry initial_emitter _ _) in *.
  destruct (emit_entry_printable e1 (str_of "editor_cmd")
              (str_of (editor_cmd c)) eq_refl ltac:(vm_compute; reflexivity) H2)
    as (t2 & O2 & I2 & E2 & T2).
  set (e2 := emit_entry e1 _ _) in *.
  exists t1, t2. split; [|split; assumption].
  assert (Hw2 : em_out (write_indent 0 e2) = em_out e2 ++ [nl_char] /\
                em_open_ended (write_indent 0 e2) = 0).
  { unfold write_indent. rewrite I2. simpl. rewrite app_nil_r, E2, E1. auto. }
  destruct Hw2 as [Hw2 Ho2]. rewrite Ho2. cbv beta iota zeta. simpl (Nat.eqb 0 2). cbv iota.
  rewrite Hw2, O2.
  assert (Hw1 : em_out (write_indent 0 e1) = em_out e1 ++ [nl_char]).
  { unfold write_indent. rewrite I1. simpl. rewrite app_nil_r. reflexivity. }
  rewrite Hw1, O1. change (em_out (write_indent 0 initial_emitter)) with (@nil ascii).
  simpl. rewrite <- !app_assoc. reflexivity.
Qed.

Lemma ascii_eqb_byte (c d : ascii) : Ascii.eqb c d = Nat.eqb (byte c) (byte d).
Proof.
  destruct (Ascii.eqb_spec c d) as [->|H]; [symmetry; apply Nat.eqb_refl|].
  symmetry. apply Nat.eqb_neq. intros E. apply H.
  unfold byte in E. rewrite <- (ascii_nat_embedding c), <- (ascii_nat_embedding d), E.
  reflexivity.
Qed.

Lemma is_ch_single (a c : ascii) : is_ch a [c] = Ascii.eqb c a.
Proof. rewrite ascii_eqb_byte. reflexivity. Qed.

Lemma sq_line_doubled (acc ws v : list ascii) :
  sq_line acc ws (flat_map (fun c => if Ascii.eqb c "'"%char then ["'"%char; "'"%char] else [c]) v
                  ++ ["'"%char]) = QClosed (rev v ++ ws ++ acc) [].
Proof.
  revert acc ws. induction v as [|c v IH]; intros acc ws; [reflexivity|].
  cbn [flat_map]. destruct (Ascii.eqb c "'"%char) eqn:Hq.
  - apply Ascii.eqb_eq in Hq. subst c. cbn [app sq_line].
    change (is_blank_c "'"%char) with false. cbv iota beta.
    change (Ascii.eqb "'" "'") with true. cbv iota beta.
    rewrite IH. simpl. rewrite <- !app_assoc. reflexivity.
  - cbn [app sq_line]. destruct (is_blank_c c).
    + rewrite IH. simpl. rewrite <- !app_assoc. reflexivity.
    + rewrite Hq. rewrite IH. simpl. rewrite <- !app_assoc. reflexivity.
Qed.

Lemma parse_value_quoted (v : list ascii) (r : list (list ascii)) :
  parse_value 0 ("'"%char :: flat_map (fun c => if Ascii.eqb c "'"%char then ["'"%char; "'"%char] else [c]) v
                 ++ ["'"%char]) r = (YScalar SingleQuotedStyle v, r).
Proof.
  unfold parse_value. change (Ascii.eqb "'" "'" || Ascii.eqb "'" dq_char) with true.
  cbv iota beta zeta. change (Ascii.eqb "'" "'") with true. cbv iota beta.
  unfold scan_quoted, quoted_line. cbv iota. rewrite sq_line_doubled.
  rewrite !app_nil_r, rev_involutive. reflexivity.
Qed.

Lemma ws_or_end_head (r : list ascii) :
  forallb (in_range 32 126) r = true -> ws_or_end (head (chars_of r)) = next_is_blankz r.
Proof.
  destruct r as [|d r]; [reflexivity|]. simpl. intros H.
  apply andb_true_iff in H as [Hd _]. rewrite (pc_blankz d Hd), (pc_blank d Hd). reflexivity.
Qed.

Lemma scan_plain_inner (p : ascii) (l acc : list ascii) :
  in_range 32 126 p = true -> forallb (in_range 32 126) l = true ->
  existsb (fun '(p, c, n) =>
             match p with
             | None => first_indicator c (ws_or_end n)
             | Some _ => inner_indicator p c n
             end) (windows (Some [p]) (chars_of l)) = false ->
  scan_plain acc (is_blank_c p) l = (rev l ++ acc, PEnd).
Proof.
  revert p acc. induction l as [|c r IH]; intros p acc Hp Hl Hw; [reflexivity|].
  simpl in Hl. apply andb_true_iff in Hl as [Hc Hr].
  cbn [map windows existsb] in Hw. apply orb_false_iff in Hw as [Hi Hw].
  unfold inner_indicator in Hi. rewrite !is_ch_single, (ws_or_end_head r Hr) in Hi.
  cbn [ws_or_end] in Hi. rewrite (pc_blankz p Hp) in Hi.
  apply orb_false_iff in Hi as [Hcolon Hhash].
  cbn [scan_plain]. rewrite (pc_blank p Hp) in *.
  destruct (is_blank_c c) eqn:Hb.
  - pose proof (IH c (c :: acc) Hc Hr Hw) as E. rewrite Hb in E.
    rewrite E. simpl. rewrite <- app_assoc. reflexivity.
  - rewrite andb_comm in Hhash. rewrite Hhash, Hcolon.
    pose proof (IH c (c :: acc) Hc Hr Hw) as E. rewrite Hb in E.
    rewrite E. simpl. rewrite <- app_assoc. reflexivity.
Qed.

Ltac first_ind_fact x Hx Hf :=
  let H := fresh "H" in
  match goal with |- ?lhs = false =>
    match type of Hf with ?f = false =>
    let P := eval pattern x in (implb (in_range 32 126 x) (implb (negb f) (negb lhs))) in
    match P with ?F x => pose proof (ascii_forall F ltac:(vm_compute; reflexivity) x) as H end end end;
  cbv beta in H; rewrite Hx, Hf in H; apply negb_true_iff in H; exact H.

Lemma first_indicator_parse (x : ascii) (b : bool) :
  in_range 32 126 x = true -> first_indicator [x] b = false ->
  (Ascii.eqb x "'"%char || Ascii.eqb x dq_char)
  || (Ascii.eqb x "|"%char || Ascii.eqb x ">"%char)
  || existsb (Ascii.eqb x) ["["; "{"; "&"; "*"; "!"]%char
  || (Ascii.eqb x "-"%char && b)
  || ((Ascii.eqb x "?"%char || Ascii.eqb x ":"%char) && b)
  || existsb (Ascii.eqb x) [","; "]"; "}"]%char
  || existsb (Ascii.eqb x) ["%"; "@"; "`"]%char
  || Ascii.eqb x "#"%char = false.
Proof.
  intros Hx Hf. destruct b; first_ind_fact x Hx Hf.
Qed.

Lemma parse_value_plain (v : list ascii) (r r' : list (list ascii)) :
  forallb (in_range 32 126) v = true -> v <> [] ->
  block_plain_allowed (analyze v) = true ->
  plain_cont 0 v 0 r = PScalar v r' ->
  parse_value 0 v r = (YScalar PlainStyle v, r').
Proof.
  intros Hv Hne Hb Hc.
  unfold analyze in Hb. rewrite (utf8_chars_ascii v (printable_lt128 v Hv)) in Hb.
  destruct v as [|x rest]; [congruence|].
  change (chars_of (x :: rest)) with ([x] :: chars_of rest) in Hb.
  cbv beta iota zeta in Hb. cbn [block_plain_allowed] in Hb.
  apply negb_true_iff in Hb. repeat rewrite orb_false_iff in Hb.
  destruct Hb as [[[[[[[Hlead Htrail] _] _] _] _] _] Hbi].
  unfold block_indicators in Hbi. apply orb_false_iff in Hbi as [_ Hbi].
  change (chars_of (x :: rest)) with ([x] :: chars_of rest) in Hbi.
  cbn [windows existsb] in Hbi. apply orb_false_iff in Hbi as [Hfirst Hinner].
  simpl in Hv. apply andb_true_iff in Hv as [Hx Hr].
  rewrite (ws_or_end_head rest Hr) in Hfirst.
  pose proof (first_indicator_parse x _ Hx Hfirst) as Hp.
  repeat rewrite orb_false_iff in Hp.
  destruct Hp as [[[[[[[H1 H2] H3] H4] H5] H6] H7] H8].
  destruct Hlead as [Hsp _]. rewrite (pc_space x Hx) in Hsp.
  destruct H1 as [H1a H1b]. destruct H2 as [H2a H2b].
  unfold parse_value. rewrite H1a, H1b, H2a, H2b, H3, H4, H5, H6, H7.
  unfold scan_plain_scalar. cbn [scan_plain].
  rewrite (pc_blank x Hx), Hsp. cbn [andb]. rewrite H8. cbn [andb].
  destruct (Ascii.eqb x ":"%char && next_is_blankz rest) eqn:Hcol.
  { exfalso. clear -H5 Hcol. destruct (Ascii.eqb x ":"%char), (next_is_blankz rest);
      simpl in *; try discriminate; rewrite orb_true_r in H5; discriminate. }
  pose proof (scan_plain_inner x rest [x] Hx Hr Hinner) as E.
  rewrite (pc_blank x Hx), Hsp in E. rewrite E.
  unfold plain_text.
  (* the last character is not blank *)
  assert (Hlast : skip_blanks (rev rest ++ [x]) = rev rest ++ [x]).
  { destruct (exists_last (l:=x :: rest) ltac:(discriminate)) as (pre & y & Hy).
    change (rev rest ++ [x]) with (rev (x :: rest)). rewrite Hy, rev_app_distr. simpl.
    assert (Hy' : List.last (chars_of (x :: rest)) [] = [y])
      by (rewrite Hy, map_app; apply last_last).
    change (chars_of (x :: rest)) with ([x] :: chars_of rest) in Hy'.
    rewrite Hy' in Htrail.
    assert (Hyp : in_range 32 126 y = true).
    { assert (Hin : In y (x :: rest)) by (rewrite Hy; apply in_or_app; right; left; reflexivity).
      simpl in Hin. destruct Hin as [<-|Hin]; [exact Hx|].
      rewrite forallb_forall in Hr. exact (Hr y Hin). }
    rewrite (pc_space y Hyp) in Htrail. rewrite (pc_blank y Hyp), Htrail. reflexivity. }
  rewrite Hlast. change (rev rest ++ [x]) with (rev (x :: rest)). rewrite rev_involutive.
  rewrite Hc. reflexivity.
Qed.

Lemma split_at_nl_app (cur l rest : list ascii) :
  forallb (in_range 32 126) l = true ->
  split_at_nl cur (l ++ nl_char :: rest) = (rev cur ++ l) :: split_at_nl [] rest.
Proof.
  revert cur. induction l as [|c l IH]; intros cur H.
  - simpl. rewrite app_nil_r. reflexivity.
  - simpl in H. apply andb_true_iff in H as [Hc H].
    cbn [app split_at_nl]. rewrite (pc_nl c Hc), (IH _ H). simpl. rewrite <- app_assoc. reflexivity.
Qed.

Lemma strip_cr_printable (l : list ascii) :
  forallb (in_range 32 126) l = true -> strip_cr l = l.
Proof.
  intros H. unfold strip_cr. destruct (rev l) as [|c r] eqn:E.
  - apply (f_equal (@rev ascii)) in E. rewrite rev_involutive in E. symmetry. exact E.
  - assert (Hc : In c l) by (apply in_rev; rewrite E; left; reflexivity).
    rewrite forallb_forall in H. rewrite (pc_cr c (H c Hc)). reflexivity.
Qed.

Lemma parse_node_step (f : nat) (l : list ascii) (r : list (list ascii)) :
  skip_empty (l :: r) = l :: r -> is_doc_marker l = false -> count_spaces l = 0 ->
  parse_node (S f) (-1) false (l :: r) = parse_at f (-1) 0 l r.
Proof. intros H1 H2 H3. cbn [parse_node]. rewrite H1, H2, H3. reflexivity. Qed.

Lemma parse_at_step (f : nat) (l : list ascii) (r : list (list ascii)) k after :
  starts_with tab_char l = false -> is_seq_entry l = false -> scan_key l = KeyFound k after ->
  parse_at (S f) (-1) 0 l r = parse_map f 0 [] (l :: r).
Proof. intros H1 H2 H3. cbn [parse_at]. rewrite H1, H2, H3. reflexivity. Qed.

Lemma parse_map_step (f : nat) (acc : list (ynode * ynode)) (l : list ascii)
  (r : list (list ascii)) k x t v r' :
  skip_empty (l :: r) = l :: r -> is_doc_marker l = false -> count_spaces l = 0 ->
  starts_with tab_char l = false -> is_seq_entry l = false ->
  scan_key l = KeyFound k (" "%char :: x :: t) ->
  Ascii.eqb x " "%char = false -> Ascii.eqb x tab_char = false -> Ascii.eqb x "#"%char = false ->
  parse_value 0 (x :: t) r = (v, r') -> node_error v = None ->
  parse_map (S f) 0 acc (l :: r) = parse_map f 0 ((k, v) :: acc) r'.
Proof.
  intros H1 H2 H3 H4 H5 H6 H7 H8 H9 H10 H11. cbn [parse_map]. rewrite H1, H2, H3.
  cbn [Nat.ltb Nat.leb skipn]. unfold drop. cbn [skipn]. rewrite H4, H5, H6.
  cbn [count_spaces]. change (Ascii.eqb " " " ") with true. cbv iota.
  rewrite H7. cbn [skipn count_spaces drop]. rewrite H8, H9.
  change (Z.of_nat 0) with 0%Z. rewrite H10. cbv iota beta. rewrite H11. reflexivity.
Qed.

Lemma parse_map_end (f : nat) (acc : list (ynode * ynode)) (r : list (list ascii)) :
  skip_empty r = [] -> parse_map (S f) 0 acc r = (YMap (rev acc) None, []).
Proof. intros H. cbn [parse_map]. rewrite H. reflexivity. Qed.

Lemma printable_lt128_nl (l : list ascii) :
  forallb (fun c => in_range 32 126 c || Ascii.eqb c nl_char) l = true ->
  forallb (fun c => Nat.ltb (byte c) 128) l = true.
Proof.
  induction l as [|c l IH]; [reflexivity|]. simpl. intros H.
  apply andb_true_iff in H as [Hc H]. rewrite (IH H), andb_true_r.
  destruct (in_range 32 126 c) eqn:Hp.
  - unfold in_range in Hp. apply andb_true_iff in Hp as [_ Hp].
    apply Nat.leb_le in Hp. apply Nat.ltb_lt. lia.
  - apply Ascii.eqb_eq in Hc. subst c. reflexivity.
Qed.

Lemma forallb_pr_nl (l : list ascii) :
  forallb (in_range 32 126) l = true ->
  forallb (fun c => in_range 32 126 c || Ascii.eqb c nl_char) l = true.
Proof.
  induction l as [|c l IH]; [reflexivity|]. simpl. intros H.
  apply andb_true_iff in H as [Hc H]. rewrite Hc, (IH H). reflexivity.
Qed.

Lemma text_allowed (l : list ascii) :
  forallb (fun c => in_range 32 126 c || Ascii.eqb c nl_char) l = true ->
  forallb (fun ch => allowed_code_point (code_point ch)) (utf8_chars l) = true.
Proof.
  intros H. rewrite (utf8_chars_ascii l (printable_lt128_nl l H)).
  induction l as [|c l IH]; [reflexivity|]. simpl in H |- *.
  apply andb_true_iff in H as [Hc H]. rewrite (IH H), andb_true_r.
  destruct (in_range 32 126 c) eqn:Hp; [exact (pc_allowed c Hp)|].
  apply Ascii.eqb_eq in Hc. subst c. reflexivity.
Qed.

Lemma parse_stream_config (x1 x2 : ascii) (t1 t2 : list ascii) (n1 n2 : ynode)
  (r2 : list (list ascii)) :
  let L1 := str_of "projects_directory" ++ ":"%char :: " "%char :: x1 :: t1 in
  let L2 := str_of "editor_cmd" ++ ":"%char :: " "%char :: x2 :: t2 in
  forallb (in_range 32 126) (x1 :: t1) = true -> forallb (in_range 32 126) (x2 :: t2) = true ->
  Ascii.eqb x1 " "%char = false -> Ascii.eqb x1 "#"%char = false ->
  Ascii.eqb x2 " "%char = false -> Ascii.eqb x2 "#"%char = false ->
  parse_value 0 (x1 :: t1) [L2; []] = (n1, [L2; []]) -> node_error n1 = None ->
  parse_value 0 (x2 :: t2) [[]] = (n2, r2) -> node_error n2 = None -> skip_empty r2 = [] ->
  parse_stream (L1 ++ nl_char :: L2 ++ [nl_char]) =
  {| doc_root := YMap [(YScalar PlainStyle (str_of "projects_directory"), n1);
                       (YScalar PlainStyle (str_of "editor_cmd"), n2)] None;
     doc_more := false |}.
Proof.
  intros L1 L2 P1 P2 S1 H1 S2 H2 V1 N1 V2 N2 E2.
  assert (T1 : Ascii.eqb x1 tab_char = false)
    by (apply pc_tab; simpl in P1; apply andb_true_iff in P1; tauto).
  assert (T2 : Ascii.eqb x2 tab_char = false)
    by (apply pc_tab; simpl in P2; apply andb_true_iff in P2; tauto).
  assert (Q1 : forallb (in_range 32 126) L1 = true)
    by (unfold L1; rewrite forallb_app; simpl in P1 |- *; rewrite P1; reflexivity).
  assert (Q2 : forallb (in_range 32 126) L2 = true)
    by (unfold L2; rewrite forallb_app; simpl in P2 |- *; rewrite P2; reflexivity).
  assert (B : strip_bom (L1 ++ nl_char :: L2 ++ [nl_char]) = L1 ++ nl_char :: L2 ++ [nl_char])
    by reflexivity.
  assert (A : forallb (fun ch => allowed_code_point (code_point ch))
                (utf8_chars (L1 ++ nl_char :: L2 ++ [nl_char])) = true).
  { apply text_allowed. rewrite forallb_app. cbn [forallb].
    rewrite forallb_app, !forallb_pr_nl by assumption. reflexivity. }
  assert (I : input_lines (L1 ++ nl_char :: L2 ++ [nl_char]) = [L1; L2; []]).
  { unfold input_lines. rewrite (split_at_nl_app [] L1 _ Q1), (split_at_nl_app [] L2 _ Q2).
    cbn. rewrite !strip_cr_printable by assumption. reflexivity. }
  assert (SE1 : skip_empty [L1; L2; []] = [L1; L2; []]) by reflexivity.
  assert (SE2 : skip_empty [L2; []] = [L2; []]) by reflexivity.
  assert (Hpct : starts_with "%"%char L1 = false) by reflexivity.
  assert (Hsm : is_start_marker L1 = false) by reflexivity.
  assert (D1 : is_doc_marker L1 = false) by reflexivity.
  assert (D2 : is_doc_marker L2 = false) by reflexivity.
  assert (C1 : count_spaces L1 = 0) by reflexivity.
  assert (C2 : count_spaces L2 = 0) by reflexivity.
  assert (W1 : starts_with tab_char L1 = false) by reflexivity.
  assert (W2 : starts_with tab_char L2 = false) by reflexivity.
  assert (Z1 : is_seq_entry L1 = false) by reflexivity.
  assert (Z2 : is_seq_entry L2 = false) by reflexivity.
  assert (K1 : scan_key L1 = KeyFound (YScalar PlainStyle (str_of "projects_directory"))
                               (" "%char :: x1 :: t1)) by reflexivity.
  assert (K2 : scan_key L2 = KeyFound (YScalar PlainStyle (str_of "editor_cmd"))
                               (" "%char :: x2 :: t2)) by reflexivity.
  assert (Len : length (L1 ++ nl_char :: L2 ++ [nl_char]) >= 1)
    by (rewrite length_app; unfold L1; simpl; lia).
  clearbody L1 L2.
  unfold parse_stream. rewrite B, A. cbv iota beta zeta. rewrite I, SE1, Hpct, Hsm.
  cbv iota.
  destruct (4 * (length (L1 ++ nl_char :: L2 ++ [nl_char]) + 1)) as [|[|[|[|[|f]]]]] eqn:F;
    try lia.
  rewrite (parse_node_step _ _ _ SE1 D1 C1), (parse_at_step _ _ _ _ _ W1 Z1 K1).
  rewrite (parse_map_step _ _ _ _ _ _ _ _ _ SE1 D1 C1 W1 Z1 K1 S1 T1 H1 V1 N1).
  rewrite (parse_map_step _ _ _ _ _ _ _ _ _ SE2 D2 C2 W2 Z2 K2 S2 T2 H2 V2 N2).
  rewrite (parse_map_end _ _ _ E2). cbn [rev app].
  cbn [node_error]. rewrite N1, N2. reflexivity.
Qed.

Lemma sq_doubled_printable (v : list ascii) :
  forallb (in_range 32 126) v = true ->
  forallb (in_range 32 126)
    (flat_map (fun c => if Ascii.eqb c "'"%char then ["'"%char; "'"%char] else [c]) v) = true.
Proof.
  induction v as [|c v IH]; [reflexivity|]. simpl. intros H.
  apply andb_true_iff in H as [Hc H]. rewrite forallb_app, (IH H), andb_true_r.
  destruct (Ascii.eqb c "'"%char); simpl; [reflexivity|]. rewrite Hc. reflexivity.
Qed.

Lemma plain_head (v : list ascii) :
  forallb (in_range 32 126) v = true -> v <> [] -> block_plain_allowed (analyze v) = true ->
  exists x u, v = x :: u /\ Ascii.eqb x " "%char = false /\ Ascii.eqb x "#"%char = false.
Proof.
  intros Hv Hne Hb.
  unfold analyze in Hb. rewrite (utf8_chars_ascii v (printable_lt128 v Hv)) in Hb.
  destruct v as [|x rest]; [congruence|]. exists x, rest. split; [reflexivity|].
  change (chars_of (x :: rest)) with ([x] :: chars_of rest) in Hb.
  cbv beta iota zeta in Hb. cbn [block_plain_allowed] in Hb.
  apply negb_true_iff in Hb. repeat rewrite orb_false_iff in Hb.
  destruct Hb as [[[[[[[[Hsp _] _] _] _] _] _] _] Hbi].
  unfold block_indicators in Hbi. apply orb_false_iff in Hbi as [_ Hbi].
  change (chars_of (x :: rest)) with ([x] :: chars_of rest) in Hbi.
  cbn [windows existsb] in Hbi. apply orb_false_iff in Hbi as [Hfirst _].
  simpl in Hv. apply andb_true_iff in Hv as [Hx _].
  pose proof (first_indicator_parse x _ Hx Hfirst) as Hp.
  repeat rewrite orb_false_iff in Hp.
  rewrite (pc_space x Hx) in Hsp. split; [exact Hsp|tauto].
Qed.

Lemma value_props (v t : list ascii) (r r' : list (list ascii)) :
  forallb (in_range 32 126) v = true ->
  ((t = v /\ v <> [] /\ block_plain_allowed (analyze v) = true) \/
   t = "'"%char :: flat_map (fun c => if Ascii.eqb c "'"%char then ["'"%char; "'"%char] else [c]) v
         ++ ["'"%char]) ->
  plain_cont 0 v 0 r = PScalar v r' ->
  exists x u sty r'', t = x :: u /\ forallb (in_range 32 126) (x :: u) = true /\
    Ascii.eqb x " "%char = false /\ Ascii.eqb x "#"%char = false /\
    parse_value 0 (x :: u) r = (YScalar sty v, r'') /\ (r'' = r \/ r'' = r').
Proof.
  intros Hv [(-> & Hne & Hb) | ->] Hc.
  - destruct (plain_head v Hv Hne Hb) as (x & u & Ht & Hx1 & Hx2).
    pose proof (parse_value_plain v r r' Hv Hne Hb Hc) as Hp.
    exists x, u, PlainStyle, r'. rewrite <- Ht. auto 8.
  - exists "'"%char, (flat_map (fun c => if Ascii.eqb c "'"%char then ["'"%char; "'"%char] else [c]) v
                      ++ ["'"%char]), SingleQuotedStyle, r.
    split; [reflexivity|]. split.
    + change (forallb (in_range 32 126) ((["'"%char] ++ flat_map (fun c => if Ascii.eqb c "'"%char then ["'"%char; "'"%char] else [c]) v) ++ ["'"%char]) = true).
      rewrite !forallb_app, sq_doubled_printable by exact Hv. reflexivity.
    + split; [reflexivity|]. split; [reflexivity|]. split; [apply parse_value_quoted|auto].
Qed.

Lemma from_str_to_string (c : ConfigInner) :
  printable_ascii (projects_directory c) = true -> printable_ascii (editor_cmd c) = true ->
  exists yaml, to_string c = Ok yaml /\ from_str yaml = Ok c.
Proof.
  intros H1 H2. destruct (emit_config_printable c H1 H2) as (t1 & t2 & E & C1 & C2).
  eexists; split; [reflexivity|].
  unfold from_str. rewrite list_ascii_of_string_of_list_ascii, E.
  destruct (value_props (str_of (editor_cmd c)) t2 [[]] [] H2 C2 eq_refl)
    as (x2 & u2 & s2 & r2 & -> & P2 & S2 & G2 & V2 & R2).
  set (L2 := str_of "editor_cmd" ++ ":"%char :: " "%char :: x2 :: u2).
  destruct (value_props (str_of (projects_directory c)) t1 [L2; []] [L2; []] H1 C1 eq_refl)
    as (x1 & u1 & s1 & r1 & -> & P1 & S1 & G1 & V1 & R1).
  assert (r1 = [L2; []]) as -> by (destruct R1; assumption).
  assert (Hr2 : skip_empty r2 = []) by (destruct R2 as [->| ->]; reflexivity).
  pose proof (parse_stream_config x1 x2 u1 u2 _ _ r2 P1 P2 S1 G1 S2 G2 V1 eq_refl V2 eq_refl Hr2)
    as Hps.
  cbv zeta in Hps. fold L2 in Hps.
  assert (Etext : str_of "projects_directory" ++ ":"%char :: " "%char :: (x1 :: u1) ++
           nl_char :: str_of "editor_cmd" ++ ":"%char :: " "%char :: (x2 :: u2) ++ [nl_char]
           = (str_of "projects_directory" ++ ":"%char :: " "%char :: x1 :: u1) ++
             nl_char :: L2 ++ [nl_char])
    by (unfold L2; rewrite <- !app_assoc; reflexivity).
  rewrite Etext.
  rewrite Hps. cbn [doc_root doc_more de_config_inner].
  destruct c as [pd cmd]. cbn [projects_directory editor_cmd].
  simpl visit_map. rewrite !string_of_list_ascii_of_string. reflexivity.
Qed.

Lemma value_text_printable (v t : list ascii) :
  forallb (in_range 32 126) v = true ->
  ((t = v /\ v <> [] /\ block_plain_allowed (analyze v) = true) \/
   t = "'"%char :: flat_map (fun c => if Ascii.eqb c "'"%char then ["'"%char; "'"%char] else [c]) v
         ++ ["'"%char]) ->
  forallb (in_range 32 126) t = true.
Proof.
  intros Hv [(-> & _ & _) | ->]; [exact Hv|].
  change (forallb (in_range 32 126) ((["'"%char] ++ flat_map (fun c => if Ascii.eqb c "'"%char then ["'"%char; "'"%char] else [c]) v) ++ ["'"%char]) = true).
  rewrite !forallb_app, sq_doubled_printable by exact Hv. reflexivity.
Qed.

Lemma forallb_app_true (f : ascii -> bool) (l1 l2 : list ascii) :
  forallb f l1 = true -> forallb f l2 = true -> forallb f (l1 ++ l2) = true.
Proof. intros H1 H2. rewrite forallb_app, H1, H2. reflexivity. Qed.

Lemma forallb_cons_true (f : ascii -> bool) (a : ascii) (l : list ascii) :
  f a = true -> forallb f l = true -> forallb f (a :: l) = true.
Proof. intros H1 H2. simpl. rewrite H1, H2. reflexivity. Qed.

Lemma to_string_utf8_valid (c : ConfigInner) (yaml : string) :
  printable_ascii (projects_directory c) = true -> printable_ascii (editor_cmd c) = true ->
  to_string c = Ok yaml -> utf8_valid (list_ascii_of_string yaml) = true.
Proof.
  intros H1 H2 Hy. injection Hy as <-. rewrite list_ascii_of_string_of_list_ascii.
  destruct (emit_config_printable c H1 H2) as (t1 & t2 & -> & C1 & C2).
  apply utf8_valid_ascii, printable_lt128_nl.
  pose proof (value_text_printable _ _ H1 C1) as P1.
  pose proof (value_text_printable _ _ H2 C2) as P2.
  repeat first [apply forallb_app_true | apply forallb_cons_true];
    first [reflexivity | apply forallb_pr_nl; assumption].
Qed.

End YamlRoundTrip.

Lemma tmp_not_ancestor (cfg a : path) :
  In a (ancestors (app_config_dir cfg)) -> a <> tmp_file_path cfg.
Proof.
  intros Hin Heq. apply ancestors_length in Hin. rewrite Heq in Hin.
  unfold tmp_file_path in Hin.
  pose proof (path_join_length _ "config.yaml.tmp" (app_config_dir_nonempty cfg)).
  simpl in *. lia.
Qed.

Lemma probe_neq_tmp (cfg p : path) : write_probe p <> tmp_file_path cfg.
Proof.
  unfold write_probe, tmp_file_path.
  destruct (path_join_suffix p probe_name) as [pre1 ->].
  destruct (path_join_suffix (app_config_dir cfg) "config.yaml.tmp") as [pre2 ->].
  intros Heq. apply (f_equal list_ascii_of_string) in Heq.
  rewrite !list_ascii_of_string_append in Heq.
  change (list_ascii_of_string probe_name)
    with (list_ascii_of_string ".rustm_write_prob" ++ ["e"%char])%list in Heq.
  change (list_ascii_of_string "config.yaml.tmp")
    with (list_ascii_of_string "config.yaml.tm" ++ ["p"%char])%list in Heq.
  rewrite !app_assoc in Heq. apply app_inj_tail in Heq as [_ Hc]. discriminate.
Qed.

Lemma create_dirs_keep (flt : faults) (ds : list path) (st st' : fs) (q : path) :
  create_dirs flt st ds = Ok st' -> st !! q <> None -> st' !! q = st !! q.
Proof.
  revert st. induction ds as [|d ds IH]; intros st H Hq; simpl in H; [congruence|].
  destruct (st !! d) as [[]|] eqn:Hd; try discriminate.
  - apply IH; assumption.
  - destruct (flt (OpMkdir d)); [discriminate|].
    assert (Hqd : q <> d) by (intros ->; congruence).
    rewrite (IH _ H); [apply lookup_insert_ne; congruence|].
    rewrite lookup_insert_ne by congruence. exact Hq.
Qed.

Lemma file_create_ok (st st' : fs) (d f : path) :
  file_create st d f = Ok st' ->
  exists r w, st' = <[f := File "" r w]> st /\
    match st !! f with
    | Some (File _ r0 _) => r = r0
    | Some (Dir _ _) => False
    | None => r = true
    end.
Proof.
  unfold file_create. destruct (st !! f) as [[data r w|r w]|].
  - destruct w; [|discriminate]. intros [= <-]. eauto.
  - discriminate.
  - destruct (st !! d) as [[|? []]|]; try discriminate. intros [= <-]. eauto.
Qed.

Lemma rename_ok (flt : faults) (s s' : fs) (dir src dst : path) :
  exec_action flt s (Rename dir src dst) = Ok s' ->
  exists n, s !! src = Some n /\ s' = <[dst := n]> (delete src s) /\
            (forall r w, s !! dst <> Some (Dir r w)).
Proof.
  simpl. destruct (flt (OpRename src dst)); [discriminate|].
  destruct (s !! src) as [n|]; [|discriminate].
  destruct (s !! dst) as [[|r0 w0]|]; [| |];
    destruct (s !! dir) as [[|? []]|]; try discriminate;
    intros [= <-]; exists n; (split; [reflexivity|split; [reflexivity|congruence]]).
Qed.

(** What a completed save protocol leaves behind: the configuration file
    holds the serialized text, readable unless an unreadable temporary file
    was reused, and every other entry except the temporary file is as before,
    apart from directories [create_dir_all] created where there was nothing. *)
Lemma persist_protocol_ok (cfg : path) (flt : faults) (st st' : fs) (yaml : string) :
  run_protocol flt st (persist_protocol cfg yaml) = (Ok tt, st') ->
  ((forall d w, st !! tmp_file_path cfg <> Some (File d false w)) ->
   exists w, st' !! config_file_path cfg = Some (File yaml true w)) /\
  (forall q, q <> tmp_file_path cfg -> q <> config_file_path cfg ->
     (st !! q <> None \/ ~ In q (ancestors (app_config_dir cfg))) ->
     st' !! q = st !! q) /\
  (forall r w, st !! config_file_path cfg <> Some (Dir r w)) /\
  (forall r w, st !! tmp_file_path cfg <> Some (Dir r w)).
Proof.
  intros H. unfold persist_protocol in H. cbn [run_protocol] in H.
  set (ad := app_config_dir cfg) in *. set (tmp := tmp_file_path cfg) in *.
  set (cfp := config_file_path cfg) in *.
  assert (Htmp_anc : ~ In tmp (ancestors ad))
    by (intros Hin; exact (tmp_not_ancestor cfg tmp Hin eq_refl)).
  assert (Hcfp_anc : ~ In cfp (ancestors ad))
    by (intros Hin; exact (config_not_ancestor cfg cfp Hin eq_refl)).
  assert (Hct : cfp <> tmp) by (intros Heq; exact (config_neq_tmp cfg (eq_sym Heq))).
  assert (Had : ad <> tmp).
  { intros Heq. pose proof (path_join_length ad "config.yaml.tmp"
                              (app_config_dir_nonempty cfg)) as Hl.
    change (path_join ad "config.yaml.tmp") with tmp in Hl.
    rewrite <- Heq in Hl. simpl in Hl. lia. }
  destruct (exec_action flt st (CreateDirAll ad)) as [s1|] eqn:E1; [|discriminate].
  destruct (exec_action flt s1 (CreateFile ad tmp)) as [s2|] eqn:E2; [|discriminate].
  destruct (exec_action flt s2 (WriteAll tmp yaml)) as [s3|] eqn:E3; [|discriminate].
  assert (H4 : run_protocol flt s3 [(Rename ad tmp cfp, Propagate)] = (Ok tt, st')).
  { destruct (exec_action flt s3 (SyncAll tmp)) as [s4|] eqn:E4; [|exact H].
    simpl in E4. destruct (flt (OpSync tmp)); [discriminate|]. injection E4 as <-. exact H. }
  clear H. cbn [run_protocol] in H4.
  destruct (exec_action flt s3 (Rename ad tmp cfp)) as [s5|] eqn:E5; [|discriminate].
  injection H4 as <-.
  (* step 1 *)
  simpl in E1. unfold create_dir_all in E1.
  assert (F1 : forall q, (st !! q <> None \/ ~ In q (ancestors ad)) -> s1 !! q = st !! q).
  { intros q [Hq|Hq]; [exact (create_dirs_keep _ _ _ _ q E1 Hq)|
                       exact (create_dirs_frame _ q _ _ _ E1 Hq)]. }
  (* step 2 *)
  simpl in E2. destruct (flt (OpCreate tmp)); [discriminate|].
  destruct (file_create_ok _ _ _ _ E2) as (r & w & -> & Hr).
  rewrite (F1 tmp (or_intror Htmp_anc)) in Hr.
  (* step 3 *)
  simpl in E3. destruct (flt (OpWrite tmp)); [discriminate|].
  rewrite lookup_insert_eq in E3. injection E3 as <-.
  (* step 5 *)
  destruct (rename_ok _ _ _ _ _ _ E5) as (n & Hn & -> & Hdst).
  rewrite lookup_insert_eq in Hn. injection Hn as <-.
  rewrite !lookup_insert_ne in Hdst by congruence.
  rewrite (F1 cfp (or_intror Hcfp_anc)) in Hdst.
  split; [|split; [|split]].
  - intros Hnr. exists w. rewrite lookup_insert_eq. do 2 f_equal.
    destruct (st !! tmp) as [[d0 r0 w0|]|];
      [subst r; destruct r0; [reflexivity|exfalso; exact (Hnr d0 w0 eq_refl)]
      |contradiction|subst r; reflexivity].
  - intros q Hq1 Hq2 Hq3.
    rewrite lookup_insert_ne, lookup_delete_ne, !lookup_insert_ne by congruence.
    exact (F1 q Hq3).
  - exact Hdst.
  - intros r1 w1 Hd. rewrite Hd in Hr. exact Hr.
Qed.

Lemma validate_ok_again (st : fs) (p : path) :
  fst (validate_projects_directory st p) = Ok tt ->
  fst (validate_projects_directory (snd (validate_projects_directory st p)) p) = Ok tt.
Proof.
  intros Hok. destruct (validate_ok_state st p Hok) as (Hne & Hp & Hc).
  set (st1 := snd (validate_projects_directory st p)) in *.
  rewrite (validate_nonempty st1 p Hne), Hp.
  rewrite (validate_nonempty st p Hne) in Hok.
  destruct (st !! p) as [[|[] w]|]; try discriminate.
  destruct (file_create st1 p (write_probe p)); [reflexivity|discriminate].
Qed.

Lemma forallb_drop_ws_suffix (f : ascii -> bool) (l : list ascii) :
  forallb f l = true -> forallb f (drop_ws l) = true.
Proof.
  destruct (drop_ws_split l) as (pre & Hl & _).
  intros H. rewrite Hl, forallb_app in H. apply andb_true_iff in H. tauto.
Qed.

Lemma printable_trim (s : string) : printable_ascii s = true -> printable_ascii (trim s) = true.
Proof.
  unfold printable_ascii, trim. rewrite list_ascii_of_string_of_list_ascii.
  intros H. rewrite forallb_rev_eq. apply forallb_drop_ws_suffix.
  rewrite forallb_rev_eq. apply forallb_drop_ws_suffix. exact H.
Qed.

(** A record that passed the checks of the save and was written by a
    completed protocol is what [load] then reads back as [Ready]. *)
Lemma load_after_validated_persist (cfg : path) (flt : faults) (st st' : fs)
  (c : Config) (yaml : string) :
  fst (validate_projects_directory st (projects_directory c)) = Ok tt ->
  to_string c = Ok yaml ->
  run_protocol flt (snd (validate_projects_directory st (projects_directory c)))
    (persist_protocol cfg yaml) = (Ok tt, st') ->
  is_blank (projects_directory c) = false -> is_blank (editor_cmd c) = false ->
  printable_ascii (projects_directory c) = true -> printable_ascii (editor_cmd c) = true ->
  ~ In (write_probe (projects_directory c)) (ancestors (app_config_dir cfg)) ->
  (forall d w, st !! tmp_file_path cfg <> Some (File d false w)) ->
  fst (load cfg st') = Ok (Ready c).
Proof.
  set (pd := projects_directory c).
  intros Hv Hy Hr Hb1 Hb2 Hn1 Hn2 Hp Ht.
  set (st1 := snd (validate_projects_directory st pd)) in *.
  destruct (persist_protocol_ok cfg flt st1 st' yaml Hr) as (Hcf & Hfr & Hcd & Htd).
  assert (Ht1 : forall d w, st1 !! tmp_file_path cfg <> Some (File d false w)).
  { intros d w. subst st1.
    rewrite validate_frame by (intros Heq; exact (probe_neq_tmp cfg pd (eq_sym Heq))).
    apply Ht. }
  destruct (Hcf Ht1) as [w Hcfp].
  pose proof (to_string_utf8_valid c yaml Hn1 Hn2 Hy) as Hu.
  destruct (from_str_to_string c Hn1 Hn2) as (yaml' & Hy' & Hfs).
  rewrite Hy in Hy'. injection Hy' as <-.
  pose proof (validate_ok_state st pd Hv) as (Hne & Hpd0 & _).
  assert (Hpd : st1 !! (pd : path) = st !! (pd : path)) by exact Hpd0.
  assert (Hpd_dir : exists r w0, st1 !! (pd : path) = Some (Dir r w0)).
  { destruct (validate_ok_usable st pd Hv) as (_ & [w0 Hw0] & _).
    rewrite Hpd, Hw0. eauto. }
  destruct Hpd_dir as (r0 & w0 & Hpd1).
  assert (E1 : st' !! (pd : path) = st1 !! (pd : path)).
  { apply Hfr.
    - intros Heq. rewrite Heq in Hpd1. exact (Htd _ _ Hpd1).
    - intros Heq. rewrite Heq in Hpd1. exact (Hcd _ _ Hpd1).
    - left. rewrite Hpd1. discriminate. }
  assert (E2 : st' !! write_probe pd = st1 !! write_probe pd).
  { apply Hfr; [apply probe_neq_tmp|apply config_neq_probe|right; exact Hp]. }
  pose proof (validate_result_agree st' st1 pd E1 E2) as Hagree.
  assert (Hok2 : fst (validate_projects_directory st' pd) = Ok tt)
    by (rewrite Hagree; exact (validate_ok_again st pd Hv)).
  unfold load. unfold path_exists, read_to_string. rewrite Hcfp. cbv iota beta.
  cbn [negb]. rewrite Hu, Hfs. fold pd. rewrite Hb1, Hb2.
  destruct (validate_projects_directory st' pd) as [vr st2]. simpl in Hok2.
  rewrite Hok2. reflexivity.
Qed.

(** Writing a record with [to_string] and reading the text back with
    [from_str] gives the record again, when both fields are printable ASCII
    (each character from the space to [~]): a field is written plain or
    single-quoted, and either way read back as it was. *)
Theorem to_string_from_str_round_trip (c : Config) :
  printable_ascii (projects_directory c) = true -> printable_ascii (editor_cmd c) = true ->
  exists yaml, to_string c = Ok yaml /\ from_str yaml = Ok c.
Proof.
  intros H1 H2. destruct (from_str_to_string c H1 H2) as (yaml & Hy & Hf).
  exists yaml. split; [exact Hy|exact Hf].
Qed.

Lemma to_string_from_str_round_trip_witness :
  exists yaml,
    to_string {| projects_directory := "/home/u/my projects"; editor_cmd := "code -w #1 'x'" |}
    = Ok yaml /\
    from_str yaml
    = Ok {| projects_directory := "/home/u/my projects"; editor_cmd := "code -w #1 'x'" |}.
Proof.
  apply to_string_from_str_round_trip; reflexivity.
Defined.

(** [save] followed by [load]: once [save] succeeds, [load] returns [Ready]
    with the very record that was saved, provided the projects directory is
    not blank, both fields are printable ASCII, the directory's
    writability probe is not one of the directories [create_dir_all] walks
    through, and the temporary file, if it exists, is readable. *)
Theorem save_then_load (cfg : path) (flt : faults) (st st' : fs) (c : Config)
  (Hs : save cfg flt st c = (Ok tt, st'))
  (Hb : is_blank (projects_directory c) = false)
  (Hn1 : printable_ascii (projects_directory c) = true)
  (Hn2 : printable_ascii (editor_cmd c) = true)
  (Hp : ~ In (write_probe (projects_directory c)) (ancestors (app_config_dir cfg)))
  (Ht : forall d w, st !! tmp_file_path cfg <> Some (File d false w)) :
  fst (load cfg st') = Ok (Ready c).
Proof.
  unfold save in Hs.
  destruct (validate_projects_directory st (projects_directory c)) as [vr st1] eqn:Hv.
  destruct vr as [[]|e]; [|discriminate].
  destruct (is_blank (editor_cmd c)) eqn:Hb2; [discriminate|].
  destruct (to_string c) as [yaml|m] eqn:Hy; [|discriminate].
  destruct (run_protocol flt st1 (persist_protocol cfg yaml)) as [[[]|e] st2] eqn:Hr;
    [|discriminate].
  injection Hs as <-.
  apply (load_after_validated_persist cfg flt st st2 c yaml);
    try (rewrite Hv; first [reflexivity|exact Hr]); assumption.
Qed.

(** [create_and_persist] followed by [load]: a successful call returns the
    record with the trimmed editor command, and [load] then returns [Ready]
    with that record, under the same conditions as for [save]. *)
Theorem create_and_persist_then_load (cfg : path) (flt : faults) (st st' : fs)
  (pd cmd : string) (c : Config)
  (Hs : create_and_persist cfg flt st pd cmd = (Ok c, st'))
  (Hb : is_blank pd = false)
  (Hn1 : printable_ascii pd = true) (Hn2 : printable_ascii cmd = true)
  (Hp : ~ In (write_probe pd) (ancestors (app_config_dir cfg)))
  (Ht : forall d w, st !! tmp_file_path cfg <> Some (File d false w)) :
  c = {| projects_directory := pd; editor_cmd := trim cmd |} /\
  fst (load cfg st') = Ok (Ready c).
Proof.
  unfold create_and_persist in Hs.
  destruct (is_blank cmd) eqn:Hb2; [discriminate|].
  destruct (validate_projects_directory st pd) as [vr st1] eqn:Hv.
  destruct vr as [[]|e]; [|discriminate].
  destruct (to_string {| projects_directory := pd; editor_cmd := trim cmd |})
    as [yaml|m] eqn:Hy; [|discriminate].
  destruct (run_protocol flt st1 (persist_protocol cfg yaml)) as [[[]|e] st2] eqn:Hr;
    [|discriminate].
  injection Hs as <- <-. split; [reflexivity|].
  eapply (load_after_validated_persist cfg flt st st2
            {| projects_directory := pd; editor_cmd := trim cmd |} yaml); cbn [projects_directory editor_cmd].
  - rewrite Hv. reflexivity.
  - exact Hy.
  - rewrite Hv. exact Hr.
  - exact Hb.
  - rewrite is_blank_trim. exact Hb2.
  - exact Hn1.
  - apply printable_trim. exact Hn2.
  - exact Hp.
  - exact Ht.
Qed.

Lemma save_then_load_witness :
  fst (load home_cfg (snd (save home_cfg no_faults st_base cfg_p_code))) = Ok (Ready cfg_p_code).
Proof.
  apply (save_then_load home_cfg no_faults st_base _ cfg_p_code).
  - vm_compute. reflexivity.
  - reflexivity.
  - reflexivity.
  - reflexivity.
  - vm_compute. intuition discriminate.
  - intros d w. vm_compute. discriminate.
Defined.

Lemma create_and_persist_then_load_witness :
  {| projects_directory := "/p"; editor_cmd := trim " code " |} =
    {| projects_directory := "/p"; editor_cmd := trim " code " |} /\
  fst (load home_cfg (snd (create_and_persist home_cfg no_faults st_base "/p" " code "))) =
    Ok (Ready {| projects_directory := "/p"; editor_cmd := trim " code " |}).
Proof.
  apply (create_and_persist_then_load home_cfg no_faults st_base _ "/p" " code ").
  - vm_compute. reflexivity.
  - reflexivity.
  - reflexivity.
  - reflexivity.
  - vm_compute. intuition discriminate.
  - intros d w. vm_compute. discriminate.
Defined.

(** How [save] fails: a [Validation] error is the validator's error, or
    [EmptyField "editor_cmd"] when the directory validates and the editor
    command is blank (the directory is checked first, unlike in
    [create_and_persist]); and whenever [save] fails, the entry at the
    configuration path is what it was before the call. *)
Theorem save_errors (cfg : path) (flt : faults) (st : fs) (c : Config) :
  (forall e, fst (save cfg flt st c) = Err (Validation e) <->
     fst (validate_projects_directory st (projects_directory c)) = Err e \/
     (fst (validate_projects_directory st (projects_directory c)) = Ok tt /\
      is_blank (editor_cmd c) = true /\ e = EmptyField "editor_cmd")) /\
  (forall e, fst (save cfg flt st c) = Err e ->
     snd (save cfg flt st c) !! config_file_path cfg = st !! config_file_path cfg).
Proof.
  pose proof (validate_frame st (projects_directory c) (config_file_path cfg)
                (fun H => config_neq_probe cfg _ (eq_sym H))) as Hfr.
  unfold save.
  destruct (validate_projects_directory st (projects_directory c)) as [vr st1] eqn:Hv.
  simpl in Hfr. destruct vr as [[]|ve].
  - destruct (is_blank (editor_cmd c)) eqn:Hb.
    + simpl. split; [|intros; exact Hfr].
      intros e. split; [intros [= <-]; right; auto|].
      intros [H|(_ & _ & ->)]; [discriminate|reflexivity].
    + cbn [to_string].
      destruct (run_protocol flt st1 _) as [r st2] eqn:Hr.
      destruct r as [[]|e']; simpl.
      * split; [intros e; split; [discriminate|intros [H|(_ & H & _)]; discriminate]|].
        intros e H; discriminate.
      * split; [intros e; split; [discriminate|intros [H|(_ & H & _)]; discriminate]|].
        intros e _.
        apply run_protocol_err_removelast in Hr. rewrite Hr, <- Hfr.
        apply run_protocol_frame, (protocol_prefix_untouched cfg _ 4). lia.
  - simpl. split; [|intros; exact Hfr].
    intros e. split; [intros [= <-]; left; reflexivity|].
    intros [H|(H & _)]; [congruence|discriminate].
Qed.

(* ------------------------------------------------------------------ *)
(** ** Listing projects (list.rs) *)

Lemma strip_prefix_app (pre l rest : list ascii) :
  strip_prefix pre l = Some rest <-> l = (pre ++ rest)%list.
Proof.
  revert l. induction pre as [|c pre IH]; intros l.
  - simpl. split; congruence.
  - destruct l as [|d l]; simpl; [split; discriminate|].
    destruct (Ascii.eqb_spec c d) as [->|Hcd].
    + rewrite IH. split; [intros ->; reflexivity|intros [= ->]; reflexivity].
    + split; [discriminate|intros [= -> _]; congruence].
Qed.

Lemma path_join_dir_prefix (root nm : path) :
  root <> "" -> path_join root nm = ProjectList.dir_prefix root +:+ nm.
Proof.
  intros Hr. unfold path_join, ProjectList.dir_prefix.
  destruct root as [|c r]; [congruence|].
  destruct (ends_with_sep _); [reflexivity|]. apply append_assoc_str.
Qed.

Lemma child_name_iff (root k nm : path) :
  root <> "" ->
  ProjectList.child_name root k = Some nm <->
  k = path_join root nm /\ ProjectList.valid_component (list_ascii_of_string nm) = true.
Proof.
  intros Hr. rewrite (path_join_dir_prefix root nm Hr).
  unfold ProjectList.child_name. split.
  - destruct (strip_prefix _ _) as [rest|] eqn:Hs; [|discriminate].
    destruct (ProjectList.valid_component rest) eqn:Hv; [|discriminate].
    intros [= <-]. apply strip_prefix_app in Hs.
    rewrite list_ascii_of_string_of_list_ascii. split; [|exact Hv].
    apply list_ascii_of_string_inj. rewrite list_ascii_of_string_append, Hs.
    rewrite list_ascii_of_string_of_list_ascii. reflexivity.
  - intros [-> Hv]. rewrite list_ascii_of_string_append.
    rewrite (proj2 (strip_prefix_app _ _ (list_ascii_of_string nm)) eq_refl), Hv.
    rewrite string_of_list_ascii_of_string. reflexivity.
Qed.

Lemma dir_entries_iff (st : fs) (root nm : path) (n : node) :
  root <> "" ->
  In (nm, n) (ProjectList.dir_entries st root) <->
  st !! path_join root nm = Some n /\
  ProjectList.valid_component (list_ascii_of_string nm) = true.
Proof.
  intros Hr. unfold ProjectList.dir_entries.
  rewrite <- list_elem_of_In, list_elem_of_omap. split.
  - intros ([k n'] & Hin & Hf). simpl in Hf.
    destruct (ProjectList.child_name root k) as [nm'|] eqn:Hc; [|discriminate].
    injection Hf as -> ->. apply child_name_iff in Hc as [-> Hv]; [|exact Hr].
    apply elem_of_map_to_list in Hin. auto.
  - intros [Hl Hv]. exists (path_join root nm, n). split.
    + apply elem_of_map_to_list. exact Hl.
    + simpl. rewrite (proj2 (child_name_iff root _ nm Hr) (conj eq_refl Hv)). reflexivity.
Qed.

Lemma NoDup_map_omap {A B C D} (f : A -> option B) (ka : A -> C) (kb : B -> D)
  (h : D -> C) (l : list A) :
  (forall a b, f a = Some b -> ka a = h (kb b)) ->
  NoDup (map ka l) -> NoDup (map kb (omap f l)).
Proof.
  intros Hf. induction l as [|a l IH]; intros Hnd; [constructor|].
  simpl in Hnd. apply NoDup_cons in Hnd as [Hnin Hnd].
  simpl. destruct (f a) as [b|] eqn:Hfa; [|apply IH, Hnd].
  simpl. apply NoDup_cons. split; [|apply IH, Hnd].
  rewrite list_elem_of_In. intros Hin. apply Hnin. apply list_elem_of_In.
  apply in_map_iff in Hin as (b' & Heq & Hb').
  apply list_elem_of_In, list_elem_of_omap in Hb' as (a' & Ha' & Hfa').
  apply in_map_iff. exists a'. split; [|apply list_elem_of_In; exact Ha'].
  rewrite (Hf _ _ Hfa), (Hf _ _ Hfa'), Heq. reflexivity.
Qed.

Section Sorting.
Variable lower : string -> string.

Lemma insert_sorted_perm (x : ProjectList.ProjectInfo) (l : list ProjectList.ProjectInfo) :
  Permutation (ProjectList.insert_sorted lower x l) (x :: l).
Proof.
  induction l as [|y l IH]; simpl; [reflexivity|].
  destruct (ProjectList.cmp_lower lower x y); try reflexivity.
  rewrite IH. constructor.
Qed.

Lemma sort_by_lower_perm (l : list ProjectList.ProjectInfo) :
  Permutation (ProjectList.sort_by_lower lower l) l.
Proof.
  induction l as [|x l IH]; simpl; [reflexivity|].
  rewrite insert_sorted_perm, IH. reflexivity.
Qed.

Lemma cmp_lower_gt (x y : ProjectList.ProjectInfo) :
  ProjectList.cmp_lower lower x y = Gt -> not_after lower y x.
Proof.
  unfold not_after, ProjectList.cmp_lower. intros H Hc.
  rewrite String.compare_antisym, H in Hc. discriminate.
Qed.

Lemma insert_sorted_hd (x y : ProjectList.ProjectInfo) (l : list ProjectList.ProjectInfo) :
  HdRel (not_after lower) y l -> not_after lower y x ->
  HdRel (not_after lower) y (ProjectList.insert_sorted lower x l).
Proof.
  intros Hh Hyx. destruct l as [|z l]; simpl; [constructor; exact Hyx|].
  destruct (ProjectList.cmp_lower lower x z); constructor; try exact Hyx.
  inversion Hh; assumption.
Qed.

Lemma insert_sorted_sorted (x : ProjectList.ProjectInfo) (l : list ProjectList.ProjectInfo) :
  Sorted (not_after lower) l -> Sorted (not_after lower) (ProjectList.insert_sorted lower x l).
Proof.
  induction l as [|y l IH]; intros Hs; simpl; [repeat constructor|].
  destruct (ProjectList.cmp_lower lower x y) eqn:Hc.
  - constructor; [exact Hs|constructor; unfold not_after; rewrite Hc; discriminate].
  - constructor; [exact Hs|constructor; unfold not_after; rewrite Hc; discriminate].
  - inversion Hs as [|? ? Hs' Hh]; subst. constructor; [apply IH, Hs'|].
    apply insert_sorted_hd; [exact Hh|apply cmp_lower_gt, Hc].
Qed.

Lemma sort_by_lower_sorted (l : list ProjectList.ProjectInfo) :
  Sorted (not_after lower) (ProjectList.sort_by_lower lower l).
Proof.
  induction l as [|x l IH]; simpl; [constructor|]. apply insert_sorted_sorted, IH.
Qed.

End Sorting.

Lemma path_join_last_neq (x y n1 n2 : path) (r1 r2 : list ascii) (c1 c2 : ascii) :
  list_ascii_of_string n1 = (r1 ++ [c1])%list -> list_ascii_of_string n2 = (r2 ++ [c2])%list ->
  c1 <> c2 -> path_join x n1 <> path_join y n2.
Proof.
  intros H1 H2 Hc.
  destruct (path_join_suffix x n1) as [pre1 ->].
  destruct (path_join_suffix y n2) as [pre2 ->].
  intros Heq. apply (f_equal list_ascii_of_string) in Heq.
  rewrite !list_ascii_of_string_append, H1, H2, !app_assoc in Heq.
  apply app_inj_tail in Heq as [_ Heq]. exact (Hc Heq).
Qed.

Lemma cargo_toml_neq_probe (root d : path) :
  path_join d "Cargo.toml" <> write_probe root.
Proof.
  apply (path_join_last_neq _ _ _ _ (list_ascii_of_string "Cargo.tom") (list_ascii_of_string ".rustm_write_prob") "l"%char "e"%char);
    [reflexivity|reflexivity|discriminate].
Qed.

Lemma git_dir_neq_probe (root d : path) :
  path_join d ".git" <> write_probe root.
Proof.
  apply (path_join_last_neq _ _ _ _ (list_ascii_of_string ".gi") (list_ascii_of_string ".rustm_write_prob") "t"%char "e"%char);
    [reflexivity|reflexivity|discriminate].
Qed.

(** After a successful validation the probe path holds no directory, neither
    before nor after the call. *)
Lemma validate_probe_not_dir (st : fs) (p : path) :
  fst (validate_projects_directory st p) = Ok tt ->
  (forall r w, st !! write_probe p <> Some (Dir r w)) /\
  (forall r w, snd (validate_projects_directory st p) !! write_probe p <> Some (Dir r w)).
Proof.
  intros Hok. destruct (decide (p = "")) as [->|Hne]; [discriminate|].
  rewrite (validate_nonempty st p Hne) in *.
  destruct (st !! p) as [[|[] w]|]; try discriminate.
  destruct (file_create st p (write_probe p)) as [st1|] eqn:Hc; [|discriminate].
  destruct (file_create_ok _ _ _ _ Hc) as (r & w' & -> & Hm).
  split.
  - intros r0 w0 Hd. rewrite Hd in Hm. exact Hm.
  - simpl. destruct (remove_file _ p (write_probe p)) as [st2|] eqn:Hr.
    + unfold remove_file in Hr. rewrite lookup_insert_eq in Hr.
      destruct (_ !! p) as [[|? []]|]; try discriminate. injection Hr as <-.
      rewrite lookup_delete_eq. discriminate.
    + rewrite lookup_insert_eq. discriminate.
Qed.

Lemma list_frame_file (st st1 : fs) (root d : path) :
  (forall q, q <> write_probe root -> st1 !! q = st !! q) ->
  ProjectList.path_is_file st1 (path_join d "Cargo.toml") =
  ProjectList.path_is_file st (path_join d "Cargo.toml").
Proof.
  intros Hf. unfold ProjectList.path_is_file. rewrite Hf; [reflexivity|].
  apply cargo_toml_neq_probe.
Qed.

Lemma list_frame_git (git : string -> result bool string) (st st1 : fs) (root d : path) :
  (forall q, q <> write_probe root -> st1 !! q = st !! q) ->
  ProjectList.scan_git_status git st1 d = ProjectList.scan_git_status git st d.
Proof.
  intros Hf. unfold ProjectList.scan_git_status, path_exists. rewrite Hf; [reflexivity|].
  apply git_dir_neq_probe.
Qed.

Lemma list_projects_ok_spec (lower : string -> string)
  (git : string -> result bool string) (st : fs)
  (config : Config) (ps : list ProjectList.ProjectInfo) (st1 : fs) :
  ProjectList.list_projects lower git st config = (Ok ps, st1) ->
  (forall p, In p ps <->
     exists nm r w,
       st !! path_join (projects_directory config) nm = Some (Dir r w) /\
       ProjectList.valid_component (list_ascii_of_string nm) = true /\
       ProjectList.path_is_file st
         (path_join (path_join (projects_directory config) nm) "Cargo.toml") = true /\
       p = {| ProjectList.name := ProjectList.name_of_entry nm;
              ProjectList.path := path_join (projects_directory config) nm;
              ProjectList.has_uncommitted_changes :=
                match ProjectList.scan_git_status git st
                        (path_join (projects_directory config) nm) with
                | Ok b => b | Err _ => false end |}) /\
  NoDup (map ProjectList.path ps) /\
  Sorted (not_after lower) ps.
Proof.
  intros Hl. unfold ProjectList.list_projects in Hl.
  set (root := projects_directory config) in *.
  destruct (validate_projects_directory st root) as [vr st2] eqn:Hv.
  destruct vr as [[]|e]; [|discriminate].
  destruct (read_dir st2 root); [|discriminate].
  injection Hl as <- <-.
  assert (Hok : fst (validate_projects_directory st root) = Ok tt) by (rewrite Hv; reflexivity).
  destruct (validate_ok_state st root Hok) as [Hne _].
  destruct (validate_probe_not_dir st root Hok) as [Hpd1 Hpd2].
  rewrite Hv in Hpd2. simpl in Hpd2.
  assert (Hf : forall q, q <> write_probe root -> st2 !! q = st !! q).
  { intros q Hq. pose proof (validate_frame st root q Hq) as H. rewrite Hv in H. exact H. }
  split; [|split].
  - intros p. split.
    + intros Hin. apply (Permutation_in _ (sort_by_lower_perm lower _)) in Hin.
      apply list_elem_of_In, list_elem_of_omap in Hin as ([nm n] & Hin & Hp).
      apply list_elem_of_In, (dir_entries_iff _ _ _ _ Hne) in Hin as [Hn Hv'].
      simpl in Hp. destruct n as [? ? ?|r w]; [discriminate|].
      assert (Hq : path_join root nm <> write_probe root).
      { intros Heq. rewrite Heq in Hn. exact (Hpd2 r w Hn). }
      rewrite (list_frame_file st st2 root), (list_frame_git git st st2 root) in Hp by exact Hf.
      destruct (ProjectList.path_is_file st _) eqn:Hc; [|discriminate].
      injection Hp as <-. exists nm, r, w.
      rewrite <- (Hf _ Hq). auto.
    + intros (nm & r & w & Hn & Hv' & Hc & ->).
      apply (Permutation_in _ (Permutation_sym (sort_by_lower_perm lower _))).
      apply list_elem_of_In, list_elem_of_omap. exists (nm, Dir r w). split.
      * apply list_elem_of_In, (dir_entries_iff _ _ _ _ Hne). split; [|exact Hv'].
        rewrite Hf; [exact Hn|]. intros Heq. rewrite Heq in Hn. exact (Hpd1 r w Hn).
      * simpl. rewrite (list_frame_file st st2 root), (list_frame_git git st st2 root) by exact Hf.
        rewrite Hc. reflexivity.
  - rewrite (Permutation_map ProjectList.path (sort_by_lower_perm lower _)).
    apply (NoDup_map_omap _ (fun e => path_join root e.1) ProjectList.path (fun x => x)).
    + intros [nm n] p Hp. simpl in Hp. destruct n; [discriminate|].
      destruct (ProjectList.path_is_file _ _); [|discriminate]. injection Hp as <-. reflexivity.
    + unfold ProjectList.dir_entries.
      apply (NoDup_map_omap _ fst (fun e => path_join root e.1) (fun x => x)).
      * intros [k n] [nm n'] Hc. simpl in Hc |- *.
        destruct (ProjectList.child_name root k) as [nm'|] eqn:Hcn; [|discriminate].
        injection Hc as -> ->. apply (child_name_iff _ _ _ Hne) in Hcn as [-> _]. reflexivity.
      * apply NoDup_fst_map_to_list.
  - apply sort_by_lower_sorted.
Qed.

(** A successful [list_projects] returns exactly the directories directly
    inside the projects directory that hold a [Cargo.toml] file, each with
    its path, the result of [scan_git_status] (an error counting as clean)
    and as name the entry name when it is valid UTF-8, the empty string
    otherwise; no path occurs twice, and the list is ordered by lowercased
    name. *)
Theorem list_projects_contents (lower : string -> string)
  (git : string -> result bool string) (st : fs)
  (config : Config) (ps : list ProjectList.ProjectInfo) (st1 : fs) :
  ProjectList.list_projects lower git st config = (Ok ps, st1) ->
  (forall p, In p ps <->
     exists nm r w,
       st !! path_join (projects_directory config) nm = Some (Dir r w) /\
       ProjectList.valid_component (list_ascii_of_string nm) = true /\
       ProjectList.path_is_file st
         (path_join (path_join (projects_directory config) nm) "Cargo.toml") = true /\
       p = {| ProjectList.name := ProjectList.name_of_entry nm;
              ProjectList.path := path_join (projects_directory config) nm;
              ProjectList.has_uncommitted_changes :=
                match ProjectList.scan_git_status git st
                        (path_join (projects_directory config) nm) with
                | Ok b => b | Err _ => false end |}) /\
  NoDup (map ProjectList.path ps) /\
  Sorted (not_after lower) ps.
Proof.
  apply list_projects_ok_spec.
Qed.

Lemma list_projects_contents_witness :
  ProjectList.list_projects ascii_lowercase git_sample st_list cfg_p_code =
    (Ok [projA; projb], snd (ProjectList.list_projects ascii_lowercase git_sample st_list cfg_p_code)) /\
  Sorted (not_after ascii_lowercase) [projA; projb].
Proof.
  assert (H : ProjectList.list_projects ascii_lowercase git_sample st_list cfg_p_code =
    (Ok [projA; projb], snd (ProjectList.list_projects ascii_lowercase git_sample st_list cfg_p_code)))
    by (vm_compute; reflexivity).
  split; [exact H|].
  exact (proj2 (proj2 (list_projects_contents _ _ _ _ _ _ H))).
Defined.

Lemma list_projects_err_spec (lower : string -> string) (git : string -> result bool string) (st : fs)
  (config : Config) :
  (forall m, fst (ProjectList.list_projects lower git st config) = Err (ProjectList.ProjectsDirInvalid m) <->
     exists e, fst (validate_projects_directory st (projects_directory config)) = Err e /\
               m = display_validation e) /\
  (forall e, fst (ProjectList.list_projects lower git st config) <> Err (ProjectList.Io e)) /\
  (forall q, q <> write_probe (projects_directory config) ->
     snd (ProjectList.list_projects lower git st config) !! q = st !! q).
Proof.
  unfold ProjectList.list_projects.
  set (root := projects_directory config).
  assert (Hsnd : snd (let (vr, st1) := validate_projects_directory st root in
      match vr with
      | Err e => (Err (ProjectList.ProjectsDirInvalid (display_validation e)), st1)
      | Ok _ => match read_dir st1 root with
                | Err e => (Err (ProjectList.Io e), st1)
                | Ok _ => (Ok (ProjectList.sort_by_lower lower (omap (ProjectList.project_of git st1 root)
                                 (ProjectList.dir_entries st1 root))), st1)
                end
      end) = snd (validate_projects_directory st root)).
  { destruct (validate_projects_directory st root) as [[]] ; [destruct (read_dir _ _)|]; reflexivity. }
  split; [|split].
  - intros m. destruct (validate_projects_directory st root) as [[[]|e] st1] eqn:Hv.
    + destruct (read_dir st1 root); simpl; split; try discriminate.
      all: intros (e0 & [=] & _).
    + simpl. split; [intros [= <-]; eauto|intros (e' & [= <-] & ->); reflexivity].
  - intros e. destruct (validate_projects_directory st root) as [[[]|e'] st1] eqn:Hv; [|discriminate].
    assert (Hok : fst (validate_projects_directory st root) = Ok tt) by (rewrite Hv; reflexivity).
    destruct (validate_ok_state st root Hok) as [_ [Hroot _]].
    destruct (validate_ok_usable st root Hok) as (_ & (w & Hw) & _).
    rewrite Hv in Hroot. simpl in Hroot.
    assert (Hr : read_dir st1 root = Ok tt).
    { unfold read_dir. change (st1 !! (root : path) = st !! (root : path)) in Hroot.
      rewrite Hroot, Hw. reflexivity. }
    rewrite Hr. discriminate.
  - intros q Hq. rewrite Hsnd. apply validate_frame, Hq.
Qed.

(** How [list_projects] fails, and what it touches: a [ProjectsDirInvalid]
    error carries the rendered validation error; an [Io] error never occurs,
    since a directory that validates can be read; and every entry other than
    the writability probe is left as it was. *)
Theorem list_projects_errors (lower : string -> string) (git : string -> result bool string) (st : fs)
  (config : Config) :
  (forall m, fst (ProjectList.list_projects lower git st config) = Err (ProjectList.ProjectsDirInvalid m) <->
     exists e, fst (validate_projects_directory st (projects_directory config)) = Err e /\
               m = display_validation e) /\
  (forall e, fst (ProjectList.list_projects lower git st config) <> Err (ProjectList.Io e)) /\
  (forall q, q <> write_probe (projects_directory config) ->
     snd (ProjectList.list_projects lower git st config) !! q = st !! q).
Proof.
  apply list_projects_err_spec.
Qed.

(** The "List projects" screen: the notice "No Rust projects found." appears
    exactly when the projects directory validates and none of the directories
    directly inside it holds a [Cargo.toml] file; when validation fails, the
    screen shows the rendered validation error. *)
Theorem show_list_projects_screen (lower : string -> string) (show_io : io_error -> string)
  (git : string -> result bool string) (st : fs) (config : Config) :
  (fst (ListView.show_list_projects lower show_io git st config) =
     ListView.InfoDialog "No Rust projects found." <->
   fst (validate_projects_directory st (projects_directory config)) = Ok tt /\
   forall nm r w,
     st !! path_join (projects_directory config) nm = Some (Dir r w) ->
     ProjectList.valid_component (list_ascii_of_string nm) = true ->
     ProjectList.path_is_file st
       (path_join (path_join (projects_directory config) nm) "Cargo.toml") = false) /\
  (forall e, fst (validate_projects_directory st (projects_directory config)) = Err e ->
     fst (ListView.show_list_projects lower show_io git st config) =
       ListView.InfoDialog ("Failed to list projects:" +:+ nl +:+
                            "Projects directory invalid: " +:+ display_validation e)).
Proof.
  destruct (list_projects_err_spec lower git st config) as (Hinv & Hio & _).
  unfold ListView.show_list_projects.
  destruct (ProjectList.list_projects lower git st config) as [[ps|le] st1] eqn:Hl.
  - pose proof (list_projects_ok_spec lower git st config ps st1 Hl) as (Hin & _ & _).
    assert (Hok : fst (validate_projects_directory st (projects_directory config)) = Ok tt).
    { unfold ProjectList.list_projects in Hl.
      destruct (validate_projects_directory _ _) as [[[]|e] st2];
        [reflexivity|discriminate]. }
    split.
    + split.
      * intros Hs. destruct ps as [|p ps]; [|discriminate]. split; [exact Hok|].
        intros nm r w Hn Hv. destruct (ProjectList.path_is_file _ _) eqn:Hc; [|reflexivity].
        exfalso.
        destruct (proj2 (Hin _)
          (ex_intro _ nm (ex_intro _ r (ex_intro _ w (conj Hn (conj Hv (conj Hc eq_refl))))))).
      * intros [_ Hnone]. destruct ps as [|p ps]; [reflexivity|exfalso].
        destruct (proj1 (Hin p) (or_introl eq_refl)) as (nm & r & w & Hn & Hv & Hc & _).
        rewrite (Hnone nm r w Hn Hv) in Hc. discriminate.
    + intros e He. rewrite Hok in He. discriminate.
  - destruct le as [m|ie]; [|exfalso; exact (Hio ie eq_refl)].
    destruct (proj1 (Hinv m) eq_refl) as (e & He & ->).
    split.
    + split.
      * intros [=].
      * intros [Hok _]. rewrite He in Hok. discriminate.
    + intros e' He'. rewrite He in He'. injection He' as <-. reflexivity.
Qed.
